(** * doremichord: ratio engine, note/chord registry and rhythmic gate

    A shallow embedding of the music-theory layer ([getFrequencyFromRatio],
    [buildChordFrequencies]), of the keyed registry of sounding voices
    ([startNote], [startChord], [stopNoteByKey], [stopAllNotes]) and of the
    tempo-synchronised gate ([getNoteDuration], [shuffleArray],
    [startGateLoop], [scheduleNextGateCycle], [updateGateAmount],
    [updateGateSpeedSequence]) of the browser synthesiser.

    Around them: the chord modes ([createChordWithExtensions],
    [getJazz7Extensions], [getJazz79Extensions], [getJazz13Extensions]),
    [clearActiveNotes], [updatePitchBend], the legacy [updateGateSpeed],
    the sixteen-key ratio engine and [startChord] of [MusicSoundManager],
    the wave shaper of [createDistortion], [triggerSidechainDuck], and the
    parameters of the [SnareDrum] and [HiHat] constructors.

    JavaScript numbers are modelled by exact rationals extended with the
    two infinities and NaN; the rounding of IEEE doubles and the sign of
    zero are not modelled.  Where the source leaves the doubles, it is
    modelled: a [Float32Array] rounds what it stores to a float32
    ([fround]), [Math.pow(2, n)] overflows and underflows ([pow2]), and
    the platform's [Math.ceil] of a product of doubles is a parameter, as
    [Math.sin] is. *)

From Stdlib Require Import QArith Qround Qabs Qminmax Lqa ZArith String Ascii List Lia.
From Stdlib Require Import Qpower.
From stdpp Require Import gmap strings list fin_maps.

Open Scope Q_scope.

Set Warnings "-clear-no-such-hyp".

(** ** JavaScript numbers *)

Module JsNum.

Inductive num : Type :=
| Fin (q : Q)          (* a finite number *)
| Inf (negative : bool) (* +Infinity / -Infinity *)
| NaN.

Definition Qis_zero (q : Q) : bool := Qeq_bool q 0.
Definition Qis_neg (q : Q) : bool :=
  match Qcompare q 0 with Lt => true | _ => false end.

(** [a * b] *)
Definition mul (a b : num) : num :=
  match a, b with
  | NaN, _ | _, NaN => NaN
  | Fin x, Fin y => Fin (x * y)
  | Fin x, Inf s | Inf s, Fin x =>
      if Qis_zero x then NaN else Inf (xorb s (Qis_neg x))
  | Inf s, Inf t => Inf (xorb s t)
  end.

(** [a / b]; a zero divisor is taken to be +0. *)
Definition div (a b : num) : num :=
  match a, b with
  | NaN, _ | _, NaN => NaN
  | Fin x, Fin y =>
      if Qis_zero y
      then (if Qis_zero x then NaN else Inf (Qis_neg x))
      else Fin (x / y)
  | Fin _, Inf _ => Fin 0
  | Inf s, Fin y => Inf (xorb s (Qis_neg y))
  | Inf _, Inf _ => NaN
  end.

(** [a === b] on numbers: NaN is different from everything. *)
Definition strict_eq (a b : num) : bool :=
  match a, b with
  | Fin x, Fin y => Qeq_bool x y
  | Inf s, Inf t => Bool.eqb s t
  | _, _ => false
  end.

(** Truthiness of a number: 0 and NaN are falsy. *)
Definition truthy (a : num) : bool :=
  match a with
  | Fin x => negb (Qis_zero x)
  | Inf _ => true
  | NaN => false
  end.

(** Equality of numbers up to the representation of the rational. *)
Definition eqv (a b : num) : Prop :=
  match a, b with
  | Fin x, Fin y => x == y
  | Inf s, Inf t => s = t
  | NaN, NaN => True
  | _, _ => False
  end.

Definition of_Z (z : Z) : num := Fin (inject_Z z).

(** [Math.pow(2, n)] for an integer [n].  The powers of two from 2^-1074
    to 2^1023 are doubles; above them the result is Infinity, below 0. *)
Definition pow2 (n : Z) : num :=
  if (1023 <? n)%Z then Inf false
  else if (n <? -1074)%Z then Fin 0
  else Fin (Qpower 2 n).

(** The integer nearest to [x], the even one of the two when [x] lies
    half way between them. *)
Definition round_half_even (x : Q) : Z :=
  let f := Qfloor x in
  match Qcompare (x - inject_Z f) (1 # 2) with
  | Lt => f
  | Gt => (f + 1)%Z
  | Eq => if Z.even f then f else (f + 1)%Z
  end.

(** The exponent [e] of a positive number: [2^e <= x < 2^(e+1)]. *)
Definition exponent_of (x : Q) : Z :=
  let e := (Z.log2 (Qnum x) - Z.log2 (Zpos (Qden x)))%Z in
  if Qle_bool (Qpower 2 e) x then e else (e - 1)%Z.

(** The binary digits a float32 keeps behind the point for [x]: 24
    significant bits, and no digit beyond the 149th. *)
Definition digits_of (x : Q) : Z := Z.min 149 (23 - exponent_of (Qabs x)).

(** What an element of a [Float32Array] holds once [x] has been stored in
    it, [Math.fround(x)]: the nearest float32, the one with the even
    significand at a tie.  Taken on magnitudes below 2^128, where the
    result is finite. *)
Definition fround (x : Q) : Q :=
  if Qis_zero x then 0
  else
    let k := digits_of x in
    inject_Z (round_half_even (x * Qpower 2 k)) / Qpower 2 k.

(** Storing a number in a [Float32Array]: a magnitude that rounds to
    2^128 or more becomes an infinity. *)
Definition store32 (a : num) : num :=
  match a with
  | Fin x =>
      let y := fround x in
      if Qle_bool (Qpower 2 128) (Qabs y) then Inf (Qis_neg x) else Fin y
  | Inf _ | NaN => a
  end.

(** [a + b] *)
Definition add (a b : num) : num :=
  match a, b with
  | NaN, _ | _, NaN => NaN
  | Fin x, Fin y => Fin (x + y)
  | Fin _, Inf s | Inf s, Fin _ => Inf s
  | Inf s, Inf t => if Bool.eqb s t then Inf s else NaN
  end.

(** The double an arithmetic result becomes where the source computes
    with numbers of any size: the largest double is 2^1024 - 2^971, and a
    magnitude half a step above it or more is an infinity. *)
Definition overflow (a : num) : num :=
  match a with
  | Fin x =>
      if Qle_bool (Qpower 2 1024 - Qpower 2 970) (Qabs x) then Inf (Qis_neg x) else a
  | Inf _ | NaN => a
  end.

End JsNum.

Import JsNum.

(** ** JavaScript strings: the three operations the gate uses

    A string is the sequence of its code units, each below 256. *)

Module JsString.

(** Last character of a string, if any. *)
Fixpoint last_char (s : string) : option ascii :=
  match s with
  | EmptyString => None
  | String c rest =>
      match rest with
      | EmptyString => Some c
      | String _ _ => last_char rest
      end
  end.

(** [s.endsWith(c)] for a one-character suffix [c]. *)
Definition endsWith (s : string) (c : ascii) : bool :=
  match last_char s with
  | Some d => Ascii.eqb d c
  | None => false
  end.

(** [s.slice(0, -1)]: everything but the last character. *)
Fixpoint slice_0_m1 (s : string) : string :=
  match s with
  | EmptyString => EmptyString
  | String c rest =>
      match rest with
      | EmptyString => EmptyString
      | String _ _ => String c (slice_0_m1 rest)
      end
  end.

(** White space skipped by [parseInt]: the members of StrWhiteSpaceChar
    below 256 (tab, line feed, vertical tab, form feed, carriage return,
    space, no-break space). *)
Definition is_white_space (c : ascii) : bool :=
  let n := nat_of_ascii c in
  ((9 <=? n) && (n <=? 13))%nat || (n =? 32)%nat || (n =? 160)%nat.

Fixpoint skip_white_space (s : string) : string :=
  match s with
  | String c rest => if is_white_space c then skip_white_space rest else s
  | EmptyString => EmptyString
  end.

(** Value of a character as a digit: 0-9, then a-z and A-Z for 10-35. *)
Definition digit_value (c : ascii) : option Z :=
  let n := Z.of_nat (nat_of_ascii c) in
  if ((48 <=? n) && (n <=? 57))%Z then Some (n - 48)%Z
  else if ((97 <=? n) && (n <=? 122))%Z then Some (n - 87)%Z
  else if ((65 <=? n) && (n <=? 90))%Z then Some (n - 55)%Z
  else None.

Definition radix_digit (radix : Z) (c : ascii) : option Z :=
  match digit_value c with
  | Some d => if (d <? radix)%Z then Some d else None
  | None => None
  end.

(** Longest prefix of radix-[radix] digits, read left to right; [acc] is
    [None] until the first digit has been seen. *)
Fixpoint parse_digits (radix : Z) (acc : option Z) (s : string) : option Z :=
  match s with
  | EmptyString => acc
  | String c rest =>
      match radix_digit radix c with
      | Some d =>
          parse_digits radix
            (Some (match acc with Some a => a * radix + d | None => d end)%Z)
            rest
      | None => acc
      end
  end.

(** The optional sign of [parseInt]: is it negative, and the rest. *)
Definition strip_sign (s : string) : bool * string :=
  match s with
  | String "-" rest => (true, rest)
  | String "+" rest => (false, rest)
  | _ => (false, s)
  end.

(** The optional [0x]/[0X] prefix of [parseInt]: the radix, and the rest. *)
Definition strip_radix_prefix (s : string) : Z * string :=
  match s with
  | String "0" (String "x" rest) => (16%Z, rest)
  | String "0" (String "X" rest) => (16%Z, rest)
  | _ => (10%Z, s)
  end.

(** [parseInt(s)] with no radix argument: leading white space, an optional
    sign, an optional [0x]/[0X] prefix selecting radix 16, then the longest
    run of digits; NaN when there is no digit. *)
Definition parseInt (s : string) : num :=
  let s1 := skip_white_space s in
  let '(negative, s2) := strip_sign s1 in
  let '(radix, s3) := strip_radix_prefix s2 in
  match parse_digits radix None s3 with
  | Some z => of_Z (if negative then - z else z)
  | None => NaN
  end.

(** The decimal numeral with the given digits, most significant first. *)
Definition digit_char (d : nat) : ascii := ascii_of_nat (48 + d).

Fixpoint numeral (ds : list nat) : string :=
  match ds with
  | [] => EmptyString
  | d :: ds' => String (digit_char d) (numeral ds')
  end.

(** The number a digit list denotes (Horner's rule, from [acc]). *)
Fixpoint numeral_value (acc : Z) (ds : list nat) : Z :=
  match ds with
  | [] => acc
  | d :: ds' => numeral_value (acc * 10 + Z.of_nat d) ds'
  end.

End JsString.

Import JsString.

(** ** Plain objects used as maps

    An object literal inherits from [Object.prototype]: reading [obj[key]]
    gives the own property when there is one, and otherwise the member of
    the prototype of that name, a function (or, for [__proto__], the
    prototype itself).  Such a member is truthy, is no array, has no
    [forEach] and no element 0, and converts to the number NaN. *)

Module JsObject.

(** The names of the members of [Object.prototype]. *)
Definition Object_prototype : list string :=
  ["constructor"; "hasOwnProperty"; "isPrototypeOf"; "propertyIsEnumerable";
   "toLocaleString"; "toString"; "valueOf"; "__proto__";
   "__defineGetter__"; "__defineSetter__"; "__lookupGetter__"; "__lookupSetter__"].

(** Is [key] the name of a member of [Object.prototype]? *)
Definition inherited (key : string) : bool :=
  existsb (String.eqb key) Object_prototype.

(** What [obj[key]] finds. *)
Inductive Property (A : Type) : Type :=
| Own (a : A)  (* an own property *)
| Inherited    (* a member of Object.prototype *)
| Missing      (* undefined *).
Arguments Own {A} a.
Arguments Inherited {A}.
Arguments Missing {A}.

(** [obj[key]] on an object whose own properties are [obj]. *)
Definition get {A} (obj : gmap string A) (key : string) : Property A :=
  match obj !! key with
  | Some a => Own a
  | None => if inherited key then Inherited else Missing
  end.

(** [obj[key]] finds a member of the prototype, not an own property. *)
Definition inherits {A} (obj : gmap string A) (key : string) : bool :=
  match obj !! key with
  | Some _ => false
  | None => inherited key
  end.

End JsObject.

(** ** Note values and their duration *)

(** An element of the gate sequence: a token such as ["8"] or ["4T"], a
    plain number (the legacy [updateGateSpeed] passes numbers), or
    [undefined]. *)
Inductive NoteValue : Type :=
| NVStr (s : string)
| NVNum (n : num)
| NVUndefined.

(** [getNoteDuration(noteValue, bpm)] *)
Definition getNoteDuration (noteValue : NoteValue) (bpm : num) : num :=
  let beatDuration := div (Fin 60) bpm in
  match noteValue with
  | NVStr s =>
      if endsWith s "T" then
        let baseValue := parseInt (slice_0_m1 s) in
        if strict_eq baseValue (Fin 8) then div beatDuration (Fin 3)
        else if strict_eq baseValue (Fin 4) then mul beatDuration (Fin (2 / 3))
        else if strict_eq baseValue (Fin 2) then mul beatDuration (Fin (4 / 3))
        else if strict_eq baseValue (Fin 1) then mul beatDuration (Fin (8 / 3))
        else beatDuration (* fallback *)
      else
        div beatDuration (parseInt s)
  | NVNum n => div beatDuration n
  | NVUndefined => div beatDuration NaN
  end.

(** Closeness of a number to a decimal value. *)
Definition close_to (x : num) (value tolerance : Q) : Prop :=
  match x with
  | Fin q => Qabs (q - value) <= tolerance
  | _ => False
  end.

(** ** Exceptions and module-level state

    A JavaScript function of the program reads and writes module-level
    variables and may throw; a thrown exception keeps the writes made
    before it.  [M W A] is the corresponding state-and-exception monad
    over the world [W] of the variables the function can reach. *)

Inductive JsError : Type := TypeError | RangeError | InvalidStateError.

Inductive Result (A : Type) : Type :=
| Ok (a : A)
| Throw (e : JsError).
Arguments Ok {A} a.
Arguments Throw {A} e.

Definition M (W A : Type) : Type := W -> Result A * W.

#[global] Instance M_ret {W} : MRet (M W) := fun A a w => (Ok a, w).
#[global] Instance M_bind {W} : MBind (M W) := fun A B f m w =>
  match m w with
  | (Ok a, w') => f a w'
  | (Throw e, w') => (Throw e, w')
  end.

Definition throw {W A} (e : JsError) : M W A := fun w => (Throw e, w).
Definition gets {W A} (f : W -> A) : M W A := fun w => (Ok (f w), w).
Definition modify {W} (f : W -> W) : M W unit := fun w => (Ok tt, f w).

(** [array.forEach(f)] *)
Fixpoint forEach {W A} (array : list A) (f : A -> M W unit) : M W unit :=
  match array with
  | [] => mret tt
  | x :: rest => f x ≫= fun _ => forEach rest f
  end.

Definition state_of {W A} (r : Result A * W) : W := snd r.
Definition result_of {W A} (r : Result A * W) : Result A := fst r.

(** ** Ratio/scale engine *)

(** The values found in the ratio tables: a number, an array, or, for a
    name the table inherits from [Object.prototype], a member of the
    prototype. *)
#[warnings="-register-all"]
Inductive JsRatio : Type :=
| RNumber (x : Q)
| RArray (elems : list JsRatio)
| RMember.

(** ToNumber of a table value: an array converts through its string form,
    so only arrays of at most one element can be numbers; a member of the
    prototype converts to NaN. *)
Fixpoint toNumber (r : JsRatio) : num :=
  match r with
  | RNumber x => Fin x
  | RArray elems =>
      match elems with
      | [] => Fin 0
      | [e] => toNumber e
      | _ :: _ :: _ => NaN
      end
  | RMember => NaN
  end.

(** ToNumber of [array[i]], [undefined] when out of range. *)
Definition toNumber_at (elems : list JsRatio) (i : nat) : num :=
  match elems !! i with
  | Some e => toNumber e
  | None => NaN
  end.

Definition ratio (n d : Z) : JsRatio :=
  RArray [RNumber (inject_Z n); RNumber (inject_Z d)].

Record ScaleNote : Type := { name : string; key : string; note_ratio : JsRatio }.

Definition MAJOR_SCALE_RATIOS : list ScaleNote :=
  [ {| name := "Lower La"; key := "a"; note_ratio := ratio 5 6 |};
    {| name := "Lower Ti"; key := "s"; note_ratio := ratio 15 16 |};
    {| name := "Do"; key := "d"; note_ratio := ratio 1 1 |};
    {| name := "Re"; key := "f"; note_ratio := ratio 9 8 |};
    {| name := "Mi"; key := "g"; note_ratio := ratio 5 4 |};
    {| name := "Fa"; key := "h"; note_ratio := ratio 4 3 |};
    {| name := "So"; key := "j"; note_ratio := ratio 3 2 |};
    {| name := "La"; key := "k"; note_ratio := ratio 5 3 |} ].

(** The own properties of the [CHORD_INTERVALS] object. *)
Definition CHORD_INTERVALS : gmap string JsRatio :=
  <["major" := RArray [ratio 1 1; ratio 5 4; ratio 3 2]]>
  (<["minor" := RArray [ratio 1 1; ratio 6 5; ratio 3 2]]>
  (<["seventh" := ratio 15 8]>
  (<["minorSeventh" := ratio 9 5]>
  (<["ninth" := ratio 9 4]>
  (<["eleventh" := ratio 11 4]>
  (<["thirteenth" := ratio 5 3]> ∅)))))).

Definition scaleDegreeChordTypes : list string :=
  ["minor"; "minor"; "major"; "minor"; "minor"; "major"; "major"; "minor"].

(** [table[name]] on a ratio table, [None] for [undefined]. *)
Definition table_entry (table : gmap string JsRatio) (name : string) : option JsRatio :=
  match JsObject.get table name with
  | JsObject.Own r => Some r
  | JsObject.Inherited => Some RMember
  | JsObject.Missing => None
  end.

(** [getFrequencyFromRatio(ratio, rootFreq)] *)
Definition getFrequencyFromRatio (r : JsRatio) (rootFreq : num) : num :=
  match r with
  | RArray elems => mul rootFreq (div (toNumber_at elems 0) (toNumber_at elems 1))
  | RNumber x => mul rootFreq (Fin x)
  | RMember => mul rootFreq (toNumber r)
  end.

(** [getScaleNoteFrequency(noteIndex, octave)]; reading [.ratio] of a
    missing table row throws. *)
Definition getScaleNoteFrequency (ROOT_FREQUENCY : num) (noteIndex : nat)
    (octave : Z) : Result num :=
  match MAJOR_SCALE_RATIOS !! noteIndex with
  | None => Throw TypeError
  | Some note =>
      let baseFreq := getFrequencyFromRatio (note_ratio note) ROOT_FREQUENCY in
      Ok (mul baseFreq (pow2 octave))
  end.

(** The elements [forEach] visits on a table value; only an array has a
    [forEach]. *)
Definition elements_of (r : JsRatio) : Result (list JsRatio) :=
  match r with
  | RArray elems => Ok elems
  | RNumber _ | RMember => Throw TypeError
  end.

(** [buildChordFrequencies(rootNoteIndex, chordType, extensions)] *)
Definition buildChordFrequencies (ROOT_FREQUENCY : num) (rootNoteIndex : nat)
    (chordType : string) (extensions : list string) : Result (list num) :=
  match getScaleNoteFrequency ROOT_FREQUENCY rootNoteIndex 0 with
  | Throw e => Throw e
  | Ok rootFreq =>
      let intervals :=
        match table_entry CHORD_INTERVALS chordType with
        | Some r => r
        | None => default (RArray []) (CHORD_INTERVALS !! "major")
        end in
      match elements_of intervals with
      | Throw e => Throw e
      | Ok elems =>
          let triad := map (fun interval => getFrequencyFromRatio interval rootFreq) elems in
          let added :=
            flat_map (fun ext =>
              match table_entry CHORD_INTERVALS ext with
              | Some r => [getFrequencyFromRatio r rootFreq]
              | None => []
              end) extensions in
          Ok (triad ++ added)
      end
  end.

(** The spec's wording of the chord tables, to compare the code with. *)
Module ChordSpec.

Definition degree_ratio (index : nat) : Q :=
  nth index [5 # 6; 15 # 16; 1; 9 # 8; 5 # 4; 4 # 3; 3 # 2; 5 # 3] 0.

Inductive ChordType : Type := major | minor.

Definition chordType_name (t : ChordType) : string :=
  match t with major => "major" | minor => "minor" end.

Definition triad_ratios (t : ChordType) : list Q :=
  match t with
  | major => [1; 5 # 4; 3 # 2]
  | minor => [1; 6 # 5; 3 # 2]
  end.

Inductive Extension : Type :=
| seventh | minorSeventh | ninth | eleventh | thirteenth.

Definition extension_name (e : Extension) : string :=
  match e with
  | seventh => "seventh"
  | minorSeventh => "minorSeventh"
  | ninth => "ninth"
  | eleventh => "eleventh"
  | thirteenth => "thirteenth"
  end.

Definition extension_ratio (e : Extension) : Q :=
  match e with
  | seventh => 15 # 8
  | minorSeventh => 9 # 5
  | ninth => 9 # 4
  | eleventh => 11 # 4
  | thirteenth => 5 # 3
  end.

Definition recognized (ext : string) : option Extension :=
  if String.eqb ext "seventh" then Some seventh
  else if String.eqb ext "minorSeventh" then Some minorSeventh
  else if String.eqb ext "ninth" then Some ninth
  else if String.eqb ext "eleventh" then Some eleventh
  else if String.eqb ext "thirteenth" then Some thirteenth
  else None.

(** Triad ratios in declared order, then the ratio of every recognized
    requested extension in request order. *)
Definition chord_ratios (t : ChordType) (extensions : list string) : list Q :=
  triad_ratios t ++ omap (fun ext => extension_ratio <$> recognized ext) extensions.

(** [extensions] with the name [ext] removed. *)
Definition without (ext : string) (extensions : list string) : list string :=
  filter (fun e => e <> ext) extensions.

End ChordSpec.

(** Equality of two lists of numbers, element by element. *)
Definition same_numbers : list num -> list num -> Prop := Forall2 eqv.

(** An extension name [buildChordFrequencies] either knows or skips: it
    names neither a triad of the table nor a member of [Object.prototype]. *)
Definition plain_extension (ext : string) : Prop :=
  ext <> "major" /\ ext <> "minor" /\ JsObject.inherited ext = false.

(** ** Note/chord registry *)

Inductive VoiceKind : Type := Sustained | SubBass.

(** What [createSustainedNote] and [createSubBass] return: the oscillator
    (named by the number the audio context gave it) and the base frequency
    recorded for pitch bending.  Of the gain envelopes only the values they
    reject are modelled; panning is not. *)
Record Voice : Type := {
  oscillator : nat;
  kind : VoiceKind;
  baseFrequency : num
}.

(** The module-level variables of the registry and the part of the audio
    context they act on.  [activeNotes] holds the own properties of the
    JavaScript object; it is read with [JsObject.get]. *)
Record Registry : Type := {
  ROOT_FREQUENCY : num;
  bassMode : bool;                          (* window.bassMode *)
  activeNotes : gmap string (list Voice);
  stopped : gset nat;                       (* oscillators on which stop() was called *)
  next_oscillator : nat;                    (* oscillators created so far *)
  stored : list (string * list Voice)       (* ghost: every entry ever stored, with its key *)
}.

Definition set_ROOT_FREQUENCY (f : num) (w : Registry) : Registry :=
  {| ROOT_FREQUENCY := f; bassMode := bassMode w; activeNotes := activeNotes w;
     stopped := stopped w; next_oscillator := next_oscillator w; stored := stored w |}.
Definition set_bassMode (b : bool) (w : Registry) : Registry :=
  {| ROOT_FREQUENCY := ROOT_FREQUENCY w; bassMode := b; activeNotes := activeNotes w;
     stopped := stopped w; next_oscillator := next_oscillator w; stored := stored w |}.
Definition set_activeNotes (m : gmap string (list Voice)) (w : Registry) : Registry :=
  {| ROOT_FREQUENCY := ROOT_FREQUENCY w; bassMode := bassMode w; activeNotes := m;
     stopped := stopped w; next_oscillator := next_oscillator w; stored := stored w |}.
Definition set_stopped (s : gset nat) (w : Registry) : Registry :=
  {| ROOT_FREQUENCY := ROOT_FREQUENCY w; bassMode := bassMode w; activeNotes := activeNotes w;
     stopped := s; next_oscillator := next_oscillator w; stored := stored w |}.
Definition set_next_oscillator (n : nat) (w : Registry) : Registry :=
  {| ROOT_FREQUENCY := ROOT_FREQUENCY w; bassMode := bassMode w; activeNotes := activeNotes w;
     stopped := stopped w; next_oscillator := n; stored := stored w |}.
Definition set_stored (h : list (string * list Voice)) (w : Registry) : Registry :=
  {| ROOT_FREQUENCY := ROOT_FREQUENCY w; bassMode := bassMode w; activeNotes := activeNotes w;
     stopped := stopped w; next_oscillator := next_oscillator w; stored := h |}.

(** The registry when the script has been loaded. *)
Definition initial_registry : Registry :=
  {| ROOT_FREQUENCY := Fin 261.63; bassMode := false; activeNotes := ∅;
     stopped := ∅; next_oscillator := 0; stored := [] |}.

(** The registry of [audio.js], the same code but for the base frequency,
    which it does not record: it is loaded with [window.bassMode = true]. *)
Definition initial_registry_audio_js : Registry := set_bassMode true initial_registry.

(** [Number.isFinite(x)] *)
Definition is_finite (x : num) : bool :=
  match x with Fin _ => true | _ => false end.

(** [audioContext.createOscillator()] *)
Definition createOscillator : M Registry nat := fun w =>
  (Ok (next_oscillator w), set_next_oscillator (S (next_oscillator w)) w).

(** [waterSynth.createSustainedNote(frequency)].  The Web Audio interface
    rejects a frequency that is not finite ([setValueAtTime] takes a
    restricted float) and an exponential ramp to 0. *)
Definition createSustainedNote (frequency : num) : M Registry Voice :=
  osc ← createOscillator;
  if negb (is_finite frequency) then throw TypeError
  else if strict_eq frequency (Fin 0) then throw RangeError
  else mret {| oscillator := osc; kind := Sustained; baseFrequency := frequency |}.

(** What the envelope needs to know of a gain: is it a positive number,
    zero, or no finite number at all. *)
Inductive GainClass : Type := PositiveGain | ZeroGain | NoFiniteGain.

(** [getFrequencyBasedGain(frequency, baseGain)], that is
    [baseGain * Math.sqrt(ROOT_FREQUENCY / frequency)], for a positive
    [baseGain] (0.35 for chords, the gain read back from the node for single
    notes).  The square root is not computed, only classified: the root of a
    negative number is NaN. *)
Definition getFrequencyBasedGain (root frequency : num) : GainClass :=
  match div root frequency with
  | Fin q => if Qis_zero q then ZeroGain
             else if Qis_neg q then NoFiniteGain
             else PositiveGain
  | Inf _ | NaN => NoFiniteGain
  end.

(** The envelope a trigger puts on the gain of a new voice: linear ramps to
    0.8 times the frequency-based gain and to that gain, then an exponential
    ramp to a smaller multiple.  A ramp to a value that is not finite is
    rejected, and so is an exponential ramp to 0. *)
Definition applyFrequencyGain (frequency : num) : M Registry unit :=
  root ← gets ROOT_FREQUENCY;
  match getFrequencyBasedGain root frequency with
  | PositiveGain => mret tt
  | ZeroGain => throw RangeError
  | NoFiniteGain => throw TypeError
  end.

(** [createSubBass(frequency)] *)
Definition createSubBass (frequency : num) : M Registry Voice :=
  osc ← createOscillator;
  if negb (is_finite frequency) then throw TypeError
  else mret {| oscillator := osc; kind := SubBass; baseFrequency := frequency |}.

(** Lifting of a pure computation that may throw. *)
Definition lift {W A} (r : Result A) : M W A := fun w => (r, w).

(** [addBassNoteIfEnabled(oscillators, noteIndex)]; [noteIndex] is [None]
    for [null].  Returns the array after the possible [push]. *)
Definition addBassNoteIfEnabled (oscillators : list Voice) (noteIndex : option nat)
    : M Registry (list Voice) :=
  bm ← gets bassMode;
  match noteIndex with
  | Some i =>
      if (bm : bool) then
        root ← gets ROOT_FREQUENCY;
        rootFreq ← lift (getScaleNoteFrequency root i 0);
        let bassFrequency := div rootFreq (Fin 2) in
        bassComponents ← createSubBass bassFrequency;
        mret (oscillators ++ [bassComponents])
      else mret oscillators
  | None => mret oscillators
  end.

(** [stopNote(oscillator, gainNode)]: the release ramp, then
    [oscillator.stop(now + RELEASE_TIME)]. *)
Definition stopNote (v : Voice) : M Registry unit :=
  modify (fun w => set_stopped ({[oscillator v]} ∪ stopped w) w).

(** [stopChord(oscillators)] *)
Definition stopChord (oscillators : list Voice) : M Registry unit :=
  forEach oscillators stopNote.

(** The state after [activeNotes[noteKey] = oscillators]; the entry is also
    written down in the history. *)
Definition stored_under (noteKey : string) (oscillators : list Voice) (w : Registry)
    : Registry :=
  set_stored ((noteKey, oscillators) :: stored w)
    (set_activeNotes (<[noteKey := oscillators]> (activeNotes w)) w).

(** [activeNotes[noteKey] = oscillators] *)
Definition store (noteKey : string) (oscillators : list Voice) : M Registry unit :=
  modify (stored_under noteKey oscillators).

(** [startNote(frequency, noteKey, noteIndex)] *)
Definition startNote (frequency : num) (noteKey : string) (noteIndex : option nat)
    : M Registry string :=
  existing ← gets (fun w => JsObject.get (activeNotes w) noteKey);
  match existing with
  | JsObject.Own existing => forEach existing stopNote
  | JsObject.Inherited => throw TypeError (* existing.forEach is not a function *)
  | JsObject.Missing => mret tt
  end ≫= fun _ =>
  noteComponents ← createSustainedNote frequency;
  applyFrequencyGain frequency ≫= fun _ =>
  oscillators ← addBassNoteIfEnabled [noteComponents] noteIndex;
  store noteKey oscillators ≫= fun _ =>
  mret noteKey.

(** [scaleDegreeChordTypes[noteIndex] || 'major'] *)
Definition chordTypeOf (noteIndex : nat) : string :=
  default "major" (scaleDegreeChordTypes !! noteIndex).

(** The body of [frequencies.forEach] in [startChord]: one sustained voice
    per frequency, given its envelope and pushed on [oscillators] in order. *)
Fixpoint createChordVoices (frequencies : list num) (oscillators : list Voice)
    : M Registry (list Voice) :=
  match frequencies with
  | [] => mret oscillators
  | frequency :: rest =>
      noteComponents ← createSustainedNote frequency;
      applyFrequencyGain frequency ≫= fun _ =>
      createChordVoices rest (oscillators ++ [noteComponents])
  end.

(** [startChord(noteIndex, noteKey, extensions)] *)
Definition startChord (noteIndex : nat) (noteKey : string) (extensions : list string)
    : M Registry string :=
  existing ← gets (fun w => JsObject.get (activeNotes w) noteKey);
  match existing with
  | JsObject.Own existing => stopChord existing
  | JsObject.Inherited => throw TypeError (* oscillators.forEach is not a function *)
  | JsObject.Missing => mret tt
  end ≫= fun _ =>
  let chordType := chordTypeOf noteIndex in
  root ← gets ROOT_FREQUENCY;
  frequencies ← lift (buildChordFrequencies root noteIndex chordType extensions);
  created ← createChordVoices frequencies [];
  oscillators ← addBassNoteIfEnabled created (Some noteIndex);
  store noteKey oscillators ≫= fun _ =>
  mret noteKey.

(** [stopNoteByKey(noteKey)].  On a member of the prototype either branch
    throws: [stopChord] for want of a [forEach] when the [length] of the
    function is above 1, the reading of [oscillators[0].oscillator]
    otherwise. *)
Definition stopNoteByKey (noteKey : string) : M Registry unit :=
  entry ← gets (fun w => JsObject.get (activeNotes w) noteKey);
  match entry with
  | JsObject.Own oscillators =>
      (if (1 <? length oscillators)%nat then stopChord oscillators
       else match oscillators !! 0%nat with
            | Some first => stopNote first
            | None => throw TypeError
            end) ≫= fun _ =>
      modify (fun w => set_activeNotes (delete noteKey (activeNotes w)) w)
  | JsObject.Inherited => throw TypeError
  | JsObject.Missing => mret tt
  end.

(** [stopAllNotes()]: [Object.keys(activeNotes)] is taken before the loop;
    the keys come in the order of the map, not in insertion order. *)
Definition stopAllNotes : M Registry unit :=
  keys ← gets (fun w => (map_to_list (activeNotes w)).*1);
  forEach keys stopNoteByKey.

(** [updateRootFrequency(newFrequency)] *)
Definition updateRootFrequency (newFrequency : num) : M Registry unit :=
  modify (set_ROOT_FREQUENCY newFrequency).

(** The calls a page makes on the registry. *)
Inductive RegistryCall : Type :=
| CallStartNote (frequency : num) (noteKey : string) (noteIndex : option nat)
| CallStartChord (noteIndex : nat) (noteKey : string) (extensions : list string)
| CallStopNoteByKey (noteKey : string)
| CallStopAllNotes
| CallUpdateRootFrequency (newFrequency : num)
| CallSetBassMode (on : bool).

(** One call; an exception ends the call and keeps the state it reached. *)
Definition perform (c : RegistryCall) (w : Registry) : Registry :=
  match c with
  | CallStartNote f k i => state_of (startNote f k i w)
  | CallStartChord i k exts => state_of (startChord i k exts w)
  | CallStopNoteByKey k => state_of (stopNoteByKey k w)
  | CallStopAllNotes => state_of (stopAllNotes w)
  | CallUpdateRootFrequency f => state_of (updateRootFrequency f w)
  | CallSetBassMode b => set_bassMode b w
  end.

Definition perform_all (calls : list RegistryCall) (w : Registry) : Registry :=
  fold_left (fun w c => perform c w) calls w.

(** An entry is active while one of its oscillators has not been stopped. *)
Definition active (w : Registry) (entry : list Voice) : Prop :=
  exists v, v ∈ entry /\ oscillator v ∉ stopped w.

(** The oscillators of an entry. *)
Definition oscillators_of (entry : list Voice) : gset nat :=
  list_to_set (oscillator <$> entry).

(** Every entry that was ever stored is the one its key holds now, or has
    been released. *)
Definition released_or_current (w : Registry) : Prop :=
  forall noteKey entry,
    (noteKey, entry) ∈ stored w ->
    activeNotes w !! noteKey = Some entry \/ oscillators_of entry ⊆ stopped w.

(** The entry stored under [noteKey], if any, has been released. *)
Definition released (noteKey : string) (w : Registry) : Prop :=
  forall entry, activeNotes w !! noteKey = Some entry -> oscillators_of entry ⊆ stopped w.

(** No key holds an empty entry. *)
Definition entries_nonempty (w : Registry) : Prop :=
  forall noteKey entry, activeNotes w !! noteKey = Some entry -> entry <> [].

(** [w'] differs from [w] by oscillators created or stopped only. *)
Definition quiet (w w' : Registry) : Prop :=
  activeNotes w' = activeNotes w /\ stored w' = stored w /\ stopped w ⊆ stopped w'.

(** The voices the audio context hands out from oscillator [first] on. *)
Definition sustained_voices (first : nat) (frequencies : list num) : list Voice :=
  imap (fun i frequency =>
          {| oscillator := first + i; kind := Sustained; baseFrequency := frequency |})
       frequencies.

(** A frequency [createSustainedNote] and the envelope accept when the root
    frequency is [root]. *)
Definition playable (root frequency : num) : Prop :=
  is_finite frequency = true /\ strict_eq frequency (Fin 0) = false /\
  getFrequencyBasedGain root frequency = PositiveGain.

(** The registry once the entry stored under [noteKey], if any, has been
    released. *)
Definition release_existing (noteKey : string) (w : Registry) : Registry :=
  match activeNotes w !! noteKey with
  | Some existing => set_stopped (oscillators_of existing ∪ stopped w) w
  | None => w
  end.

(** Outcome of a step that only creates oscillators. *)
Definition creates_only {A} (m : M Registry A) : Prop :=
  forall w, quiet w (state_of (m w)).

(** What a trigger leaves behind: the existing entry released, oscillators
    created, and the new entry stored unless an exception ended the call. *)
Definition trigger_outcome (noteKey : string) (w : Registry) (r : Result string * Registry)
    : Prop :=
  exists w2,
    quiet (release_existing noteKey w) w2 /\
    (state_of r = w2 \/
     exists oscillators,
       oscillators <> [] /\
       r = (Ok noteKey, stored_under noteKey oscillators w2)).

(** ** Gate/ducking scheduler *)

(** Automation of the gain parameter of the gate. *)
Inductive GainEvent : Type :=
| SetValueAtTime (value : Q)
| SetValueCurveAtTime (curve : list Q) (duration : Q).

(** The module-level variables of the gate and the part of the browser
    they act on: the timer queue, the automation scheduled on
    [gateGain.gain] from the current time on, the random source and the
    optional UI callback. *)
Record Gate : Type := {
  gateAmount : Q  (* 0-100, the ducking amount *);
  gateSpeedSequence : list NoteValue  (* the working sequence *);
  gateBaseSequence : list NoteValue  (* the sequence in its original order *);
  gateSequenceIndex : nat  (* cursor in the working sequence *);
  gateRandomEnabled : bool;
  gateInterval : option nat;
  gateTimeout : option nat  (* identifier of the timer of the next cycle *);
  timers : gmap nat Q  (* pending timeouts: identifier and delay in ms *);
  next_timer : nat  (* identifier the next setTimeout returns *);
  gateGain : list GainEvent  (* automation scheduled on gateGain.gain *);
  random_calls : nat  (* calls of Math.random so far *);
  window_bpm : option num  (* window.bpm, None when unset *);
  sampleRate : Q  (* audioContext.sampleRate *);
  hasPlayingIndexCallback : bool  (* is window.updatePlayingSequenceIndex set *);
  playingIndex : list Z  (* arguments it was called with, newest first *)
}.

Definition set_gateAmount (x : Q) (w : Gate) : Gate :=
  {| gateAmount := x;
     gateSpeedSequence := gateSpeedSequence w;
     gateBaseSequence := gateBaseSequence w;
     gateSequenceIndex := gateSequenceIndex w;
     gateRandomEnabled := gateRandomEnabled w;
     gateInterval := gateInterval w;
     gateTimeout := gateTimeout w;
     timers := timers w;
     next_timer := next_timer w;
     gateGain := gateGain w;
     random_calls := random_calls w;
     window_bpm := window_bpm w;
     sampleRate := sampleRate w;
     hasPlayingIndexCallback := hasPlayingIndexCallback w;
     playingIndex := playingIndex w |}.
Definition set_gateSpeedSequence (x : list NoteValue) (w : Gate) : Gate :=
  {| gateAmount := gateAmount w;
     gateSpeedSequence := x;
     gateBaseSequence := gateBaseSequence w;
     gateSequenceIndex := gateSequenceIndex w;
     gateRandomEnabled := gateRandomEnabled w;
     gateInterval := gateInterval w;
     gateTimeout := gateTimeout w;
     timers := timers w;
     next_timer := next_timer w;
     gateGain := gateGain w;
     random_calls := random_calls w;
     window_bpm := window_bpm w;
     sampleRate := sampleRate w;
     hasPlayingIndexCallback := hasPlayingIndexCallback w;
     playingIndex := playingIndex w |}.
Definition set_gateBaseSequence (x : list NoteValue) (w : Gate) : Gate :=
  {| gateAmount := gateAmount w;
     gateSpeedSequence := gateSpeedSequence w;
     gateBaseSequence := x;
     gateSequenceIndex := gateSequenceIndex w;
     gateRandomEnabled := gateRandomEnabled w;
     gateInterval := gateInterval w;
     gateTimeout := gateTimeout w;
     timers := timers w;
     next_timer := next_timer w;
     gateGain := gateGain w;
     random_calls := random_calls w;
     window_bpm := window_bpm w;
     sampleRate := sampleRate w;
     hasPlayingIndexCallback := hasPlayingIndexCallback w;
     playingIndex := playingIndex w |}.
Definition set_gateSequenceIndex (x : nat) (w : Gate) : Gate :=
  {| gateAmount := gateAmount w;
     gateSpeedSequence := gateSpeedSequence w;
     gateBaseSequence := gateBaseSequence w;
     gateSequenceIndex := x;
     gateRandomEnabled := gateRandomEnabled w;
     gateInterval := gateInterval w;
     gateTimeout := gateTimeout w;
     timers := timers w;
     next_timer := next_timer w;
     gateGain := gateGain w;
     random_calls := random_calls w;
     window_bpm := window_bpm w;
     sampleRate := sampleRate w;
     hasPlayingIndexCallback := hasPlayingIndexCallback w;
     playingIndex := playingIndex w |}.
Definition set_gateRandomEnabled (x : bool) (w : Gate) : Gate :=
  {| gateAmount := gateAmount w;
     gateSpeedSequence := gateSpeedSequence w;
     gateBaseSequence := gateBaseSequence w;
     gateSequenceIndex := gateSequenceIndex w;
     gateRandomEnabled := x;
     gateInterval := gateInterval w;
     gateTimeout := gateTimeout w;
     timers := timers w;
     next_timer := next_timer w;
     gateGain := gateGain w;
     random_calls := random_calls w;
     window_bpm := window_bpm w;
     sampleRate := sampleRate w;
     hasPlayingIndexCallback := hasPlayingIndexCallback w;
     playingIndex := playingIndex w |}.
Definition set_gateInterval (x : option nat) (w : Gate) : Gate :=
  {| gateAmount := gateAmount w;
     gateSpeedSequence := gateSpeedSequence w;
     gateBaseSequence := gateBaseSequence w;
     gateSequenceIndex := gateSequenceIndex w;
     gateRandomEnabled := gateRandomEnabled w;
     gateInterval := x;
     gateTimeout := gateTimeout w;
     timers := timers w;
     next_timer := next_timer w;
     gateGain := gateGain w;
     random_calls := random_calls w;
     window_bpm := window_bpm w;
     sampleRate := sampleRate w;
     hasPlayingIndexCallback := hasPlayingIndexCallback w;
     playingIndex := playingIndex w |}.
Definition set_gateTimeout (x : option nat) (w : Gate) : Gate :=
  {| gateAmount := gateAmount w;
     gateSpeedSequence := gateSpeedSequence w;
     gateBaseSequence := gateBaseSequence w;
     gateSequenceIndex := gateSequenceIndex w;
     gateRandomEnabled := gateRandomEnabled w;
     gateInterval := gateInterval w;
     gateTimeout := x;
     timers := timers w;
     next_timer := next_timer w;
     gateGain := gateGain w;
     random_calls := random_calls w;
     window_bpm := window_bpm w;
     sampleRate := sampleRate w;
     hasPlayingIndexCallback := hasPlayingIndexCallback w;
     playingIndex := playingIndex w |}.
Definition set_timers (x : gmap nat Q) (w : Gate) : Gate :=
  {| gateAmount := gateAmount w;
     gateSpeedSequence := gateSpeedSequence w;
     gateBaseSequence := gateBaseSequence w;
     gateSequenceIndex := gateSequenceIndex w;
     gateRandomEnabled := gateRandomEnabled w;
     gateInterval := gateInterval w;
     gateTimeout := gateTimeout w;
     timers := x;
     next_timer := next_timer w;
     gateGain := gateGain w;
     random_calls := random_calls w;
     window_bpm := window_bpm w;
     sampleRate := sampleRate w;
     hasPlayingIndexCallback := hasPlayingIndexCallback w;
     playingIndex := playingIndex w |}.
Definition set_next_timer (x : nat) (w : Gate) : Gate :=
  {| gateAmount := gateAmount w;
     gateSpeedSequence := gateSpeedSequence w;
     gateBaseSequence := gateBaseSequence w;
     gateSequenceIndex := gateSequenceIndex w;
     gateRandomEnabled := gateRandomEnabled w;
     gateInterval := gateInterval w;
     gateTimeout := gateTimeout w;
     timers := timers w;
     next_timer := x;
     gateGain := gateGain w;
     random_calls := random_calls w;
     window_bpm := window_bpm w;
     sampleRate := sampleRate w;
     hasPlayingIndexCallback := hasPlayingIndexCallback w;
     playingIndex := playingIndex w |}.
Definition set_gateGain (x : list GainEvent) (w : Gate) : Gate :=
  {| gateAmount := gateAmount w;
     gateSpeedSequence := gateSpeedSequence w;
     gateBaseSequence := gateBaseSequence w;
     gateSequenceIndex := gateSequenceIndex w;
     gateRandomEnabled := gateRandomEnabled w;
     gateInterval := gateInterval w;
     gateTimeout := gateTimeout w;
     timers := timers w;
     next_timer := next_timer w;
     gateGain := x;
     random_calls := random_calls w;
     window_bpm := window_bpm w;
     sampleRate := sampleRate w;
     hasPlayingIndexCallback := hasPlayingIndexCallback w;
     playingIndex := playingIndex w |}.
Definition set_random_calls (x : nat) (w : Gate) : Gate :=
  {| gateAmount := gateAmount w;
     gateSpeedSequence := gateSpeedSequence w;
     gateBaseSequence := gateBaseSequence w;
     gateSequenceIndex := gateSequenceIndex w;
     gateRandomEnabled := gateRandomEnabled w;
     gateInterval := gateInterval w;
     gateTimeout := gateTimeout w;
     timers := timers w;
     next_timer := next_timer w;
     gateGain := gateGain w;
     random_calls := x;
     window_bpm := window_bpm w;
     sampleRate := sampleRate w;
     hasPlayingIndexCallback := hasPlayingIndexCallback w;
     playingIndex := playingIndex w |}.
Definition set_playingIndex (x : list Z) (w : Gate) : Gate :=
  {| gateAmount := gateAmount w;
     gateSpeedSequence := gateSpeedSequence w;
     gateBaseSequence := gateBaseSequence w;
     gateSequenceIndex := gateSequenceIndex w;
     gateRandomEnabled := gateRandomEnabled w;
     gateInterval := gateInterval w;
     gateTimeout := gateTimeout w;
     timers := timers w;
     next_timer := next_timer w;
     gateGain := gateGain w;
     random_calls := random_calls w;
     window_bpm := window_bpm w;
     sampleRate := sampleRate w;
     hasPlayingIndexCallback := hasPlayingIndexCallback w;
     playingIndex := x |}.
Definition set_window_bpm (x : option num) (w : Gate) : Gate :=
  {| gateAmount := gateAmount w;
     gateSpeedSequence := gateSpeedSequence w;
     gateBaseSequence := gateBaseSequence w;
     gateSequenceIndex := gateSequenceIndex w;
     gateRandomEnabled := gateRandomEnabled w;
     gateInterval := gateInterval w;
     gateTimeout := gateTimeout w;
     timers := timers w;
     next_timer := next_timer w;
     gateGain := gateGain w;
     random_calls := random_calls w;
     window_bpm := x;
     sampleRate := sampleRate w;
     hasPlayingIndexCallback := hasPlayingIndexCallback w;
     playingIndex := playingIndex w |}.

(** The gate when the script has been loaded, for a given sample rate. *)
Definition initial_gate (rate : Q) : Gate :=
  {| gateAmount := 0;
     gateSpeedSequence := [NVStr "4"];
     gateBaseSequence := [NVStr "4"];
     gateSequenceIndex := 0;
     gateRandomEnabled := false;
     gateInterval := None;
     gateTimeout := None;
     timers := ∅;
     next_timer := 1;
     gateGain := [];
     random_calls := 0;
     window_bpm := None;
     sampleRate := rate;
     hasPlayingIndexCallback := false;
     playingIndex := [] |}.

(** [x === y] on sequence elements. *)
Definition noteValue_strict_eq (x y : NoteValue) : bool :=
  match x, y with
  | NVStr s, NVStr t => String.eqb s t
  | NVNum a, NVNum b => strict_eq a b
  | NVUndefined, NVUndefined => true
  | _, _ => false
  end.

(** [array.indexOf(x)], -1 when absent. *)
Fixpoint indexOf_from (i : Z) (array : list NoteValue) (x : NoteValue) : Z :=
  match array with
  | [] => (-1)%Z
  | y :: rest => if noteValue_strict_eq y x then i else indexOf_from (i + 1)%Z rest x
  end.
Definition indexOf (array : list NoteValue) (x : NoteValue) : Z := indexOf_from 0 array x.

(** [array[i]], [undefined] out of range. *)
Definition element_at (array : list NoteValue) (i : nat) : NoteValue :=
  default NVUndefined (array !! i).

(** [[a[i], a[j]] = [a[j], a[i]]] for indices inside the array. *)
Definition swap {A} (a : list A) (i j : nat) : list A :=
  match a !! i, a !! j with
  | Some x, Some y => <[j := x]> (<[i := y]> a)
  | _, _ => a
  end.

Section GateModel.

(** [Math.sin], [Math.PI], [Math.ceil] and the successive results of
    [Math.random].  [Math_ceil x] stands for [Math.ceil] of the double the
    source has computed for the product [x]: the divisions behind the
    factors and the product itself are rounded, so it is the ceiling of
    [x] or, when [x] lies within that rounding of an integer, the integer
    next to it. *)
Variable Math_sin : Q -> Q.
Variable Math_PI : Q.
Variable Math_ceil : Q -> Z.
Variable Math_random : nat -> Q.

Definition random : M Gate Q := fun w =>
  (Ok (Math_random (random_calls w)), set_random_calls (S (random_calls w)) w).

(** The loop of [shuffleArray], [i] counting down to 1. *)
Fixpoint shuffle_from {A} (i : nat) (shuffled : list A) : M Gate (list A) :=
  match i with
  | O => mret shuffled
  | S i' =>
      r ← random;
      let j := Z.to_nat (Qfloor (r * inject_Z (Z.of_nat i + 1))) in
      shuffle_from i' (swap shuffled i j)
  end.

(** [shuffleArray(array)] *)
Definition shuffleArray {A} (array : list A) : M Gate (list A) :=
  shuffle_from (length array - 1) array.

(** The array [shuffle_from] returns when [calls] random numbers have been
    drawn before it starts. *)
Fixpoint shuffled_from {A} (calls i : nat) (shuffled : list A) : list A :=
  match i with
  | O => shuffled
  | S i' =>
      let j := Z.to_nat (Qfloor (Math_random calls * inject_Z (Z.of_nat i + 1))) in
      shuffled_from (S calls) i' (swap shuffled i j)
  end.

(** The state after the random-mode step of [scheduleNextGateCycle] when it
    reshuffles. *)
Definition reshuffled (w : Gate) : Gate :=
  set_gateSequenceIndex 0
    (set_gateSpeedSequence
       (shuffled_from (random_calls w) (length (gateBaseSequence w) - 1)
                      (gateBaseSequence w))
       (set_random_calls (random_calls w + (length (gateBaseSequence w) - 1)) w)).

(** One sample of the curve of [scheduleGateCycle], as the [Float32Array]
    holds it. *)
Definition gateCurveSample (gateSpeed rate duckingAmount : Q) (i : nat) : Q :=
  let fundamentalFreq := 1 / gateSpeed in
  let t := inject_Z (Z.of_nat i) / rate in
  let omega := 2 * Math_PI * fundamentalFreq in
  let term1 := Math_sin (omega * t) in
  let term3 := (1 / 3) * Math_sin (3 * omega * t) in
  let term5 := (1 / 5) * Math_sin (5 * omega * t) in
  let squareApprox := (4 / Math_PI) * (term1 + term3 + term5) in
  let clampedApprox := Qmax (-1) (Qmin 1 squareApprox) in
  let normalized := (clampedApprox + 1) / 2 in
  let gainValue := (1 - duckingAmount) + (duckingAmount * normalized) in
  fround (Qmax 0 (Qmin 1 gainValue)).

(** The filled [Float32Array] of [scheduleGateCycle]. *)
Definition gateCurve (gateSpeed rate duckingAmount : Q) (curveLength : nat) : list Q :=
  map (gateCurveSample gateSpeed rate duckingAmount) (seq 0 curveLength).

(** [window.updatePlayingSequenceIndex(i)] when the callback is set; the
    callback is taken to return and to leave the gate alone. *)
Definition notified (i : Z) (w : Gate) : Gate :=
  if hasPlayingIndexCallback w then set_playingIndex (i :: playingIndex w) w else w.

Definition notifyPlayingIndex (i : Z) : M Gate unit := modify (notified i).

(** [gateGain.gain.cancelScheduledValues(now)] *)
Definition cancelScheduledValues : M Gate unit := modify (set_gateGain []).

(** [gateGain.gain.setValueAtTime(value, now)] *)
Definition setValueAtTime (value : Q) : M Gate unit :=
  modify (fun w => set_gateGain (gateGain w ++ [SetValueAtTime value]) w).

(** [gateGain.gain.setValueCurveAtTime(curve, now, duration)]: the
    duration must be positive and the curve have at least two values. *)
Definition setValueCurveAtTime (curve : list Q) (duration : Q) : M Gate unit :=
  if Qle_bool duration 0 then throw RangeError
  else if (length curve <? 2)%nat then throw InvalidStateError
  else modify (fun w => set_gateGain (gateGain w ++ [SetValueCurveAtTime curve duration]) w).

(** [setTimeout(callback, delay)] *)
Definition setTimeout (delay : Q) : M Gate nat := fun w =>
  (Ok (next_timer w),
   set_next_timer (S (next_timer w)) (set_timers (<[next_timer w := delay]> (timers w)) w)).

(** [clearTimeout(id)] *)
Definition clearTimeout (id : nat) : M Gate unit :=
  modify (fun w => set_timers (delete id (timers w)) w).

(** [window.bpm || 120] *)
Definition bpm_or_default (w : Gate) : num :=
  match window_bpm w with
  | Some b => if truthy b then b else Fin 120
  | None => Fin 120
  end.

(** The inner [scheduleGateCycle()] for a cycle of [gateSpeed] seconds. *)
Definition scheduleGateCycle (gateSpeed : num) (duckingAmount : Q) : M Gate unit :=
  rate ← gets sampleRate;
  match gateSpeed with
  | Fin speed =>
      let curveLength := Math_ceil (speed * rate) in
      if (curveLength <? 0)%Z then throw RangeError (* new Float32Array(negative) *)
      else
        let curve := gateCurve speed rate duckingAmount (Z.to_nat curveLength) in
        cancelScheduledValues ≫= fun _ =>
        setValueCurveAtTime curve speed
  | Inf _ => throw RangeError (* new Float32Array(±Infinity) *)
  | NaN =>
      (* an empty curve, then a duration that is not finite *)
      cancelScheduledValues ≫= fun _ => throw TypeError
  end.

(** The random-mode step of [scheduleNextGateCycle]: a fresh shuffle of
    the base sequence and the cursor back on its first element. *)
Definition reshuffle_if_random : M Gate unit :=
  randomEnabled ← gets gateRandomEnabled;
  base ← gets gateBaseSequence;
  if (randomEnabled : bool) && (0 <? length base)%nat then
    shuffled ← shuffleArray base;
    modify (fun w => set_gateSequenceIndex 0 (set_gateSpeedSequence shuffled w))
  else mret tt.

(** The delay handed to [setTimeout], [gateSpeed * 1000]; the cycle has
    thrown before when [gateSpeed] is not finite. *)
Definition timeout_delay (gateSpeed : num) : Q :=
  match gateSpeed with Fin speed => speed * 1000 | _ => 0 end.

(** [scheduleNextGateCycle()] from the reading of the token on.  Returns
    the token. *)
Definition schedule_cycle (amount : Q) : M Gate NoteValue :=
  noteValue ← gets (fun w => element_at (gateSpeedSequence w) (gateSequenceIndex w));
  bpm ← gets bpm_or_default;
  let gateSpeed := getNoteDuration noteValue bpm in
  let duckingAmount := amount / 100 in
  scheduleGateCycle gateSpeed duckingAmount ≫= fun _ =>
  randomEnabled ← gets gateRandomEnabled;
  (if (randomEnabled : bool) then
     currentNoteValue ← gets (fun w => element_at (gateSpeedSequence w) (gateSequenceIndex w));
     base ← gets gateBaseSequence;
     let baseIndex := indexOf base currentNoteValue in
     notifyPlayingIndex (if (0 <=? baseIndex)%Z then baseIndex else (-1)%Z)
   else
     index ← gets gateSequenceIndex;
     notifyPlayingIndex (Z.of_nat index)) ≫= fun _ =>
  modify (fun w =>
    set_gateSequenceIndex
      ((gateSequenceIndex w + 1) mod length (gateSpeedSequence w))%nat w) ≫= fun _ =>
  id ← setTimeout (timeout_delay gateSpeed);
  modify (set_gateTimeout (Some id)) ≫= fun _ =>
  mret noteValue.

(** The index [schedule_cycle] reports to the UI. *)
Definition reported_index (w : Gate) : Z :=
  if gateRandomEnabled w then
    let baseIndex :=
      indexOf (gateBaseSequence w)
              (element_at (gateSpeedSequence w) (gateSequenceIndex w)) in
    if (0 <=? baseIndex)%Z then baseIndex else (-1)%Z
  else Z.of_nat (gateSequenceIndex w).

(** The curve of a cycle of [speed] seconds in state [w]. *)
Definition cycle_curve (amount speed : Q) (w : Gate) : list Q :=
  gateCurve speed (sampleRate w) (amount / 100)
            (Z.to_nat (Math_ceil (speed * sampleRate w))).

(** The state [schedule_cycle] returns in when the cycle lasts [speed]
    seconds: the curve scheduled, the UI told, the cursor moved on, the
    timer of the next cycle set. *)
Definition cycle_state (amount speed : Q) (w : Gate) : Gate :=
  let w2 := set_gateGain [SetValueCurveAtTime (cycle_curve amount speed w) speed] w in
  let w3 := notified (reported_index w2) w2 in
  let w4 :=
    set_gateSequenceIndex
      ((gateSequenceIndex w3 + 1) mod length (gateSpeedSequence w3))%nat w3 in
  set_gateTimeout (Some (next_timer w4))
    (set_next_timer (S (next_timer w4))
       (set_timers (<[next_timer w4 := speed * 1000]> (timers w4)) w4)).

(** [scheduleNextGateCycle()].  Returns the token of the cycle it
    scheduled, [None] when it returned at once. *)
Definition scheduleNextGateCycle : M Gate (option NoteValue) :=
  amount ← gets gateAmount;
  sequence ← gets gateSpeedSequence;
  if Qeq_bool amount 0 || (length sequence =? 0)%nat then mret None
  else
    reshuffle_if_random ≫= fun _ =>
    noteValue ← schedule_cycle amount;
    mret (Some noteValue).

(** [startGateLoop()] *)
Definition startGateLoop : M Gate unit :=
  modify (set_gateInterval None) ≫= fun _ =>
  pending ← gets gateTimeout;
  match pending with
  | Some id => clearTimeout id ≫= fun _ => modify (set_gateTimeout None)
  | None => mret tt
  end ≫= fun _ =>
  amount ← gets gateAmount;
  sequence ← gets gateSpeedSequence;
  if Qeq_bool amount 0 then
    cancelScheduledValues ≫= fun _ =>
    setValueAtTime 1 ≫= fun _ =>
    notifyPlayingIndex (-1)
  else if (length sequence =? 0)%nat then
    cancelScheduledValues ≫= fun _ =>
    setValueAtTime 1 ≫= fun _ =>
    notifyPlayingIndex (-1)
  else
    modify (set_gateSequenceIndex 0) ≫= fun _ =>
    notifyPlayingIndex 0 ≫= fun _ =>
    scheduleNextGateCycle ≫= fun _ => mret tt.

(** [updateGateAmount(amount)] *)
Definition updateGateAmount (amount : Q) : M Gate unit :=
  modify (set_gateAmount amount) ≫= fun _ =>
  startGateLoop.

(** [updateGateSpeedSequence(sequence, randomEnabled)]; [sequence] is
    [None] for [null] or [undefined]. *)
Definition updateGateSpeedSequence (sequence : option (list NoteValue))
    (randomEnabled : bool) : M Gate unit :=
  let base :=
    match sequence with
    | Some s => if (0 <? length s)%nat then s else [NVStr "4"]
    | None => [NVStr "4"]
    end in
  modify (set_gateBaseSequence base) ≫= fun _ =>
  modify (set_gateRandomEnabled randomEnabled) ≫= fun _ =>
  (if randomEnabled then
     shuffled ← shuffleArray base;
     modify (set_gateSpeedSequence shuffled)
   else modify (set_gateSpeedSequence base)) ≫= fun _ =>
  modify (set_gateSequenceIndex 0) ≫= fun _ =>
  startGateLoop.

(** The timer [id] comes due: its callback runs [scheduleNextGateCycle]. *)
Definition fire_timer (id : nat) : M Gate unit :=
  pending ← gets (fun w => timers w !! id);
  match pending with
  | Some _ =>
      clearTimeout id ≫= fun _ =>
      scheduleNextGateCycle ≫= fun _ => mret tt
  | None => mret tt
  end.

(** The state once [startGateLoop] has cleared the interval and the
    timer of the next cycle. *)
Definition timers_cleared (w : Gate) : Gate :=
  match gateTimeout w with
  | Some id =>
      set_gateTimeout None (set_timers (delete id (timers w)) (set_gateInterval None w))
  | None => set_gateInterval None w
  end.

(** The state [startGateLoop] returns in when the gate is off. *)
Definition gate_off_state (w : Gate) : Gate :=
  notified (-1) (set_gateGain [SetValueAtTime 1] (timers_cleared w)).

(** The state [updateGateSpeedSequence] hands to [startGateLoop]. *)
Definition sequence_installed (sequence : option (list NoteValue)) (randomEnabled : bool)
    (w : Gate) : Gate :=
  let base :=
    match sequence with
    | Some s => if (0 <? length s)%nat then s else [NVStr "4"]
    | None => [NVStr "4"]
    end in
  let w1 := set_gateRandomEnabled randomEnabled (set_gateBaseSequence base w) in
  let w2 :=
    if randomEnabled then
      set_gateSpeedSequence (shuffled_from (random_calls w) (length base - 1) base)
        (set_random_calls (random_calls w + (length base - 1)) w1)
    else set_gateSpeedSequence base w1 in
  set_gateSequenceIndex 0 w2.

(** The timers [ids] come due one after the other. *)
Definition fire_all (ids : list nat) (w : Gate) : Gate :=
  fold_left (fun w id => state_of (fire_timer id w)) ids w.

(** What happens to the gate: the page updates its settings, the tempo
    changes, a timer comes due. *)
Inductive GateCall : Type :=
| CallUpdateGateAmount (amount : Q)
| CallUpdateGateSpeedSequence (sequence : option (list NoteValue)) (randomEnabled : bool)
| SetBpm (bpm : option num)
| TimerDue (id : nat).

Definition gate_perform (c : GateCall) (w : Gate) : Gate :=
  match c with
  | CallUpdateGateAmount amount => state_of (updateGateAmount amount w)
  | CallUpdateGateSpeedSequence sequence randomEnabled =>
      state_of (updateGateSpeedSequence sequence randomEnabled w)
  | SetBpm bpm => set_window_bpm bpm w
  | TimerDue id => state_of (fire_timer id w)
  end.

Definition gate_perform_all (calls : list GateCall) (w : Gate) : Gate :=
  fold_left (fun w c => gate_perform c w) calls w.

End GateModel.

(** The settings of the gate, which only the update functions change. *)
Definition same_settings (w w' : Gate) : Prop :=
  gateAmount w' = gateAmount w /\ gateBaseSequence w' = gateBaseSequence w /\
  gateRandomEnabled w' = gateRandomEnabled w /\ window_bpm w' = window_bpm w /\
  sampleRate w' = sampleRate w.

(** Nothing of the gate moved but the set of pending timers. *)
Definition only_timers_changed (w w' : Gate) : Prop :=
  gateAmount w' = gateAmount w /\ gateGain w' = gateGain w /\
  gateTimeout w' = gateTimeout w /\ next_timer w' = next_timer w /\
  gateSpeedSequence w' = gateSpeedSequence w /\
  timers w' ⊆ timers w.

(** Every pending timer is the one [gateTimeout] names. *)
Definition timers_tracked (w : Gate) : Prop :=
  forall id, is_Some (timers w !! id) -> gateTimeout w = Some id.

(** A gain within the range the gate may duck to. *)
Definition in_gate_range (duckingAmount gain : Q) : Prop :=
  (1 - duckingAmount <= gain <= 1) /\ (0 <= gain <= 1).

(** A gain within that range once a [Float32Array] has rounded it: still
    between 0 and 1, and below [1 - duckingAmount] by 2^-24 at most. *)
Definition in_stored_range (duckingAmount gain : Q) : Prop :=
  0 <= gain <= 1 /\ 1 - duckingAmount - (1 # 16777216) <= gain.

(** A sample platform to evaluate the gate on: a polynomial for the sine, a
    rational for pi, the exact ceiling, and a fixed sequence of random
    numbers in [0, 1). *)
Definition sample_sin (x : Q) : Q := x - x * x * x / 6.
Definition sample_PI : Q := 355 # 113.
Definition sample_ceil (x : Q) : Z := Qceiling x.
Definition sample_random (n : nat) : Q := inject_Z (Z.of_nat (n mod 7)) / 7.

(** The gate of a page at 44.1 kHz once [updateGateAmount(50)] has run. *)
Definition gate_at_half : Gate :=
  state_of (updateGateAmount sample_sin sample_PI sample_ceil sample_random 50 (initial_gate 44100)).

(** That gate once [updateGateSpeedSequence(["8", "4T"], true)] has run. *)
Definition gate_random : Gate :=
  state_of (updateGateSpeedSequence sample_sin sample_PI sample_ceil sample_random
              (Some [NVStr "8"; NVStr "4T"]) true gate_at_half).
(** ** More of the ratio engine: chord modes *)

(** [getNoteFrequency(noteIndex)] *)
Definition getNoteFrequency (ROOT_FREQUENCY : num) (noteIndex : nat) : Result num :=
  getScaleNoteFrequency ROOT_FREQUENCY noteIndex 0.

(** [createChordWithExtensions(rootNoteIndex, extensions)] *)
Definition createChordWithExtensions (ROOT_FREQUENCY : num) (rootNoteIndex : nat)
    (extensions : list string) : Result (list num) :=
  let chordType := chordTypeOf rootNoteIndex in
  buildChordFrequencies ROOT_FREQUENCY rootNoteIndex chordType extensions.

(** [getJazz7Extensions(noteIndex)] *)
Definition getJazz7Extensions (noteIndex : nat) : list string :=
  let chordType := chordTypeOf noteIndex in
  match noteIndex with
  | 0%nat => ["minorSeventh"]
  | 1%nat => ["minorSeventh"]
  | 2%nat => ["seventh"]
  | 3%nat => ["minorSeventh"]
  | 4%nat => ["minorSeventh"]
  | 5%nat => ["seventh"]
  | 6%nat => ["minorSeventh"]
  | 7%nat => ["minorSeventh"]
  | _ => if String.eqb chordType "major" then ["seventh"] else ["minorSeventh"]
  end.

(** [getJazz79Extensions(noteIndex)] *)
Definition getJazz79Extensions (noteIndex : nat) : list string :=
  let chordType := chordTypeOf noteIndex in
  match noteIndex with
  | 0%nat => ["minorSeventh"; "ninth"]
  | 1%nat => ["minorSeventh"; "ninth"]
  | 2%nat => ["seventh"; "ninth"]
  | 3%nat => ["minorSeventh"; "ninth"]
  | 4%nat => ["minorSeventh"; "ninth"]
  | 5%nat => ["seventh"; "ninth"]
  | 6%nat => ["minorSeventh"; "ninth"]
  | 7%nat => ["minorSeventh"; "ninth"]
  | _ => if String.eqb chordType "major" then ["seventh"; "ninth"]
         else ["minorSeventh"; "ninth"]
  end.

(** [getJazz13Extensions(noteIndex)] *)
Definition getJazz13Extensions (noteIndex : nat) : list string :=
  match noteIndex with
  | 0%nat => ["thirteenth"]
  | 1%nat => ["thirteenth"]
  | 2%nat => ["thirteenth"]
  | 3%nat => ["thirteenth"]
  | 4%nat => ["thirteenth"]
  | 5%nat => ["thirteenth"]
  | 6%nat => ["thirteenth"]
  | 7%nat => ["thirteenth"]
  | _ => ["thirteenth"]
  end.



(** Each ratio of the list is strictly below the next one. *)
Fixpoint rising (ratios : list Q) : Prop :=
  match ratios with
  | a :: (b :: _) as rest => a < b /\ rising rest
  | _ => True
  end.

(** ** More of the registry: forgetting and bending *)

(** [clearActiveNotes()]: [activeNotes = {}] *)
Definition clearActiveNotes : M Registry unit := modify (set_activeNotes ∅).







(** ** The legacy gate speed *)

Module JsMath.

(** [a + b] *)
Definition add (a b : num) : num :=
  match a, b with
  | NaN, _ | _, NaN => NaN
  | Fin x, Fin y => Fin (x + y)
  | Fin _, Inf s | Inf s, Fin _ => Inf s
  | Inf s, Inf t => if Bool.eqb s t then Inf s else NaN
  end.

(** [-a] *)
Definition neg (a : num) : num :=
  match a with
  | Fin x => Fin (- x)
  | Inf s => Inf (negb s)
  | NaN => NaN
  end.

(** [a - b] *)
Definition sub (a b : num) : num := add a (neg b).

(** [Math.abs(a)] *)
Definition abs (a : num) : num :=
  match a with
  | Fin x => Fin (Qabs x)
  | Inf _ => Inf false
  | NaN => NaN
  end.

(** [a < b]: false as soon as one side is NaN. *)
Definition lt (a b : num) : bool :=
  match a, b with
  | Fin x, Fin y => match x ?= y with Lt => true | _ => false end
  | Fin _, Inf s => negb s
  | Inf s, Fin _ => s
  | Inf s, Inf t => s && negb t
  | _, _ => false
  end.

(** [Math.max(a, b)] *)
Definition max (a b : num) : num :=
  match a, b with
  | NaN, _ | _, NaN => NaN
  | Fin x, Fin y => Fin (Qmax x y)
  | Inf false, _ | _, Inf false => Inf false
  | Inf true, other | other, Inf true => other
  end.

(** [Math.round(a)]: the nearest integer, a half going up. *)
Definition round (a : num) : num :=
  match a with
  | Fin x => Fin (inject_Z (Qfloor (x + (1 # 2))))
  | Inf _ | NaN => a
  end.

End JsMath.

Definition validNoteValues : list num := [Fin 16; Fin 8; Fin 4; Fin 2; Fin 1].

(** The search of [updateGateSpeed] for the valid note value closest to
    [approximateNoteValue]: it starts from the first one and moves on only
    to a strictly smaller difference. *)
Definition closestNoteValue (approximateNoteValue : num) : num :=
  let closest := default NaN (validNoteValues !! 0%nat) in
  let minDiff := JsMath.abs (JsMath.sub approximateNoteValue closest) in
  fst (fold_left
         (fun '(closest, minDiff) val =>
            let diff := JsMath.abs (JsMath.sub approximateNoteValue val) in
            if JsMath.lt diff minDiff then (val, diff) else (closest, minDiff))
         validNoteValues (closest, minDiff)).

Section LegacyGate.

Variable Math_sin : Q -> Q.
Variable Math_PI : Q.
Variable Math_ceil : Q -> Z.
Variable Math_random : nat -> Q.

(** [updateGateSpeed(speed)], the legacy entry point: [speed] is a cycle
    length in seconds. *)
Definition updateGateSpeed (speed : num) : M Gate unit :=
  bpm ← gets bpm_or_default;
  let approximateNoteValue := JsMath.round (div (div (Fin 60) bpm) speed) in
  let closest := closestNoteValue approximateNoteValue in
  updateGateSpeedSequence Math_sin Math_PI Math_ceil Math_random (Some [NVNum closest]) false.

End LegacyGate.

(** The working sequence is the base sequence in some order, is not empty,
    and holds the cursor. *)
Definition sequence_in_step (w : Gate) : Prop :=
  gateSpeedSequence w ≡ₚ gateBaseSequence w /\ gateBaseSequence w <> [] /\
  (gateSequenceIndex w < length (gateSpeedSequence w))%nat.
(** ** Numbering of the oscillators *)

(** The voices carry the oscillators [first], [first + 1], ... in order. *)
Definition numbered_from (first : nat) (voices : list Voice) : Prop :=
  oscillator <$> voices = seq first (length voices).

(** [w'] is [w] with some more oscillators created. *)
Definition advanced (w w' : Registry) : Prop :=
  exists n, (next_oscillator w <= n)%nat /\ w' = set_next_oscillator n w.

(** What a trigger leaves behind, to the oscillator: when it returns, the
    existing entry released and a new entry of freshly numbered voices
    stored; when it throws, the existing entry released and nothing stored. *)
Definition trigger_result (noteKey : string) (w : Registry) (r : Result string * Registry)
    : Prop :=
  match r with
  | (Ok returned, w') =>
      returned = noteKey /\
      exists oscillators,
        oscillators <> [] /\ numbered_from (next_oscillator w) oscillators /\
        w' = stored_under noteKey oscillators
               (set_next_oscillator (next_oscillator w + length oscillators)
                  (release_existing noteKey w))
  | (Throw _, w') => advanced (release_existing noteKey w) w'
  end.

(** Every oscillator of the registry is numbered below [bound]. *)
Definition registered_below (bound : nat) (w : Registry) : Prop :=
  forall noteKey entry v,
    activeNotes w !! noteKey = Some entry -> v ∈ entry -> (oscillator v < bound)%nat.

(** Every oscillator of the registry is numbered from [bound] on. *)
Definition registered_from (bound : nat) (w : Registry) : Prop :=
  forall noteKey entry v,
    activeNotes w !! noteKey = Some entry -> v ∈ entry -> (bound <= oscillator v)%nat.

(** No oscillator sits at two places of the registry. *)
Definition no_shared_oscillator (w : Registry) : Prop :=
  forall key1 key2 entry1 entry2 i1 i2 v1 v2,
    activeNotes w !! key1 = Some entry1 -> activeNotes w !! key2 = Some entry2 ->
    entry1 !! i1 = Some v1 -> entry2 !! i2 = Some v2 ->
    oscillator v1 = oscillator v2 -> key1 = key2 /\ i1 = i2.

(** The oscillators below [bound] that are stopped in [w'] were stopped in
    [w] already. *)
Definition none_stopped_below (bound : nat) (w w' : Registry) : Prop :=
  forall o, (o < bound)%nat -> o ∈ stopped w' -> o ∈ stopped w.

(** The oscillators of the registry are numbered below the next one the
    audio context hands out, and none sits at two places. *)
Definition well_numbered_registry (w : Registry) : Prop :=
  registered_below (next_oscillator w) w /\ no_shared_oscillator w.

(** Since [w0], the registry has held oscillators numbered from [bound] on
    only, and has stopped none below [bound]. *)
Definition forgotten_kept (bound : nat) (w0 w : Registry) : Prop :=
  registered_from bound w /\ (bound <= next_oscillator w)%nat /\
  none_stopped_below bound w0 w.

(** ** The sound manager of the growl bass page

    [MusicSoundManager] carries its own copy of the ratio engine, over a
    scale of sixteen keys, and always plays Jazz79 chords with a bass
    note.  The manager is taken to be initialised. *)

Module MusicSoundManager.

Definition MAJOR_SCALE_RATIOS : list ScaleNote :=
  [ {| name := "Lower Re"; key := "1"; note_ratio := ratio 9 16 |};
    {| name := "Lower Mi"; key := "2"; note_ratio := ratio 5 8 |};
    {| name := "Lower Fa"; key := "3"; note_ratio := ratio 2 3 |};
    {| name := "Lower So"; key := "4"; note_ratio := ratio 3 4 |};
    {| name := "La"; key := "q"; note_ratio := ratio 5 6 |};
    {| name := "Ti"; key := "w"; note_ratio := ratio 15 16 |};
    {| name := "Do"; key := "e"; note_ratio := ratio 1 1 |};
    {| name := "Re"; key := "r"; note_ratio := ratio 9 8 |};
    {| name := "Mi"; key := "a"; note_ratio := ratio 5 4 |};
    {| name := "Fa"; key := "s"; note_ratio := ratio 4 3 |};
    {| name := "So"; key := "d"; note_ratio := ratio 3 2 |};
    {| name := "La"; key := "f"; note_ratio := ratio 5 3 |};
    {| name := "Ti"; key := "z"; note_ratio := ratio 15 8 |};
    {| name := "Do"; key := "x"; note_ratio := ratio 2 1 |};
    {| name := "Re"; key := "c"; note_ratio := ratio 9 4 |};
    {| name := "Mi"; key := "v"; note_ratio := ratio 5 2 |} ].

Definition CHORD_INTERVALS : gmap string JsRatio :=
  <["major" := RArray [ratio 1 1; ratio 5 4; ratio 3 2]]>
  (<["minor" := RArray [ratio 1 1; ratio 6 5; ratio 3 2]]>
  (<["seventh" := ratio 15 8]>
  (<["minorSeventh" := ratio 9 5]>
  (<["ninth" := ratio 9 4]>
  (<["eleventh" := ratio 11 4]>
  (<["thirteenth" := ratio 5 3]> ∅)))))).

Definition scaleDegreeChordTypes : list string :=
  ["minor"; "minor"; "major"; "major";
   "minor"; "minor"; "major"; "minor"; "minor"; "major"; "major"; "minor";
   "minor"; "major"; "minor"; "minor"].

(** [getFrequencyFromRatio(ratio, rootFreq = null)]: the root is
    [rootFreq || this.ROOT_FREQUENCY]. *)
Definition getFrequencyFromRatio (ROOT_FREQUENCY : num) (r : JsRatio)
    (rootFreq : option num) : num :=
  let root :=
    match rootFreq with
    | Some f => if truthy f then f else ROOT_FREQUENCY
    | None => ROOT_FREQUENCY
    end in
  match r with
  | RArray elems => mul root (div (toNumber_at elems 0) (toNumber_at elems 1))
  | RNumber x => mul root (Fin x)
  | RMember => mul root (toNumber r)
  end.

(** [getScaleNoteFrequency(noteIndex, octave)]; no row has an [octave]
    member, so [note.octave || 0] is 0. *)
Definition getScaleNoteFrequency (ROOT_FREQUENCY : num) (noteIndex : nat) (octave : Z)
    : Result num :=
  match MAJOR_SCALE_RATIOS !! noteIndex with
  | None => Throw TypeError
  | Some note =>
      let noteOctave := 0%Z in
      let baseFreq :=
        getFrequencyFromRatio ROOT_FREQUENCY (note_ratio note) (Some ROOT_FREQUENCY) in
      Ok (mul baseFreq (pow2 (octave + noteOctave)))
  end.

(** [this.scaleDegreeChordTypes[noteIndex] || 'major'] *)
Definition chordTypeOf (noteIndex : nat) : string :=
  default "major" (scaleDegreeChordTypes !! noteIndex).

(** [getJazz79Extensions(noteIndex)] *)
Definition getJazz79Extensions (noteIndex : nat) : list string :=
  let chordType := chordTypeOf noteIndex in
  let isDominant := (noteIndex =? 3)%nat || (noteIndex =? 10)%nat in
  if isDominant then ["minorSeventh"; "ninth"]
  else if String.eqb chordType "major" then ["seventh"; "ninth"]
  else ["minorSeventh"; "ninth"].

(** [buildChordFrequencies(rootNoteIndex, extensions)] *)
Definition buildChordFrequencies (ROOT_FREQUENCY : num) (rootNoteIndex : nat)
    (extensions : list string) : Result (list num) :=
  match getScaleNoteFrequency ROOT_FREQUENCY rootNoteIndex 0 with
  | Throw e => Throw e
  | Ok rootFreq =>
      let chordType := chordTypeOf rootNoteIndex in
      match table_entry CHORD_INTERVALS chordType with
      | None => Throw TypeError (* undefined.forEach *)
      | Some intervals =>
          match elements_of intervals with
          | Throw e => Throw e
          | Ok elems =>
              let triad :=
                map (fun interval =>
                       getFrequencyFromRatio ROOT_FREQUENCY interval (Some rootFreq))
                    elems in
              let added :=
                flat_map (fun ext =>
                  match table_entry CHORD_INTERVALS ext with
                  | Some r => [getFrequencyFromRatio ROOT_FREQUENCY r (Some rootFreq)]
                  | None => []
                  end) extensions in
              Ok (triad ++ added)
          end
      end
  end.

(** [startChord(noteIndex, noteKey)]: always a Jazz79 chord; the bass note
    hangs on [this.bassMode] alone. *)
Definition startChord (noteIndex : nat) (noteKey : string) : M Registry string :=
  existing ← gets (fun w => JsObject.get (activeNotes w) noteKey);
  match existing with
  | JsObject.Own existing => stopChord existing
  | JsObject.Inherited => throw TypeError (* oscillators.forEach is not a function *)
  | JsObject.Missing => mret tt
  end ≫= fun _ =>
  let extensions := getJazz79Extensions noteIndex in
  root ← gets ROOT_FREQUENCY;
  frequencies ← lift (buildChordFrequencies root noteIndex extensions);
  created ← createChordVoices frequencies [];
  bm ← gets bassMode;
  (if (bm : bool) then
     rootFreq ← lift (getScaleNoteFrequency root noteIndex 0);
     let bassFrequency := div rootFreq (Fin 2) in
     bassComponents ← createSubBass bassFrequency;
     mret (created ++ [bassComponents])
   else mret created) ≫= fun oscillators =>
  store noteKey oscillators ≫= fun _ =>
  mret noteKey.


End MusicSoundManager.

(** ** The wave shaper of the hi-hat and of the growl bass *)

(** [const samples = 44100] *)
Definition distortion_samples : nat := Z.to_nat 44100.

(** The input level [x] of sample [i], [(i * 2) / samples - 1]. *)
Definition distortionInput (i : nat) : Q :=
  (inject_Z (Z.of_nat i) * 2) / 44100 - 1.

Section Distortion.

Variable Math_PI : Q.

(** [curve[i]] in [createDistortion(amount)], as the [Float32Array]
    holds it; the products and sums on the way overflow as doubles do. *)
Definition distortionSample (amount : Q) (i : nat) : num :=
  let deg := Math_PI / 180 in
  let x := distortionInput i in
  let times (a : num) (q : Q) := overflow (mul a (Fin q)) in
  let numerator := times (times (times (overflow (add (Fin 3) (Fin amount))) x) 20) deg in
  let denominator :=
    overflow (add (Fin Math_PI) (overflow (mul (Fin amount) (Fin (Qabs x))))) in
  store32 (overflow (div numerator denominator)).

(** The curve [createDistortion(amount)] gives to its wave shaper. *)
Definition createDistortion (amount : Q) : list num :=
  map (distortionSample amount) (seq 0 distortion_samples).

End Distortion.

(** ** The one-shot sidechain duck *)

(** An event on the timeline of a gain parameter. *)
Inductive ParamEvent : Type :=
| SetValue (value time : Q)
| ExponentialRamp (value time : Q).

Definition event_time (e : ParamEvent) : Q :=
  match e with SetValue _ time | ExponentialRamp _ time => time end.

Definition event_value (e : ParamEvent) : Q :=
  match e with SetValue value _ | ExponentialRamp value _ => value end.

(** A gain node: what reading [gain.value] gives, and the events
    scheduled on [gain]. *)
Record GainParam : Type := {
  gain_value : Q;
  events : list ParamEvent
}.

(** The two buses the duck acts on and the clocks of their audio contexts;
    [None] stands for a node or a context that does not exist (yet). *)
Record Buses : Type := {
  audioContext_currentTime : option Q;        (* audioContext *)
  sidechainGainGrowl : option GainParam;
  waterContext_currentTime : option Q;        (* window.musicSoundManager.audioContext *)
  sidechainGainWatersynth : option GainParam  (* window.sidechainGainWatersynth *)
}.

Definition SIDECHAIN_DUCK_AMOUNT : Q := 0.0005.
Definition SIDECHAIN_ATTACK : Q := 0.001.
Definition SIDECHAIN_HOLD : Q := 0.1.
Definition SIDECHAIN_RELEASE : Q := 0.1.

(** [gain.cancelScheduledValues(t)]: the events at [t] or later go. *)
Definition cancelScheduledValuesFrom (t : Q) : M GainParam unit :=
  modify (fun p =>
    {| gain_value := gain_value p;
       events := List.filter (fun e => negb (Qle_bool t (event_time e))) (events p) |}).

Definition schedule (e : ParamEvent) : M GainParam unit :=
  modify (fun p => {| gain_value := gain_value p; events := events p ++ [e] |}).

(** [gain.setValueAtTime(value, time)]: a negative time is rejected. *)
Definition gain_setValueAtTime (value time : Q) : M GainParam unit :=
  if Qis_neg time then throw RangeError else schedule (SetValue value time).

(** [gain.exponentialRampToValueAtTime(value, time)]: a value of 0 and a
    negative time are rejected. *)
Definition exponentialRampToValueAtTime (value time : Q) : M GainParam unit :=
  if Qis_zero value then throw RangeError
  else if Qis_neg time then throw RangeError
  else schedule (ExponentialRamp value time).

(** The envelope [triggerSidechainDuck] puts on one bus. *)
Definition duckBus (now duckLevel : Q) : M GainParam unit :=
  let holdEnd := now + SIDECHAIN_ATTACK + SIDECHAIN_HOLD in
  let releaseEnd := holdEnd + SIDECHAIN_RELEASE in
  cancelScheduledValuesFrom now ≫= fun _ =>
  value ← gets gain_value;
  let currentGain := Qmax 0.001 value in
  gain_setValueAtTime currentGain now ≫= fun _ =>
  exponentialRampToValueAtTime duckLevel (now + SIDECHAIN_ATTACK) ≫= fun _ =>
  gain_setValueAtTime duckLevel holdEnd ≫= fun _ =>
  exponentialRampToValueAtTime 1 releaseEnd.

(** [triggerSidechainDuck()] *)
Definition triggerSidechainDuck : M Buses unit := fun b =>
  let now := default 0 (audioContext_currentTime b) in
  let duckLevel := Qmax 0.001 SIDECHAIN_DUCK_AMOUNT in
  let '(r1, b1) :=
    match sidechainGainGrowl b, audioContext_currentTime b with
    | Some growl, Some _ =>
        let '(r, growl') := duckBus now duckLevel growl in
        (r, {| audioContext_currentTime := audioContext_currentTime b;
               sidechainGainGrowl := Some growl';
               waterContext_currentTime := waterContext_currentTime b;
               sidechainGainWatersynth := sidechainGainWatersynth b |})
    | _, _ => (Ok tt, b)
    end in
  match r1 with
  | Throw e => (Throw e, b1)
  | Ok _ =>
      match sidechainGainWatersynth b1, waterContext_currentTime b1 with
      | Some water, Some waterNow =>
          let '(r, water') := duckBus waterNow duckLevel water in
          (r, {| audioContext_currentTime := audioContext_currentTime b1;
                 sidechainGainGrowl := sidechainGainGrowl b1;
                 waterContext_currentTime := waterContext_currentTime b1;
                 sidechainGainWatersynth := Some water' |})
      | _, _ => (Ok tt, b1)
      end
  end.

(** The four events of a duck triggered at [now] on a bus whose gain reads
    [value]. *)
Definition duck_events (now value : Q) : list ParamEvent :=
  [ SetValue (Qmax 0.001 value) now;
    ExponentialRamp 0.001 (now + 0.001);
    SetValue 0.001 (now + 0.001 + 0.1);
    ExponentialRamp 1 (now + 0.001 + 0.1 + 0.1) ].

(** The events of a timeline that lie at [t] or later. *)
Definition pending_from (t : Q) (timeline : list ParamEvent) : list ParamEvent :=
  List.filter (fun e => Qle_bool t (event_time e)) timeline.

(** ** The parameters of the drums

    A parameter is a number or [undefined]. *)

(** [value || fallback] *)
Definition or_else (value : option num) (fallback : Q) : num :=
  match value with
  | Some v => if truthy v then v else Fin fallback
  | None => Fin fallback
  end.

(** [value !== undefined ? value : fallback] *)
Definition unless_undefined (value fallback : option num) : option num :=
  match value with
  | Some v => Some v
  | None => fallback
  end.

Module SnareDrum.

Record Params : Type := {
  noiseLevel : option num;
  oscLevel : option num;
  thudLevel : option num;
  oscFreq : option num;
  duration : option num;
  volume : option num
}.

(** [this.params] once [new SnareDrum(params)] has run. *)
Definition construct (params : Params) : Params :=
  {| noiseLevel := Some (or_else (noiseLevel params) 150);
     oscLevel := Some (or_else (oscLevel params) 100);
     thudLevel := unless_undefined (thudLevel params) (Some (Fin 240));
     oscFreq := Some (or_else (oscFreq params) 170);
     duration := Some (or_else (duration params) 50);
     volume := Some (or_else (volume params) 1) |}.

End SnareDrum.

Module HiHat.

Record Params : Type := {
  noiseLevel : option num;
  brightness : option num;
  decay : option num;
  volume : option num;
  reverbRoomSize : option num;
  reverbDecayTime : option num;
  reverbGain : option num
}.

Definition open : Params :=
  {| noiseLevel := Some (Fin 50); brightness := Some (Fin 20); decay := Some (Fin 200);
     volume := Some (Fin 0.7); reverbRoomSize := Some (Fin 1);
     reverbDecayTime := Some (Fin 0.6); reverbGain := Some (Fin 0.3) |}.

Definition closed : Params :=
  {| noiseLevel := Some (Fin 50); brightness := Some (Fin 20); decay := Some (Fin 0.1);
     volume := Some (Fin 0.7); reverbRoomSize := Some (Fin 0.02);
     reverbDecayTime := Some (Fin 0.05); reverbGain := Some (Fin 0.1) |}.

Definition presets : gmap string Params :=
  <["open" := open]> (<["closed" := closed]> ∅).

(** What reading the seven parameters off a member of [Object.prototype]
    gives: [undefined] each time, since no member carries a property of
    one of these names. *)
Definition no_parameters : Params :=
  {| noiseLevel := None; brightness := None; decay := None; volume := None;
     reverbRoomSize := None; reverbDecayTime := None; reverbGain := None |}.

(** [HiHat.presets[preset] || HiHat.presets.open] *)
Definition presetDefaults (preset : string) : Params :=
  match JsObject.get presets preset with
  | JsObject.Own defaults => defaults
  | JsObject.Inherited => no_parameters
  | JsObject.Missing => open
  end.

(** [this.params] once [new HiHat(preset, params)] has run. *)
Definition construct (preset : string) (params : Params) : Params :=
  let presetDefaults := presetDefaults preset in
  {| noiseLevel := unless_undefined (noiseLevel params) (noiseLevel presetDefaults);
     brightness := unless_undefined (brightness params) (brightness presetDefaults);
     decay := unless_undefined (decay params) (decay presetDefaults);
     volume := unless_undefined (volume params) (volume presetDefaults);
     reverbRoomSize :=
       unless_undefined (reverbRoomSize params) (reverbRoomSize presetDefaults);
     reverbDecayTime :=
       unless_undefined (reverbDecayTime params) (reverbDecayTime presetDefaults);
     reverbGain := unless_undefined (reverbGain params) (reverbGain presetDefaults) |}.

(** [Math.max(0.1, this.params.decay / 1000)]; [undefined / 1000] is NaN. *)
Definition play_duration (decay : option num) : num :=
  JsMath.max (Fin 0.1) (div (default NaN decay) (Fin 1000)).

(** The times [play()] schedules at when the clock reads [now] and the
    duration is a finite number: the four events of the noise envelope,
    then the stop of the noise source. *)
Definition play_times (now duration : Q) : list Q :=
  let attackTime := 0.001 in
  let decayTime := duration * 0.3 in
  let releaseTime := duration * 0.7 in
  [ now;
    now + attackTime;
    now + attackTime + decayTime;
    now + attackTime + decayTime + releaseTime;
    now + duration + 0.1 ].

End HiHat.

(** A gate at 50 in ordered mode on the sequence ["4", "0"], once the cycle
    of its first token has been scheduled: the cursor is on ["0"] and the
    timer of the next cycle is pending. *)
Definition gate_on_zero_token : Gate :=
  {| gateAmount := 50;
     gateSpeedSequence := [NVStr "4"; NVStr "0"];
     gateBaseSequence := [NVStr "4"; NVStr "0"];
     gateSequenceIndex := 1;
     gateRandomEnabled := false;
     gateInterval := None;
     gateTimeout := Some 2%nat;
     timers := {[ 2%nat := 125 ]};
     next_timer := 3;
     gateGain := [];
     random_calls := 0;
     window_bpm := None;
     sampleRate := 44100;
     hasPlayingIndexCallback := false;
     playingIndex := [] |}.

(** * Float32 rounding

    What [fround] does to a number: it moves it by half a unit of the last
    kept digit at most, keeps order, signs and the numbers a float32 holds
    exactly. *)

Lemma Qfloor_bounds (x : Q) : inject_Z (Qfloor x) <= x < inject_Z (Qfloor x) + 1.
Proof.
  split; [apply Qfloor_le|]. pose proof (Qlt_floor x) as H.
  rewrite inject_Z_plus in H. exact H.
Qed.

Lemma Qfloor_unique (x : Q) (n : Z) : inject_Z n <= x < inject_Z n + 1 -> Qfloor x = n.
Proof.
  intros [Hlo Hhi]. destruct (Qfloor_bounds x) as [Hlo' Hhi'].
  assert (H1 : inject_Z n < inject_Z (Qfloor x) + 1) by lra.
  assert (H2 : inject_Z (Qfloor x) < inject_Z n + 1) by lra.
  change 1 with (inject_Z 1) in H1, H2. rewrite <- inject_Z_plus in H1, H2.
  rewrite <- Zlt_Qlt in H1, H2. lia.
Qed.

Lemma round_half_even_cases (x : Q) :
  let f := Qfloor x in
  let r := x - inject_Z f in
  (r < 1 # 2 /\ round_half_even x = f) \/
  (1 # 2 < r /\ round_half_even x = (f + 1)%Z) \/
  (r == 1 # 2 /\ Z.even f = true /\ round_half_even x = f) \/
  (r == 1 # 2 /\ Z.even f = false /\ round_half_even x = (f + 1)%Z).
Proof.
  cbv zeta. unfold round_half_even.
  destruct (Qcompare_spec (x - inject_Z (Qfloor x)) (1 # 2)) as [Heq | Hlt | Hgt].
  - destruct (Z.even (Qfloor x)) eqn:Heven; [right; right; left | right; right; right]; auto.
  - left. auto.
  - right. left. auto.
Qed.

Lemma round_half_even_near (x : Q) :
  x - (1 # 2) <= inject_Z (round_half_even x) <= x + (1 # 2).
Proof.
  destruct (Qfloor_bounds x) as [Hlo Hhi].
  destruct (round_half_even_cases x) as [(Hr & ->) | [(Hr & ->) | [(Hr & _ & ->) | (Hr & _ & ->)]]];
    rewrite ?inject_Z_plus; change (inject_Z 1) with 1; lra.
Qed.

Lemma round_half_even_Z (n : Z) : round_half_even (inject_Z n) = n.
Proof.
  unfold round_half_even. rewrite Qfloor_Z.
  destruct (Qcompare_spec (inject_Z n - inject_Z n) (1 # 2)) as [H | H | H];
    [lra | reflexivity | lra].
Qed.

Lemma round_half_even_le (x y : Q) : x <= y -> (round_half_even x <= round_half_even y)%Z.
Proof.
  intros Hxy. pose proof (Qfloor_resp_le x y Hxy) as Hf.
  destruct (Qfloor_bounds x) as [Hxlo Hxhi]. destruct (Qfloor_bounds y) as [Hylo Hyhi].
  destruct (Z.eq_dec (Qfloor x) (Qfloor y)) as [Hsame | Hdiff].
  - destruct (round_half_even_cases x)
      as [(Hr & ->) | [(Hr & ->) | [(Hr & Hev & ->) | (Hr & Hev & ->)]]];
    destruct (round_half_even_cases y)
      as [(Hr' & ->) | [(Hr' & ->) | [(Hr' & Hev' & ->) | (Hr' & Hev' & ->)]]];
    rewrite <- ?Hsame in *; try lia; try congruence; exfalso; lra.
  - assert (Hlt : (Qfloor x + 1 <= Qfloor y)%Z) by lia.
    assert (Hx : (round_half_even x <= Qfloor x + 1)%Z).
    { destruct (round_half_even_cases x)
        as [(_ & ->) | [(_ & ->) | [(_ & _ & ->) | (_ & _ & ->)]]]; lia. }
    assert (Hy : (Qfloor y <= round_half_even y)%Z).
    { destruct (round_half_even_cases y)
        as [(_ & ->) | [(_ & ->) | [(_ & _ & ->) | (_ & _ & ->)]]]; lia. }
    lia.
Qed.

Lemma round_half_even_comp (x y : Q) : x == y -> round_half_even x = round_half_even y.
Proof.
  intros Hxy. apply Z.le_antisymm; apply round_half_even_le; rewrite Hxy; apply Qle_refl.
Qed.

Lemma round_half_even_opp (x : Q) : round_half_even (- x) = (- round_half_even x)%Z.
Proof.
  destruct (Qfloor_bounds x) as [Hlo Hhi].
  destruct (Qeq_dec x (inject_Z (Qfloor x))) as [Hint | Hfrac].
  - rewrite (round_half_even_comp x _ Hint).
    rewrite (round_half_even_comp (- x) (inject_Z (- Qfloor x))).
    + now rewrite !round_half_even_Z.
    + rewrite inject_Z_opp. now rewrite <- Hint.
  - assert (Hstrict : inject_Z (Qfloor x) < x).
    { apply Qle_lt_or_eq in Hlo as [H | H]; [exact H|]. exfalso. apply Hfrac. now symmetry. }
    assert (Hinj : inject_Z (- Qfloor x - 1) == - inject_Z (Qfloor x) - 1).
    { unfold Zminus. rewrite inject_Z_plus, inject_Z_opp. reflexivity. }
    assert (Hfloor : Qfloor (- x) = (- Qfloor x - 1)%Z).
    { apply Qfloor_unique. rewrite Hinj. split; lra. }
    assert (Hodd : Z.even (- Qfloor x - 1) = negb (Z.even (Qfloor x))).
    { replace (- Qfloor x - 1)%Z with (- (Qfloor x + 1))%Z by lia.
      rewrite Z.even_opp, Z.even_add. now destruct (Z.even (Qfloor x)). }
    destruct (round_half_even_cases x)
      as [(Hr & ->) | [(Hr & ->) | [(Hr & Hev & ->) | (Hr & Hev & ->)]]];
    destruct (round_half_even_cases (- x))
      as [(Hr' & ->) | [(Hr' & ->) | [(Hr' & Hev' & ->) | (Hr' & Hev' & ->)]]];
    rewrite Hfloor in *; rewrite ?Hinj in *; rewrite ?Hodd, ?Hev in *;
    try discriminate; try lia; exfalso; lra.
Qed.

(** * The exponent of a positive number *)

Lemma Qpower_2_pos (n : Z) : 0 < Qpower 2 n.
Proof. apply Qpower_0_lt. reflexivity. Qed.

Lemma Qpower_2_S (n : Z) : Qpower 2 (n + 1) == 2 * Qpower 2 n.
Proof. rewrite Qpower_plus by discriminate. change (Qpower 2 1) with 2. ring. Qed.

Lemma Qpower_2_le (n m : Z) : (n <= m)%Z -> Qpower 2 n <= Qpower 2 m.
Proof. intros H. apply Qpower_le_compat_l; [exact H | discriminate]. Qed.

Lemma Qpower_2_lt (n m : Z) : (n < m)%Z -> Qpower 2 n < Qpower 2 m.
Proof. intros H. apply Qpower_lt_compat_l; [exact H | reflexivity]. Qed.

Lemma Zlog2_Q (n : Z) :
  (0 < n)%Z ->
  Qpower 2 (Z.log2 n) <= inject_Z n < 2 * Qpower 2 (Z.log2 n).
Proof.
  intros Hn. destruct (Z.log2_spec n Hn) as [Hlo Hhi].
  pose proof (Z.log2_nonneg n) as Hnonneg.
  rewrite <- Qpower_2_S.
  rewrite <- !(Zpower_Qpower 2) by lia.
  split; [now rewrite <- Zle_Qle | rewrite <- Zlt_Qlt].
  now rewrite <- Z.add_1_r in Hhi.
Qed.

Lemma exponent_of_spec (x : Q) :
  0 < x -> Qpower 2 (exponent_of x) <= x < Qpower 2 (exponent_of x + 1).
Proof.
  intros Hx. unfold exponent_of.
  destruct x as [n d]. cbn [Qnum Qden].
  assert (Hn : (0 < n)%Z) by (unfold Qlt in Hx; cbn in Hx; lia).
  destruct (Zlog2_Q n Hn) as [HA HA'].
  destruct (Zlog2_Q (Zpos d) eq_refl) as [HB HB'].
  set (a := Z.log2 n) in *. set (b := Z.log2 (Zpos d)) in *.
  pose proof (Qpower_2_pos a) as HApos. pose proof (Qpower_2_pos b) as HBpos.
  pose proof (Qpower_2_pos (a - b)) as HPpos.
  assert (HP : Qpower 2 (a - b) * Qpower 2 b == Qpower 2 a).
  { rewrite <- Qpower_plus by discriminate. now replace (a - b + b)%Z with a by lia. }
  assert (Hxd : (n # d) * inject_Z (Zpos d) == inject_Z n).
  { rewrite (Qmake_Qdiv n d). field. discriminate. }
  assert (HD : 0 < inject_Z (Zpos d)) by reflexivity.
  set (P := Qpower 2 (a - b)) in *. set (X := n # d) in *.
  set (N := inject_Z n) in *. set (D := inject_Z (Zpos d)) in *.
  set (A := Qpower 2 a) in *. set (B := Qpower 2 b) in *.
  assert (Hupper : X < 2 * P) by nra.
  assert (Hlower : P < 2 * X) by nra.
  destruct (Qle_bool P X) eqn:Hle.
  - apply Qle_bool_iff in Hle. fold P. rewrite Qpower_2_S. fold P. split; lra.
  - assert (Hlt : X < P).
    { destruct (Qlt_le_dec X P) as [H | H]; [exact H|].
      apply Qle_bool_iff in H. congruence. }
    replace (a - b - 1 + 1)%Z with (a - b)%Z by lia. fold P.
    assert (Hhalf : 2 * Qpower 2 (a - b - 1) == P).
    { rewrite <- Qpower_2_S. now replace (a - b - 1 + 1)%Z with (a - b)%Z by lia. }
    split; lra.
Qed.

Lemma exponent_unique (x : Q) (e e' : Z) :
  Qpower 2 e <= x < Qpower 2 (e + 1) -> Qpower 2 e' <= x < Qpower 2 (e' + 1) -> e = e'.
Proof.
  intros [Hlo Hhi] [Hlo' Hhi'].
  destruct (Z.lt_trichotomy e e') as [Hlt | [Heq | Hgt]]; [|exact Heq|].
  - pose proof (Qpower_2_le (e + 1) e' ltac:(lia)). lra.
  - pose proof (Qpower_2_le (e' + 1) e ltac:(lia)). lra.
Qed.

Lemma exponent_of_comp (x y : Q) : 0 < x -> x == y -> exponent_of x = exponent_of y.
Proof.
  intros Hx Hxy. apply (exponent_unique x).
  - now apply exponent_of_spec.
  - rewrite Hxy. apply exponent_of_spec. now rewrite <- Hxy.
Qed.

Lemma exponent_of_le (x y : Q) : 0 < x -> x <= y -> (exponent_of x <= exponent_of y)%Z.
Proof.
  intros Hx Hxy.
  destruct (exponent_of_spec x Hx) as [Hlo _].
  destruct (exponent_of_spec y ltac:(lra)) as [_ Hhi].
  destruct (Z_le_gt_dec (exponent_of x) (exponent_of y)) as [H | H]; [exact H|].
  pose proof (Qpower_2_le (exponent_of y + 1) (exponent_of x) ltac:(lia)). lra.
Qed.

(** * Rounding to a float32 *)

(** The binary digits [fround] keeps behind the point. *)

Lemma fround_nonzero (x : Q) :
  ~ x == 0 ->
  fround x = inject_Z (round_half_even (x * Qpower 2 (digits_of x))) / Qpower 2 (digits_of x).
Proof.
  intros Hx. unfold fround, Qis_zero.
  destruct (Qeq_bool x 0) eqn:Hzero; [|reflexivity].
  apply Qeq_bool_iff in Hzero. contradiction.
Qed.

Lemma fround_zero (x : Q) : x == 0 -> fround x = 0.
Proof.
  intros Hx. unfold fround, Qis_zero. now rewrite (proj2 (Qeq_bool_iff x 0) Hx).
Qed.

Lemma Qabs_nonzero_pos (x : Q) : ~ x == 0 -> 0 < Qabs x.
Proof.
  intros Hx. destruct (Qlt_le_dec 0 (Qabs x)) as [H | H]; [exact H|].
  exfalso. apply Hx. pose proof (Qabs_nonneg x).
  assert (Hzero : Qabs x == 0) by lra.
  destruct (Qlt_le_dec x 0) as [Hneg | Hpos].
  - rewrite Qabs_neg in Hzero by lra. lra.
  - rewrite Qabs_pos in Hzero by exact Hpos. exact Hzero.
Qed.

Lemma digits_of_comp (x y : Q) : ~ x == 0 -> Qabs x == Qabs y -> digits_of x = digits_of y.
Proof.
  intros Hx Hxy. unfold digits_of.
  now rewrite (exponent_of_comp (Qabs x) (Qabs y)) by (try apply Qabs_nonzero_pos; assumption).
Qed.

Lemma fround_comp (x y : Q) : x == y -> fround x == fround y.
Proof.
  intros Hxy. destruct (Qeq_dec x 0) as [Hzero | Hnonzero].
  - rewrite (fround_zero x Hzero), (fround_zero y); [reflexivity | now rewrite <- Hxy].
  - rewrite (fround_nonzero x Hnonzero), (fround_nonzero y) by now rewrite <- Hxy.
    rewrite <- (digits_of_comp x y) by (try assumption; now rewrite Hxy).
    set (p := Qpower 2 (digits_of x)).
    rewrite (round_half_even_comp (y * p) (x * p)); [reflexivity | now rewrite Hxy].
Qed.

Lemma fround_opp (x : Q) : fround (- x) == - fround x.
Proof.
  destruct (Qeq_dec x 0) as [Hzero | Hnonzero].
  - rewrite (fround_zero x Hzero), (fround_zero (- x)); [reflexivity | lra].
  - assert (Hneg : ~ - x == 0) by (intros H; apply Hnonzero; lra).
    rewrite (fround_nonzero x Hnonzero), (fround_nonzero (- x) Hneg).
    rewrite (digits_of_comp (- x) x) by (try assumption; apply Qabs_opp).
    pose proof (Qpower_2_pos (digits_of x)) as Hpos.
    set (p := Qpower 2 (digits_of x)) in *.
    rewrite (round_half_even_comp (- x * p) (- (x * p))) by ring.
    rewrite round_half_even_opp, inject_Z_opp. field. lra.
Qed.

(** The rounded number is within half a unit of the last digit kept. *)
Lemma fround_near (x : Q) :
  ~ x == 0 ->
  Qabs (fround x - x) <= (1 # 2) / Qpower 2 (digits_of x).
Proof.
  intros Hx. rewrite (fround_nonzero x Hx).
  pose proof (Qpower_2_pos (digits_of x)) as Hpos.
  set (p := Qpower 2 (digits_of x)) in *.
  destruct (round_half_even_near (x * p)) as [Hlo Hhi].
  set (r := inject_Z (round_half_even (x * p))) in *.
  apply Qabs_case; intros _.
  - apply Qle_shift_div_l; [exact Hpos|].
    assert (H : (r / p - x) * p == r - x * p) by (field; lra). rewrite H. lra.
  - apply Qle_shift_div_l; [exact Hpos|].
    assert (H : - (r / p - x) * p == x * p - r) by (field; lra). rewrite H. lra.
Qed.

Lemma fround_nonneg (x : Q) : 0 <= x -> 0 <= fround x.
Proof.
  intros Hx. destruct (Qeq_dec x 0) as [Hzero | Hnonzero].
  - rewrite (fround_zero x Hzero). apply Qle_refl.
  - rewrite (fround_nonzero x Hnonzero).
    pose proof (Qpower_2_pos (digits_of x)) as Hpos.
    apply Qle_shift_div_l; [exact Hpos|]. rewrite Qmult_0_l.
    change 0 with (inject_Z 0). rewrite <- Zle_Qle.
    rewrite <- (round_half_even_Z 0). apply round_half_even_le.
    change (inject_Z 0) with 0. nra.
Qed.

(** A positive number rounds to at most [2^(24 - digits)], and to at least
    [2^(23 - digits)] when it is a normal number. *)
Lemma exponent_of_abs (x : Q) :
  0 < x ->
  Qpower 2 (exponent_of (Qabs x)) <= x < Qpower 2 (exponent_of (Qabs x) + 1).
Proof.
  intros Hx. destruct (exponent_of_spec (Qabs x)) as [Hlo Hhi]; [rewrite Qabs_pos; lra|].
  set (e := exponent_of (Qabs x)) in *. rewrite Qabs_pos in Hlo, Hhi by lra. now split.
Qed.

Lemma fround_upper (x : Q) :
  0 < x -> fround x <= Qpower 2 (24 - digits_of x).
Proof.
  intros Hx. rewrite (fround_nonzero x) by lra.
  pose proof (Qpower_2_pos (digits_of x)) as Hpos.
  apply Qle_shift_div_r; [exact Hpos|].
  rewrite <- Qpower_plus by discriminate.
  replace (24 - digits_of x + digits_of x)%Z with 24%Z by lia.
  rewrite <- (Zpower_Qpower 2 24) by lia. rewrite <- Zle_Qle.
  rewrite <- (round_half_even_Z (2 ^ 24)). apply round_half_even_le.
  rewrite (Zpower_Qpower 2 24) by lia.
  destruct (exponent_of_abs x Hx) as [_ Hhi].
  assert (Hk : (digits_of x <= 23 - exponent_of (Qabs x))%Z) by (unfold digits_of; lia).
  pose proof (Qpower_2_le (exponent_of (Qabs x) + 1 + digits_of x) 24 ltac:(lia)) as Hle.
  rewrite Qpower_plus in Hle by discriminate.
  change (inject_Z 2) with 2.
  pose proof (Qpower_2_pos (exponent_of (Qabs x) + 1)).
  set (a := Qpower 2 (exponent_of (Qabs x) + 1)) in *.
  set (p := Qpower 2 (digits_of x)) in *.
  nra.
Qed.

Lemma fround_lower (x : Q) :
  0 < x -> digits_of x = (23 - exponent_of (Qabs x))%Z ->
  Qpower 2 (23 - digits_of x) <= fround x.
Proof.
  intros Hx Hk. rewrite (fround_nonzero x) by lra.
  pose proof (Qpower_2_pos (digits_of x)) as Hpos.
  apply Qle_shift_div_l; [exact Hpos|].
  rewrite <- Qpower_plus by discriminate.
  replace (23 - digits_of x + digits_of x)%Z with 23%Z by lia.
  rewrite <- (Zpower_Qpower 2 23) by lia. rewrite <- Zle_Qle.
  rewrite <- (round_half_even_Z (2 ^ 23)). apply round_half_even_le.
  rewrite (Zpower_Qpower 2 23) by lia. change (inject_Z 2) with 2.
  destruct (exponent_of_abs x Hx) as [Hlo _].
  assert (H23 : Qpower 2 23 == Qpower 2 (exponent_of (Qabs x)) * Qpower 2 (digits_of x)).
  { rewrite <- Qpower_plus by discriminate. rewrite Hk.
    now replace (exponent_of (Qabs x) + (23 - exponent_of (Qabs x)))%Z with 23%Z by lia. }
  rewrite H23.
  set (a := Qpower 2 (exponent_of (Qabs x))) in *.
  set (p := Qpower 2 (digits_of x)) in *.
  nra.
Qed.

Lemma fround_le_pos (x y : Q) : 0 < x -> x <= y -> fround x <= fround y.
Proof.
  intros Hx Hxy.
  assert (Hexp : (exponent_of (Qabs x) <= exponent_of (Qabs y))%Z).
  { apply exponent_of_le; rewrite !Qabs_pos; lra. }
  destruct (Z.eq_dec (digits_of x) (digits_of y)) as [Hsame | Hdiff].
  - rewrite (fround_nonzero x), (fround_nonzero y) by lra. rewrite Hsame.
    pose proof (Qpower_2_pos (digits_of y)) as Hpos.
    set (p := Qpower 2 (digits_of y)) in *.
    apply Qmult_le_compat_r; [|apply Qlt_le_weak, Qinv_lt_0_compat, Hpos].
    rewrite <- Zle_Qle. apply round_half_even_le. nra.
  - assert (Hlt : (digits_of y < digits_of x)%Z) by (unfold digits_of in *; lia).
    assert (Hnormal : digits_of y = (23 - exponent_of (Qabs y))%Z)
      by (unfold digits_of in *; lia).
    eapply Qle_trans; [apply fround_upper, Hx|].
    eapply Qle_trans; [|apply fround_lower; [lra | exact Hnormal]].
    apply Qpower_2_le. lia.
Qed.

Lemma fround_le (x y : Q) : x <= y -> fround x <= fround y.
Proof.
  intros Hxy.
  destruct (Qlt_le_dec 0 x) as [Hx | Hx]; [now apply fround_le_pos|].
  destruct (Qlt_le_dec y 0) as [Hy | Hy].
  - assert (H : fround (- y) <= fround (- x)) by (apply fround_le_pos; lra).
    rewrite !fround_opp in H. lra.
  - pose proof (fround_nonneg y Hy).
    assert (H0 : 0 <= fround (- x)) by (apply fround_nonneg; lra).
    rewrite fround_opp in H0. lra.
Qed.

(** Between 0 and 1 a number moves by 2^-24 at most, and stays there. *)
Lemma fround_unit (x : Q) :
  0 <= x <= 1 -> 0 <= fround x <= 1 /\ Qabs (fround x - x) <= 1 # 16777216.
Proof.
  intros [Hlo Hhi]. split.
  - split; [now apply fround_nonneg|].
    apply Qle_trans with (fround 1); [now apply fround_le | discriminate].
  - destruct (Qeq_dec x 0) as [Hzero | Hnonzero].
    + rewrite (fround_zero x Hzero). apply Qabs_case; intros _; lra.
    + eapply Qle_trans; [now apply fround_near|].
      assert (Hx : 0 < x) by lra.
      destruct (exponent_of_abs x Hx) as [Hexp _].
      assert (He : (exponent_of (Qabs x) <= 0)%Z).
      { destruct (Z_le_gt_dec (exponent_of (Qabs x)) 0) as [H | H]; [exact H|].
        pose proof (Qpower_2_le 1 (exponent_of (Qabs x)) ltac:(lia)) as H1.
        change (Qpower 2 1) with 2 in H1. lra. }
      assert (Hk : (23 <= digits_of x)%Z) by (unfold digits_of; lia).
      pose proof (Qpower_2_le 23 (digits_of x) Hk) as Hp.
      pose proof (Qpower_2_pos (digits_of x)) as Hpos.
      apply Qle_shift_div_r; [exact Hpos|].
      change (Qpower 2 23) with 8388608 in Hp. lra.
Qed.

(** * Proofs *)

(** ** Strings and [parseInt] *)

Lemma digit_char_cases (d : nat) :
  (d < 10)%nat ->
  digit_char d ∈ ["0"; "1"; "2"; "3"; "4"; "5"; "6"; "7"; "8"; "9"]%char
  /\ radix_digit 10 (digit_char d) = Some (Z.of_nat d)
  /\ is_white_space (digit_char d) = false.
Proof.
  intros Hd.
  do 10 (destruct d as [|d]; [vm_compute; repeat split; set_solver|]).
  lia.
Qed.

Lemma parse_digits_numeral (ds : list nat) (a : Z) :
  Forall (fun d => (d < 10)%nat) ds ->
  parse_digits 10 (Some a) (numeral ds) = Some (numeral_value a ds).
Proof.
  intros Hds. revert a.
  induction Hds as [|d ds Hd _ IH]; intros a; [reflexivity|].
  cbn [numeral parse_digits numeral_value].
  destruct (digit_char_cases d Hd) as (_ & -> & _).
  apply IH.
Qed.

Lemma last_char_numeral (ds : list nat) :
  Forall (fun d => (d < 10)%nat) ds ->
  match last_char (numeral ds) with
  | Some c => exists d, (d < 10)%nat /\ c = digit_char d
  | None => True
  end.
Proof.
  induction 1 as [|d ds Hd Hds IH]; [exact I|].
  cbn [numeral last_char].
  destruct ds as [|d' ds']; cbn [numeral] in *; [eauto|].
  exact IH.
Qed.

Lemma endsWith_numeral (ds : list nat) :
  Forall (fun d => (d < 10)%nat) ds -> endsWith (numeral ds) "T" = false.
Proof.
  intros Hds. unfold endsWith.
  pose proof (last_char_numeral ds Hds) as H.
  destruct (last_char (numeral ds)) as [c|]; [|reflexivity].
  destruct H as (d & Hd & ->).
  do 10 (destruct d as [|d]; [reflexivity|]). lia.
Qed.

Lemma strip_numeral (d : nat) (ds : list nat) :
  (d < 10)%nat -> Forall (fun d => (d < 10)%nat) ds ->
  let s := String (digit_char d) (numeral ds) in
  skip_white_space s = s /\ strip_sign s = (false, s)
  /\ strip_radix_prefix s = (10%Z, s).
Proof.
  intros Hd Hds s. subst s.
  destruct ds as [|d' ds']; cbn [numeral].
  - do 10 (destruct d as [|d]; [repeat split; reflexivity|]). lia.
  - inversion Hds as [|? ? Hd' _]; subst.
    do 10 (destruct d as [|d];
      [ do 10 (destruct d' as [|d']; [repeat split; reflexivity|]); lia |]).
    lia.
Qed.

(** A decimal numeral parses to the number it denotes. *)
Lemma parseInt_numeral (ds : list nat) :
  ds <> [] -> Forall (fun d => (d < 10)%nat) ds ->
  parseInt (numeral ds) = of_Z (numeral_value 0 ds).
Proof.
  intros Hne Hds.
  destruct ds as [|d ds]; [congruence|].
  inversion Hds as [|? ? Hd Hds']; subst.
  destruct (strip_numeral d ds Hd Hds') as (Hws & Hsign & Hradix).
  unfold parseInt. cbn [numeral]. rewrite Hws, Hsign, Hradix.
  cbn [parse_digits numeral_value].
  destruct (digit_char_cases d Hd) as (_ & -> & _).
  rewrite parse_digits_numeral by assumption.
  now rewrite Z.mul_0_l, Z.add_0_l.
Qed.

Lemma app_T_not_empty (s : string) : (s +:+ "T")%string <> EmptyString.
Proof. destruct s; discriminate. Qed.

Lemma last_char_app_T (s : string) : last_char (s +:+ "T") = Some "T"%char.
Proof.
  induction s as [|c s IH]; [reflexivity|].
  change (String c s +:+ "T")%string with (String c (s +:+ "T")).
  cbn [last_char].
  pose proof (app_T_not_empty s) as Hne.
  destruct (s +:+ "T")%string; [congruence | exact IH].
Qed.

Lemma endsWith_app_T (s : string) : endsWith (s +:+ "T") "T" = true.
Proof. unfold endsWith. now rewrite last_char_app_T. Qed.

Lemma slice_app_T (s : string) : slice_0_m1 (s +:+ "T") = s.
Proof.
  induction s as [|c s IH]; [reflexivity|].
  change (String c s +:+ "T")%string with (String c (s +:+ "T")).
  cbn [slice_0_m1].
  pose proof (app_T_not_empty s) as Hne.
  destruct (s +:+ "T")%string; [congruence | now rewrite IH].
Qed.

(** ** The note-duration law *)

Lemma Qis_zero_false (q : Q) : ~ q == 0 -> Qis_zero q = false.
Proof.
  intros H. unfold Qis_zero. destruct (Qeq_bool q 0) eqn:E; [|reflexivity].
  apply Qeq_bool_iff in E. contradiction.
Qed.

Lemma beat_duration (bpm : Q) : 0 < bpm -> div (Fin 60) (Fin bpm) = Fin (60 / bpm).
Proof.
  intros H. unfold div. rewrite Qis_zero_false; [reflexivity|]. lra.
Qed.

Lemma getNoteDuration_plain (ds : list nat) (bpm : Q) :
  ds <> [] -> Forall (fun d => (d < 10)%nat) ds ->
  getNoteDuration (NVStr (numeral ds)) (Fin bpm)
  = div (div (Fin 60) (Fin bpm)) (of_Z (numeral_value 0 ds)).
Proof.
  intros Hne Hds. unfold getNoteDuration.
  now rewrite endsWith_numeral, parseInt_numeral.
Qed.

Lemma getNoteDuration_triplet (s : string) (bpm : num) :
  getNoteDuration (NVStr (s +:+ "T")) bpm =
  let beatDuration := div (Fin 60) bpm in
  let baseValue := parseInt s in
  if strict_eq baseValue (Fin 8) then div beatDuration (Fin 3)
  else if strict_eq baseValue (Fin 4) then mul beatDuration (Fin (2 / 3))
  else if strict_eq baseValue (Fin 2) then mul beatDuration (Fin (4 / 3))
  else if strict_eq baseValue (Fin 1) then mul beatDuration (Fin (8 / 3))
  else beatDuration.
Proof. unfold getNoteDuration. now rewrite endsWith_app_T, slice_app_T. Qed.

Ltac triplet_case beat :=
  cbv zeta;
  match goal with
  | |- context [parseInt ?s] =>
      let v := eval vm_compute in (parseInt s) in change (parseInt s) with v
  end;
  repeat match goal with
  | |- context [strict_eq ?a ?b] =>
      let v := eval vm_compute in (strict_eq a b) in change (strict_eq a b) with v
  end;
  cbv iota; unfold mul, div, eqv;
  repeat match goal with
  | |- context [Qis_zero ?a] =>
      is_ground a;
      let v := eval vm_compute in (Qis_zero a) in change (Qis_zero a) with v
  end;
  cbv iota; subst beat; try reflexivity; try (field; lra).

(** C2, as the code has it: a plain token ["N"] lasts beat/N, the four
    triplet tokens last beat/3, beat*2/3, beat*4/3 and beat*8/3; at 120 bpm
    the token ["4"] lasts 0.125 s (a quarter of the 0.5 s beat), ["8T"]
    about 0.1667 s, ["4T"] about 0.3333 s and ["1T"] about 1.3333 s. *)
Theorem getNoteDuration_law (bpm : Q) :
  0 < bpm ->
  let beat := 60 / bpm in
  (forall (ds : list nat) (N : Z),
      ds <> [] -> Forall (fun d => (d < 10)%nat) ds ->
      numeral_value 0 ds = N -> (0 < N)%Z ->
      eqv (getNoteDuration (NVStr (numeral ds)) (Fin bpm)) (Fin (beat / inject_Z N)))
  /\ eqv (getNoteDuration (NVStr "8T") (Fin bpm)) (Fin (beat / 3))
  /\ eqv (getNoteDuration (NVStr "4T") (Fin bpm)) (Fin (beat * 2 / 3))
  /\ eqv (getNoteDuration (NVStr "2T") (Fin bpm)) (Fin (beat * 4 / 3))
  /\ eqv (getNoteDuration (NVStr "1T") (Fin bpm)) (Fin (beat * 8 / 3))
  /\ eqv (getNoteDuration (NVStr "4") (Fin 120)) (Fin 0.125)
  /\ close_to (getNoteDuration (NVStr "8T") (Fin 120)) 0.1667 0.0001
  /\ close_to (getNoteDuration (NVStr "4T") (Fin 120)) 0.3333 0.0001
  /\ close_to (getNoteDuration (NVStr "1T") (Fin 120)) 1.3333 0.0001.
Proof.
  intros Hbpm beat.
  assert (Hbeat : div (Fin 60) (Fin bpm) = Fin beat) by now apply beat_duration.
  refine (conj _ (conj _ (conj _ (conj _ (conj _ (conj _ (conj _ (conj _ _)))))))).
  - intros ds N Hne Hds HN Hpos.
    rewrite getNoteDuration_plain, Hbeat, HN by assumption.
    unfold of_Z, div. rewrite Qis_zero_false; [cbn; reflexivity|].
    unfold Qeq. cbn. lia.
  - change "8T"%string with ("8" +:+ "T")%string.
    rewrite getNoteDuration_triplet, Hbeat. triplet_case beat.
  - change "4T"%string with ("4" +:+ "T")%string.
    rewrite getNoteDuration_triplet, Hbeat. triplet_case beat.
  - change "2T"%string with ("2" +:+ "T")%string.
    rewrite getNoteDuration_triplet, Hbeat. triplet_case beat.
  - change "1T"%string with ("1" +:+ "T")%string.
    rewrite getNoteDuration_triplet, Hbeat. triplet_case beat.
  - vm_compute. exact eq_refl.
  - vm_compute. discriminate.
  - vm_compute. discriminate.
  - vm_compute. discriminate.
Qed.

Lemma getNoteDuration_law_witness :
  eqv (getNoteDuration (NVStr "8T") (Fin 90)) (Fin (60 / 90 / 3)).
Proof. exact (proj1 (proj2 (getNoteDuration_law 90 eq_refl))). Defined.

(** C2, as the spec gives the example: the token ["4"] at 120 bpm does not
    last the full 0.5 s beat. *)
Lemma getNoteDuration_quarter_not_half_second :
  ~ eqv (getNoteDuration (NVStr "4") (Fin 120)) (Fin 0.5).
Proof. vm_compute. discriminate. Qed.

(** C10: a triplet token whose base value is none of 8, 4, 2, 1 (it may
    also fail to parse) lasts the full beat. *)
Theorem getNoteDuration_triplet_fallback (bpm : Q) (s : string) :
  0 < bpm ->
  strict_eq (parseInt s) (Fin 8) = false ->
  strict_eq (parseInt s) (Fin 4) = false ->
  strict_eq (parseInt s) (Fin 2) = false ->
  strict_eq (parseInt s) (Fin 1) = false ->
  getNoteDuration (NVStr (s +:+ "T")) (Fin bpm) = Fin (60 / bpm).
Proof.
  intros Hbpm H8 H4 H2 H1.
  rewrite getNoteDuration_triplet. cbn zeta.
  rewrite H8, H4, H2, H1. now apply beat_duration.
Qed.

Lemma getNoteDuration_triplet_fallback_witness :
  getNoteDuration (NVStr "16T") (Fin 120) = Fin (60 / 120).
Proof.
  exact (getNoteDuration_triplet_fallback 120 "16" eq_refl eq_refl eq_refl eq_refl eq_refl).
Defined.

(** ** Chord frequencies *)

Lemma CHORD_INTERVALS_lookup (ext : string) :
  CHORD_INTERVALS !! ext =
  if String.eqb ext "major" then Some (RArray [ratio 1 1; ratio 5 4; ratio 3 2])
  else if String.eqb ext "minor" then Some (RArray [ratio 1 1; ratio 6 5; ratio 3 2])
  else if String.eqb ext "seventh" then Some (ratio 15 8)
  else if String.eqb ext "minorSeventh" then Some (ratio 9 5)
  else if String.eqb ext "ninth" then Some (ratio 9 4)
  else if String.eqb ext "eleventh" then Some (ratio 11 4)
  else if String.eqb ext "thirteenth" then Some (ratio 5 3)
  else None.
Proof.
  unfold CHORD_INTERVALS.
  repeat match goal with
  | |- context [String.eqb ext ?k] =>
      destruct (String.eqb_spec ext k) as [-> | ?];
      [ vm_compute; reflexivity | rewrite lookup_insert_ne by congruence ]
  end.
  apply lookup_empty.
Qed.

Lemma CHORD_INTERVALS_entry (ext : string) :
  table_entry CHORD_INTERVALS ext =
  if String.eqb ext "major" then Some (RArray [ratio 1 1; ratio 5 4; ratio 3 2])
  else if String.eqb ext "minor" then Some (RArray [ratio 1 1; ratio 6 5; ratio 3 2])
  else if String.eqb ext "seventh" then Some (ratio 15 8)
  else if String.eqb ext "minorSeventh" then Some (ratio 9 5)
  else if String.eqb ext "ninth" then Some (ratio 9 4)
  else if String.eqb ext "eleventh" then Some (ratio 11 4)
  else if String.eqb ext "thirteenth" then Some (ratio 5 3)
  else if JsObject.inherited ext then Some RMember
  else None.
Proof.
  unfold table_entry, JsObject.get. rewrite CHORD_INTERVALS_lookup.
  repeat match goal with
  | |- context [String.eqb ext ?k] => destruct (String.eqb ext k); [reflexivity|]
  end.
  now destruct (JsObject.inherited ext).
Qed.

(** The frequency of an interval [[n, d]] above a finite root. *)
Lemma getFrequencyFromRatio_ratio (n d : Z) (x q : Q) :
  d <> 0%Z -> inject_Z n / inject_Z d == q ->
  exists f, getFrequencyFromRatio (ratio n d) (Fin x) = Fin f /\ f == x * q.
Proof.
  intros Hd Hq. unfold getFrequencyFromRatio, ratio, toNumber_at. cbn [lookup list_lookup toNumber].
  unfold div. rewrite Qis_zero_false.
  - cbn [mul]. eexists. split; [reflexivity|]. now rewrite Hq.
  - unfold Qeq. cbn. lia.
Qed.

(** The table entry of a recognized extension, in the spec's terms. *)
Lemma CHORD_INTERVALS_extension (ext : string) :
  ext <> "major" -> ext <> "minor" ->
  match ChordSpec.recognized ext with
  | Some e =>
      exists r, table_entry CHORD_INTERVALS ext = Some r /\
        forall x : Q, exists f,
          getFrequencyFromRatio r (Fin x) = Fin f /\
          f == x * ChordSpec.extension_ratio e
  | None =>
      table_entry CHORD_INTERVALS ext
      = if JsObject.inherited ext then Some RMember else None
  end.
Proof.
  intros Hmajor Hminor. rewrite CHORD_INTERVALS_entry.
  unfold ChordSpec.recognized.
  destruct (String.eqb_spec ext "major"); [congruence|].
  destruct (String.eqb_spec ext "minor"); [congruence|].
  repeat match goal with
  | |- context [String.eqb ext ?k] =>
      destruct (String.eqb ext k);
      [ eexists; split; [reflexivity|]; intros x;
        apply getFrequencyFromRatio_ratio; [discriminate | vm_compute; reflexivity] | ]
  end.
  reflexivity.
Qed.

Lemma MAJOR_SCALE_RATIOS_row (index : nat) :
  (index < 8)%nat ->
  exists note n d,
    MAJOR_SCALE_RATIOS !! index = Some note /\ note_ratio note = ratio n d /\
    d <> 0%Z /\ inject_Z n / inject_Z d == ChordSpec.degree_ratio index.
Proof.
  intros Hindex.
  do 8 (destruct index as [|index];
    [ eexists _, _, _; split; [reflexivity|]; split; [reflexivity|];
      split; [discriminate | vm_compute; reflexivity] | ]).
  lia.
Qed.

Lemma getScaleNoteFrequency_degree (root : Q) (index : nat) :
  (index < 8)%nat ->
  exists f, getScaleNoteFrequency (Fin root) index 0 = Ok (Fin f)
            /\ f == root * ChordSpec.degree_ratio index.
Proof.
  intros Hindex. unfold getScaleNoteFrequency.
  destruct (MAJOR_SCALE_RATIOS_row index Hindex) as (note & n & d & -> & -> & Hd & Hq).
  destruct (getFrequencyFromRatio_ratio n d root _ Hd Hq) as (f & -> & Hf).
  change (pow2 0) with (Fin 1). cbn [mul]. eexists. split; [reflexivity|].
  rewrite Hf. ring.
Qed.


Lemma extension_frequencies (f base : Q) (extensions : list string) :
  f == base ->
  Forall plain_extension extensions ->
  same_numbers
    (flat_map (fun ext =>
       match table_entry CHORD_INTERVALS ext with
       | Some r => [getFrequencyFromRatio r (Fin f)]
       | None => []
       end) extensions)
    (map (fun r => Fin (base * r))
       (omap (fun ext => ChordSpec.extension_ratio <$> ChordSpec.recognized ext)
          extensions)).
Proof.
  intros Hf. induction 1 as [|ext exts (Hmajor & Hminor & Hplain) _ IH]; [constructor|].
  cbn [flat_map omap list_omap].
  pose proof (CHORD_INTERVALS_extension ext Hmajor Hminor) as Hext.
  destruct (ChordSpec.recognized ext) as [e|].
  - destruct Hext as (r & -> & Hr). destruct (Hr f) as (g & -> & Hg).
    cbn. constructor; [|exact IH]. cbn. now rewrite Hg, Hf.
  - rewrite Hext, Hplain. exact IH.
Qed.

(** What an extension name that is no triad adds to a chord grows with the
    root: a recognized extension its ratio, a member of the prototype NaN,
    any other name nothing. *)
Lemma extension_frequencies_scaled (f g c : Q) (extensions : list string) :
  g == c * f ->
  Forall (fun ext => ext <> "major" /\ ext <> "minor") extensions ->
  same_numbers
    (flat_map (fun ext =>
       match table_entry CHORD_INTERVALS ext with
       | Some r => [getFrequencyFromRatio r (Fin g)]
       | None => []
       end) extensions)
    (map (mul (Fin c))
       (flat_map (fun ext =>
          match table_entry CHORD_INTERVALS ext with
          | Some r => [getFrequencyFromRatio r (Fin f)]
          | None => []
          end) extensions)).
Proof.
  intros Hg. induction 1 as [|ext exts [Hmajor Hminor] _ IH]; [constructor|].
  cbn [flat_map]. rewrite map_app. apply Forall2_app; [|exact IH].
  pose proof (CHORD_INTERVALS_extension ext Hmajor Hminor) as Hext.
  destruct (ChordSpec.recognized ext) as [e|].
  - destruct Hext as (r & -> & Hr).
    destruct (Hr f) as (x & -> & Hx). destruct (Hr g) as (y & -> & Hy).
    cbn [map mul]. apply List.Forall2_cons; [|constructor].
    cbn [eqv]. rewrite Hy, Hx, Hg. ring.
  - rewrite Hext. destruct (JsObject.inherited ext); [|constructor].
    cbn [map getFrequencyFromRatio toNumber mul]. apply List.Forall2_cons; [exact I|constructor].
Qed.

Lemma triad_frequencies (f base : Q) (t : ChordSpec.ChordType) :
  f == base ->
  exists elems,
    table_entry CHORD_INTERVALS (ChordSpec.chordType_name t) = Some (RArray elems) /\
    same_numbers (map (fun interval => getFrequencyFromRatio interval (Fin f)) elems)
                 (map (fun r => Fin (base * r)) (ChordSpec.triad_ratios t)).
Proof.
  intros Hf.
  destruct t; (eexists; split; [reflexivity|]);
    unfold same_numbers; cbn [map ChordSpec.triad_ratios];
    repeat match goal with
    | |- Forall2 eqv (getFrequencyFromRatio (ratio ?n ?d) (Fin f) :: _)
                     (Fin (base * ?q) :: _) =>
        let g := fresh "g" in
        let Hg := fresh "Hg" in
        destruct (getFrequencyFromRatio_ratio n d f q) as (g & -> & Hg);
        [ discriminate | vm_compute; reflexivity | ];
        apply List.Forall2_cons; [cbn [eqv]; rewrite Hg, Hf; reflexivity|]
    end;
    apply List.Forall2_nil.
Qed.

Lemma chordTypeOf_name (index : nat) :
  (index < 8)%nat ->
  exists t, chordTypeOf index = ChordSpec.chordType_name t.
Proof.
  intros Hindex.
  do 8 (destruct index as [|index];
        [ first [ now exists ChordSpec.major | now exists ChordSpec.minor ] | ]).
  lia.
Qed.

(** Triad first, in its declared order, then the recognized extensions in
    request order. *)
Lemma buildChordFrequencies_order (root : Q) (index : nat) (t : ChordSpec.ChordType)
    (extensions : list string) :
  (index < 8)%nat ->
  Forall plain_extension extensions ->
  exists frequencies,
    buildChordFrequencies (Fin root) index (ChordSpec.chordType_name t) extensions
    = Ok frequencies /\
    same_numbers frequencies
      (map (fun r => Fin (root * ChordSpec.degree_ratio index * r))
           (ChordSpec.chord_ratios t extensions)).
Proof.
  intros Hindex Hexts. unfold buildChordFrequencies.
  destruct (getScaleNoteFrequency_degree root index Hindex) as (f & -> & Hf).
  destruct (triad_frequencies f _ t Hf) as (elems & -> & Htriad).
  cbn [elements_of]. eexists. split; [reflexivity|].
  unfold ChordSpec.chord_ratios. rewrite map_app.
  apply Forall2_app; [exact Htriad|].
  now apply extension_frequencies.
Qed.

(** A name that is neither a key of the table nor a member of the
    prototype is skipped. *)
Lemma buildChordFrequencies_skips_unknown (root : num) (index : nat) (chordType : string)
    (ext : string) (extensions : list string) :
  CHORD_INTERVALS !! ext = None -> JsObject.inherited ext = false ->
  buildChordFrequencies root index chordType extensions
  = buildChordFrequencies root index chordType (ChordSpec.without ext extensions).
Proof.
  intros Hunknown Hplain. unfold buildChordFrequencies.
  destruct (getScaleNoteFrequency root index 0) as [rootFreq|]; [|reflexivity].
  destruct (elements_of _) as [elems|]; [|reflexivity].
  do 2 f_equal. unfold ChordSpec.without.
  induction extensions as [|e exts IH]; [reflexivity|].
  rewrite filter_cons. cbn [flat_map]. case_decide as He.
  - cbn [flat_map]. now rewrite IH.
  - subst e. unfold table_entry, JsObject.get. now rewrite Hunknown, Hplain.
Qed.

(** C7 on the code: the triad names [major] and [minor] are keys of the same
    table as the extensions, so the truthiness test lets them through and the
    quotient of two arrays, NaN, is pushed as a frequency. *)
Theorem buildChordFrequencies_triad_name_not_skipped :
  exists f1 f2 f3,
    buildChordFrequencies (Fin 261.63) 2 "major" ["minor"%string]
    = Ok [f1; f2; f3; NaN] /\
    buildChordFrequencies (Fin 261.63) 2 "major" (ChordSpec.without "minor" ["minor"%string])
    = Ok [f1; f2; f3].
Proof. eexists _, _, _. vm_compute. split; reflexivity. Qed.

(** ** Running the registry *)

Lemma bind_run {W A B} (m : M W A) (f : A -> M W B) (w : W) :
  (m ≫= f) w =
  match m w with
  | (Ok a, w') => f a w'
  | (Throw e, w') => (Throw e, w')
  end.
Proof. reflexivity. Qed.

Lemma stopChord_run (entry : list Voice) (w : Registry) :
  stopChord entry w = (Ok tt, set_stopped (oscillators_of entry ∪ stopped w) w).
Proof.
  unfold stopChord, oscillators_of. revert w.
  induction entry as [|v entry IH]; intros w.
  - cbn. destruct w. unfold set_stopped. cbn. do 2 f_equal. set_solver.
  - cbn [forEach]. rewrite bind_run. unfold stopNote at 1, modify.
    rewrite IH. unfold set_stopped. cbn. do 2 f_equal. set_solver.
Qed.

Lemma createSustainedNote_run (root frequency : num) (w : Registry) :
  playable root frequency ->
  createSustainedNote frequency w =
  (Ok {| oscillator := next_oscillator w; kind := Sustained; baseFrequency := frequency |},
   set_next_oscillator (S (next_oscillator w)) w).
Proof.
  intros (Hfinite & Hzero & _). unfold createSustainedNote, createOscillator.
  rewrite bind_run. now rewrite Hfinite, Hzero.
Qed.

Lemma applyFrequencyGain_run (frequency : num) (w : Registry) :
  playable (ROOT_FREQUENCY w) frequency ->
  applyFrequencyGain frequency w = (Ok tt, w).
Proof.
  intros (_ & _ & Hgain). unfold applyFrequencyGain. rewrite bind_run. unfold gets.
  now rewrite Hgain.
Qed.

Lemma createChordVoices_run (frequencies : list num) (created : list Voice) (w : Registry) :
  Forall (playable (ROOT_FREQUENCY w)) frequencies ->
  createChordVoices frequencies created w =
  (Ok (created ++ sustained_voices (next_oscillator w) frequencies),
   set_next_oscillator (next_oscillator w + length frequencies) w).
Proof.
  remember (ROOT_FREQUENCY w) as root eqn:Hroot.
  intros Hall. revert created w Hroot.
  induction Hall as [|f fs Hf _ IH]; intros created w Hroot.
  - cbn. rewrite app_nil_r, Nat.add_0_r. now destruct w.
  - cbn [createChordVoices].
    rewrite bind_run, (createSustainedNote_run root) by assumption.
    rewrite bind_run, applyFrequencyGain_run by (cbn; now rewrite <- Hroot).
    rewrite IH by exact Hroot.
    unfold sustained_voices. cbn [imap length next_oscillator set_next_oscillator].
    rewrite <- app_assoc. cbn [app]. rewrite Nat.add_0_r.
    f_equal.
    + do 3 f_equal. apply imap_ext. intros i x _. cbn. f_equal. lia.
    + unfold set_next_oscillator. cbn. f_equal. lia.
Qed.

Lemma addBassNoteIfEnabled_off (oscillators : list Voice) (noteIndex : option nat)
    (w : Registry) :
  bassMode w = false ->
  addBassNoteIfEnabled oscillators noteIndex w = (Ok oscillators, w).
Proof.
  intros Hoff. unfold addBassNoteIfEnabled. rewrite bind_run. unfold gets.
  rewrite Hoff. now destruct noteIndex.
Qed.

(** *** Reading a key of [activeNotes] *)

Lemma get_own {A} (obj : gmap string A) (key : string) (a : A) :
  obj !! key = Some a -> JsObject.get obj key = JsObject.Own a.
Proof. intros Hown. unfold JsObject.get. now rewrite Hown. Qed.

Lemma get_missing {A} (obj : gmap string A) (key : string) :
  obj !! key = None -> JsObject.inherited key = false ->
  JsObject.get obj key = JsObject.Missing.
Proof. intros Hnone Hplain. unfold JsObject.get. now rewrite Hnone, Hplain. Qed.

Lemma get_inherits {A} (obj : gmap string A) (key : string) :
  JsObject.inherits obj key = true ->
  obj !! key = None /\ JsObject.inherited key = true /\
  JsObject.get obj key = JsObject.Inherited.
Proof.
  unfold JsObject.inherits, JsObject.get.
  destruct (obj !! key); [discriminate|]. now intros ->.
Qed.

Lemma inherits_plain {A} (obj : gmap string A) (key : string) :
  JsObject.inherited key = false -> JsObject.inherits obj key = false.
Proof. intros Hplain. unfold JsObject.inherits. now destruct (obj !! key). Qed.

Lemma inherits_own {A} (obj : gmap string A) (key : string) (a : A) :
  obj !! key = Some a -> JsObject.inherits obj key = false.
Proof. intros Hown. unfold JsObject.inherits. now rewrite Hown. Qed.

Lemma release_existing_run (noteKey : string) (w : Registry) :
  JsObject.inherits (activeNotes w) noteKey = false ->
  (match JsObject.get (activeNotes w) noteKey with
   | JsObject.Own existing => stopChord existing
   | JsObject.Inherited => throw TypeError
   | JsObject.Missing => mret tt
   end) w = (Ok tt, release_existing noteKey w).
Proof.
  unfold release_existing, JsObject.inherits, JsObject.get.
  destruct (activeNotes w !! noteKey); [intros _; apply stopChord_run|].
  now intros ->.
Qed.

Lemma release_inherited_run {A} (noteKey : string) (w : Registry)
    (own : list Voice -> M Registry A) (missing : M Registry A) :
  JsObject.inherits (activeNotes w) noteKey = true ->
  (match JsObject.get (activeNotes w) noteKey with
   | JsObject.Own existing => own existing
   | JsObject.Inherited => throw TypeError
   | JsObject.Missing => missing
   end) w = (Throw TypeError, w).
Proof. intros Hkey. now destruct (get_inherits _ _ Hkey) as (_ & _ & ->). Qed.

Lemma release_existing_inherited (noteKey : string) (w : Registry) :
  JsObject.inherits (activeNotes w) noteKey = true -> release_existing noteKey w = w.
Proof.
  intros Hkey. destruct (get_inherits _ _ Hkey) as (Hnone & _).
  unfold release_existing. now rewrite Hnone.
Qed.

(** A trigger on a key that only the prototype knows throws before it has
    done anything. *)
Lemma startNote_inherited (frequency : num) (noteKey : string) (noteIndex : option nat)
    (w : Registry) :
  JsObject.inherits (activeNotes w) noteKey = true ->
  startNote frequency noteKey noteIndex w = (Throw TypeError, w).
Proof.
  intros Hkey. unfold startNote. rewrite bind_run. unfold gets at 1. rewrite bind_run.
  now rewrite release_inherited_run.
Qed.

Lemma startChord_inherited (noteIndex : nat) (noteKey : string) (extensions : list string)
    (w : Registry) :
  JsObject.inherits (activeNotes w) noteKey = true ->
  startChord noteIndex noteKey extensions w = (Throw TypeError, w).
Proof.
  intros Hkey. unfold startChord. rewrite bind_run. unfold gets at 1. rewrite bind_run.
  now rewrite release_inherited_run.
Qed.

Lemma startChord_run (noteIndex : nat) (noteKey : string) (extensions : list string)
    (frequencies : list num) (w : Registry) :
  JsObject.inherits (activeNotes w) noteKey = false ->
  buildChordFrequencies (ROOT_FREQUENCY w) noteIndex (chordTypeOf noteIndex) extensions
  = Ok frequencies ->
  Forall (playable (ROOT_FREQUENCY w)) frequencies ->
  bassMode w = false ->
  let voices := sustained_voices (next_oscillator w) frequencies in
  startChord noteIndex noteKey extensions w =
  (Ok noteKey,
   stored_under noteKey voices
     (set_next_oscillator (next_oscillator w + length frequencies)
        (release_existing noteKey w))).
Proof.
  intros Hkey Hbuild Hplayable Hoff voices. unfold startChord.
  rewrite bind_run. unfold gets at 1. rewrite bind_run.
  rewrite release_existing_run by exact Hkey.
  set (w1 := release_existing noteKey w).
  assert (Hroot : ROOT_FREQUENCY w1 = ROOT_FREQUENCY w)
    by (subst w1; unfold release_existing; now destruct (activeNotes w !! noteKey)).
  assert (Hbass : bassMode w1 = false)
    by (subst w1; unfold release_existing; now destruct (activeNotes w !! noteKey)).
  assert (Hnext : next_oscillator w1 = next_oscillator w)
    by (subst w1; unfold release_existing; now destruct (activeNotes w !! noteKey)).
  rewrite bind_run. unfold gets at 1. rewrite Hroot.
  rewrite bind_run. unfold lift at 1. rewrite Hbuild.
  rewrite bind_run, createChordVoices_run by now rewrite Hroot.
  rewrite bind_run, addBassNoteIfEnabled_off by exact Hbass.
  rewrite bind_run. unfold store, modify. cbn [app].
  unfold mret, M_ret. now rewrite Hnext.
Qed.

(** C5, as the code has it: for a valid degree and a recognized chord type
    the triad frequencies come first, in declared order, then one frequency
    per recognized extension in request order (extension lists that name a
    triad of the table or a member of [Object.prototype] are left aside:
    the code does not skip those names); with ROOT_FREQUENCY = 261.63 and
    bass mode off,
    [startChord(2, "keyA", [])] stores three voices at 261.63, 327.04 and
    392.45, and [startChord(2, "keyA", ['seventh'])] a fourth one at
    261.63 * 15/8, about 490.56. *)
Theorem chord_frequencies_in_order :
  (forall (root : Q) (index : nat) (t : ChordSpec.ChordType) (extensions : list string),
      (index < 8)%nat ->
      Forall plain_extension extensions ->
      exists frequencies,
        buildChordFrequencies (Fin root) index (ChordSpec.chordType_name t) extensions
        = Ok frequencies /\
        same_numbers frequencies
          (map (fun r => Fin (root * ChordSpec.degree_ratio index * r))
               (ChordSpec.chord_ratios t extensions)))
  /\
  (forall w : Registry,
      ROOT_FREQUENCY w = Fin 261.63 -> bassMode w = false ->
      (exists v1 v2 v3 w',
          startChord 2 "keyA" [] w = (Ok "keyA"%string, w') /\
          activeNotes w' !! "keyA"%string = Some [v1; v2; v3] /\
          eqv (baseFrequency v1) (Fin 261.63) /\
          eqv (baseFrequency v2) (Fin (261.63 * (5 # 4))) /\
          close_to (baseFrequency v2) 327.04 0.005 /\
          eqv (baseFrequency v3) (Fin (261.63 * (3 # 2))) /\
          close_to (baseFrequency v3) 392.45 0.005)
      /\
      (exists v1 v2 v3 v4 w',
          startChord 2 "keyA" ["seventh"%string] w = (Ok "keyA"%string, w') /\
          activeNotes w' !! "keyA"%string = Some [v1; v2; v3; v4] /\
          eqv (baseFrequency v4) (Fin (261.63 * (15 # 8))) /\
          close_to (baseFrequency v4) 490.56 0.005)).
Proof.
  split; [exact buildChordFrequencies_order|].
  intros w Hroot Hoff. split.
  - eexists _, _, _, _. split.
    + apply startChord_run;
        [now apply inherits_plain | rewrite Hroot; vm_compute; reflexivity | | exact Hoff].
      rewrite Hroot. repeat constructor.
    + unfold stored_under. cbn [activeNotes set_stored set_activeNotes].
      rewrite lookup_insert_eq.
      split; [reflexivity|]. vm_compute. repeat split; discriminate.
  - eexists _, _, _, _, _. split.
    + apply startChord_run;
        [now apply inherits_plain | rewrite Hroot; vm_compute; reflexivity | | exact Hoff].
      rewrite Hroot. repeat constructor.
    + unfold stored_under. cbn [activeNotes set_stored set_activeNotes].
      rewrite lookup_insert_eq.
      split; [reflexivity|]. vm_compute. repeat split; discriminate.
Qed.

Lemma chord_frequencies_in_order_witness :
  exists v1 v2 v3 w',
    startChord 2 "keyA" [] initial_registry = (Ok "keyA"%string, w') /\
    activeNotes w' !! "keyA"%string = Some [v1; v2; v3] /\
    eqv (baseFrequency v1) (Fin 261.63) /\
    eqv (baseFrequency v2) (Fin (261.63 * (5 # 4))) /\
    close_to (baseFrequency v2) 327.04 0.005 /\
    eqv (baseFrequency v3) (Fin (261.63 * (3 # 2))) /\
    close_to (baseFrequency v3) 392.45 0.005.
Proof.
  exact (proj1 (proj2 chord_frequencies_in_order initial_registry eq_refl eq_refl)).
Defined.

(** C5, as the spec states it, fails when bass mode is on, as it is when
    [audio.js] has been loaded: the chord is stored with a fourth voice, the
    sub bass an octave below the degree. *)
Lemma startChord_bass_mode_not_three_voices :
  ROOT_FREQUENCY initial_registry_audio_js = Fin 261.63 /\
  ~ exists v1 v2 v3,
      activeNotes (state_of (startChord 2 "keyA" [] initial_registry_audio_js))
        !! "keyA"%string = Some [v1; v2; v3].
Proof.
  split; [reflexivity|]. intros (v1 & v2 & v3 & H).
  vm_compute in H. discriminate H.
Qed.

Lemma startChord_bass_mode_four_voices :
  exists v1 v2 v3 v4,
    activeNotes (state_of (startChord 2 "keyA" [] initial_registry_audio_js))
      !! "keyA"%string = Some [v1; v2; v3; v4]
    /\ kind v4 = SubBass.
Proof. eexists _, _, _, _. vm_compute. split; reflexivity. Qed.

(** ** Release by key *)

Lemma stopNoteByKey_absent (noteKey : string) (w : Registry) :
  activeNotes w !! noteKey = None -> JsObject.inherited noteKey = false ->
  stopNoteByKey noteKey w = (Ok tt, w).
Proof.
  intros Habsent Hplain. unfold stopNoteByKey. rewrite bind_run. unfold gets.
  now rewrite get_missing.
Qed.

(** A key that only the prototype knows passes the test of
    [stopNoteByKey], and the release of what it finds throws. *)
Lemma stopNoteByKey_inherited (noteKey : string) (w : Registry) :
  JsObject.inherits (activeNotes w) noteKey = true ->
  stopNoteByKey noteKey w = (Throw TypeError, w).
Proof.
  intros Hkey. unfold stopNoteByKey. rewrite bind_run. unfold gets.
  now rewrite release_inherited_run.
Qed.

Lemma stopNoteByKey_present (noteKey : string) (entry : list Voice) (w : Registry) :
  activeNotes w !! noteKey = Some entry -> entry <> [] ->
  stopNoteByKey noteKey w =
  (Ok tt, set_activeNotes (delete noteKey (activeNotes w))
            (set_stopped (oscillators_of entry ∪ stopped w) w)).
Proof.
  intros Hentry Hne. unfold stopNoteByKey. rewrite bind_run. unfold gets.
  rewrite (get_own _ _ _ Hentry), bind_run.
  destruct entry as [|v [|v' rest]]; [congruence | |].
  - cbn [length Nat.ltb Nat.leb lookup list_lookup].
    unfold stopNote, modify, set_activeNotes, set_stopped, oscillators_of. cbn.
    do 2 f_equal. set_solver.
  - cbn [length Nat.ltb Nat.leb]. now rewrite stopChord_run.
Qed.

Lemma stopNoteByKey_empty_entry (noteKey : string) (w : Registry) :
  activeNotes w !! noteKey = Some [] ->
  stopNoteByKey noteKey w = (Throw TypeError, w).
Proof.
  intros Hentry. unfold stopNoteByKey. rewrite bind_run. unfold gets.
  now rewrite (get_own _ _ _ Hentry).
Qed.

(** The three ways a release can find its key. *)
Lemma key_cases {A} (obj : gmap string A) (key : string) :
  (exists a, obj !! key = Some a) \/
  JsObject.inherits obj key = true \/
  (obj !! key = None /\ JsObject.inherited key = false).
Proof.
  unfold JsObject.inherits. destruct (obj !! key) as [a|]; [left; eauto|].
  destruct (JsObject.inherited key); [right; now left | right; now right].
Qed.


(** ** One active entry per key *)

Lemma quiet_refl (w : Registry) : quiet w w.
Proof. unfold quiet. auto. Qed.

Lemma quiet_trans (w1 w2 w3 : Registry) : quiet w1 w2 -> quiet w2 w3 -> quiet w1 w3.
Proof.
  intros (Hn & Hs & Hsub) (Hn' & Hs' & Hsub'). repeat split; [congruence.. |].
  set_solver.
Qed.

Lemma quiet_released_or_current (w w' : Registry) :
  quiet w w' -> released_or_current w -> released_or_current w'.
Proof.
  intros (Hn & Hs & Hsub) Hinv noteKey entry Hin.
  rewrite Hs in Hin. rewrite Hn. destruct (Hinv _ _ Hin); [now left | right; set_solver].
Qed.

Lemma quiet_released (noteKey : string) (w w' : Registry) :
  quiet w w' -> released noteKey w -> released noteKey w'.
Proof.
  intros (Hn & Hs & Hsub) Hrel entry Hentry.
  rewrite Hn in Hentry. specialize (Hrel _ Hentry). set_solver.
Qed.

Lemma creates_only_bind {A B} (m : M Registry A) (f : A -> M Registry B) :
  creates_only m -> (forall a, creates_only (f a)) -> creates_only (m ≫= f).
Proof.
  intros Hm Hf w. rewrite bind_run. specialize (Hm w).
  destruct (m w) as [[a|e] w']; cbn [state_of snd] in *; [|exact Hm].
  eapply quiet_trans; [exact Hm | apply Hf].
Qed.

Lemma creates_only_ret {A} (a : A) : creates_only (mret a : M Registry A).
Proof. intros w. apply quiet_refl. Qed.

Lemma creates_only_throw {A} (e : JsError) : creates_only (throw e : M Registry A).
Proof. intros w. apply quiet_refl. Qed.

Lemma creates_only_gets {A} (f : Registry -> A) : creates_only (gets f).
Proof. intros w. apply quiet_refl. Qed.

Lemma creates_only_lift {A} (r : Result A) : creates_only (lift r).
Proof. intros w. apply quiet_refl. Qed.

Lemma creates_only_createOscillator : creates_only createOscillator.
Proof. intros w. unfold quiet. cbn. auto. Qed.

Create HintDb creates.

#[local] Hint Resolve creates_only_ret creates_only_throw creates_only_gets
  creates_only_lift creates_only_createOscillator : creates.

Lemma creates_only_createSustainedNote (frequency : num) :
  creates_only (createSustainedNote frequency).
Proof.
  unfold createSustainedNote. apply creates_only_bind; [auto with creates|].
  intros osc. destruct (negb _); [auto with creates|].
  destruct (strict_eq _ _); auto with creates.
Qed.

Lemma creates_only_createSubBass (frequency : num) :
  creates_only (createSubBass frequency).
Proof.
  unfold createSubBass. apply creates_only_bind; [auto with creates|].
  intros osc. destruct (negb _); auto with creates.
Qed.

Lemma creates_only_applyFrequencyGain (frequency : num) :
  creates_only (applyFrequencyGain frequency).
Proof.
  unfold applyFrequencyGain. apply creates_only_bind; [auto with creates|].
  intros root. destruct (getFrequencyBasedGain _ _); auto with creates.
Qed.

#[local] Hint Resolve creates_only_createSustainedNote creates_only_createSubBass
  creates_only_applyFrequencyGain : creates.

Lemma creates_only_addBassNoteIfEnabled (oscillators : list Voice) (noteIndex : option nat) :
  creates_only (addBassNoteIfEnabled oscillators noteIndex).
Proof.
  unfold addBassNoteIfEnabled. apply creates_only_bind; [auto with creates|].
  intros bm. destruct noteIndex as [i|]; [|auto with creates].
  destruct bm; [|auto with creates].
  repeat (apply creates_only_bind; [auto with creates | intros ?]).
  auto with creates.
Qed.

Lemma creates_only_createChordVoices (frequencies : list num) (created : list Voice) :
  creates_only (createChordVoices frequencies created).
Proof.
  revert created. induction frequencies as [|f fs IH]; intros created.
  - cbn. auto with creates.
  - cbn [createChordVoices]. apply creates_only_bind; [auto with creates|].
    intros v. apply creates_only_bind; [auto with creates|].
    intros _. apply IH.
Qed.

#[local] Hint Resolve creates_only_addBassNoteIfEnabled creates_only_createChordVoices
  : creates.

Lemma addBassNoteIfEnabled_extends (oscillators result : list Voice)
    (noteIndex : option nat) (w w' : Registry) :
  addBassNoteIfEnabled oscillators noteIndex w = (Ok result, w') ->
  exists extra, result = oscillators ++ extra.
Proof.
  unfold addBassNoteIfEnabled. rewrite bind_run. unfold gets at 1.
  destruct noteIndex as [i|]; [|intros [= <- _]; exists []; now rewrite app_nil_r].
  destruct (bassMode w); [|intros [= <- _]; exists []; now rewrite app_nil_r].
  rewrite bind_run. unfold gets at 1. rewrite bind_run. unfold lift at 1.
  destruct (getScaleNoteFrequency _ _ _) as [rootFreq|e]; [|discriminate].
  rewrite bind_run.
  destruct (createSubBass _ w) as [[bass|e] w1]; [|discriminate].
  intros [= <- _]. eauto.
Qed.

Lemma createChordVoices_length (frequencies : list num) (created result : list Voice)
    (w w' : Registry) :
  createChordVoices frequencies created w = (Ok result, w') ->
  length result = (length created + length frequencies)%nat.
Proof.
  revert created w. induction frequencies as [|f fs IH]; intros created w.
  - cbn. intros [= <- _]. lia.
  - cbn [createChordVoices]. rewrite bind_run.
    destruct (createSustainedNote f w) as [[v|e] w1]; [|discriminate].
    rewrite bind_run.
    destruct (applyFrequencyGain f w1) as [[[]|e] w2]; [|discriminate].
    intros Hrest. apply IH in Hrest. rewrite Hrest, length_app. cbn. lia.
Qed.

Lemma buildChordFrequencies_nonempty (root : num) (index : nat) (extensions : list string)
    (frequencies : list num) :
  buildChordFrequencies root index (chordTypeOf index) extensions = Ok frequencies ->
  frequencies <> [].
Proof.
  unfold buildChordFrequencies.
  destruct (getScaleNoteFrequency root index 0) as [rootFreq|e] eqn:Hroot; [|discriminate].
  assert (Hindex : (index < 8)%nat).
  { unfold getScaleNoteFrequency in Hroot.
    destruct (MAJOR_SCALE_RATIOS !! index) eqn:Hrow; [|discriminate].
    apply lookup_lt_Some in Hrow. exact Hrow. }
  destruct (chordTypeOf_name index Hindex) as (t & ->).
  destruct t; cbn; intros [= <-]; discriminate.
Qed.

Lemma release_existing_quiet (noteKey : string) (w : Registry) :
  quiet w (release_existing noteKey w).
Proof.
  unfold release_existing. destruct (activeNotes w !! noteKey); [|apply quiet_refl].
  repeat split. cbn. set_solver.
Qed.

Lemma release_existing_released (noteKey : string) (w : Registry) :
  released noteKey (release_existing noteKey w).
Proof.
  unfold release_existing, released.
  destruct (activeNotes w !! noteKey) as [existing|] eqn:Hexisting.
  - intros entry. cbn [activeNotes set_stopped stopped]. rewrite Hexisting.
    intros [= <-]. set_solver.
  - intros entry. rewrite Hexisting. discriminate.
Qed.

Lemma stored_under_released_or_current (noteKey : string) (oscillators : list Voice)
    (w : Registry) :
  released_or_current w -> released noteKey w ->
  released_or_current (stored_under noteKey oscillators w).
Proof.
  intros Hinv Hrel key entry. unfold stored_under.
  cbn [stored activeNotes stopped set_stored set_activeNotes].
  rewrite elem_of_cons. intros [[= -> ->] | Hin].
  - left. apply lookup_insert_eq.
  - destruct (decide (key = noteKey)) as [-> | Hne].
    + right. destruct (Hinv _ _ Hin) as [Hcurrent | Hstopped]; [|exact Hstopped].
      now apply Hrel.
    + rewrite lookup_insert_ne by congruence. now apply Hinv.
Qed.

Lemma startNote_outcome (frequency : num) (noteKey : string) (noteIndex : option nat)
    (w : Registry) :
  trigger_outcome noteKey w (startNote frequency noteKey noteIndex w).
Proof.
  destruct (JsObject.inherits (activeNotes w) noteKey) eqn:Hkey.
  { rewrite startNote_inherited by exact Hkey. exists w. split; [|now left].
    rewrite release_existing_inherited by exact Hkey. apply quiet_refl. }
  remember (startNote frequency noteKey noteIndex w) as r eqn:Hr.
  unfold startNote in Hr.
  rewrite bind_run in Hr. unfold gets at 1 in Hr. rewrite bind_run in Hr.
  change (forEach ?l stopNote) with (stopChord l) in Hr.
  rewrite release_existing_run in Hr by exact Hkey.
  unfold trigger_outcome. set (w1 := release_existing noteKey w) in *.
  rewrite bind_run in Hr.
  pose proof (creates_only_createSustainedNote frequency w1) as H1.
  destruct (createSustainedNote frequency w1) as [[v|e] w1'];
    cbn [state_of snd] in H1;
    [|subst r; exists w1'; split; [exact H1 | now left]].
  rewrite bind_run in Hr.
  pose proof (creates_only_applyFrequencyGain frequency w1') as H1'.
  destruct (applyFrequencyGain frequency w1') as [[[]|e] w2]; cbn [state_of snd] in H1';
    [|subst r; exists w2; split; [now apply (quiet_trans _ w1') | now left]].
  assert (H12 : quiet w1 w2) by now apply (quiet_trans _ w1').
  rewrite bind_run in Hr.
  pose proof (creates_only_addBassNoteIfEnabled [v] noteIndex w2) as H2.
  destruct (addBassNoteIfEnabled [v] noteIndex w2) as [[oscillators|e] w3] eqn:Hbass;
    cbn [state_of snd] in H2; subst r;
    (exists w3; split; [now apply (quiet_trans _ w2) |]); [|now left].
  right. exists oscillators. split; [|reflexivity].
  apply addBassNoteIfEnabled_extends in Hbass as (extra & ->). discriminate.
Qed.

Lemma startChord_outcome (noteIndex : nat) (noteKey : string) (extensions : list string)
    (w : Registry) :
  trigger_outcome noteKey w (startChord noteIndex noteKey extensions w).
Proof.
  destruct (JsObject.inherits (activeNotes w) noteKey) eqn:Hkey.
  { rewrite startChord_inherited by exact Hkey. exists w. split; [|now left].
    rewrite release_existing_inherited by exact Hkey. apply quiet_refl. }
  remember (startChord noteIndex noteKey extensions w) as r eqn:Hr.
  unfold startChord in Hr.
  rewrite bind_run in Hr. unfold gets at 1 in Hr. rewrite bind_run in Hr.
  rewrite release_existing_run in Hr by exact Hkey.
  unfold trigger_outcome. set (w1 := release_existing noteKey w) in *.
  rewrite bind_run in Hr. unfold gets at 1 in Hr.
  rewrite bind_run in Hr. unfold lift at 1 in Hr.
  destruct (buildChordFrequencies _ _ _ _) as [frequencies|e] eqn:Hbuild;
    [|subst r; exists w1; split; [apply quiet_refl | now left]].
  rewrite bind_run in Hr.
  pose proof (creates_only_createChordVoices frequencies [] w1) as H1.
  destruct (createChordVoices frequencies [] w1) as [[created|e] w2] eqn:Hcreated;
    cbn [state_of snd] in H1;
    [|subst r; exists w2; split; [exact H1 | now left]].
  rewrite bind_run in Hr.
  pose proof (creates_only_addBassNoteIfEnabled created (Some noteIndex) w2) as H2.
  destruct (addBassNoteIfEnabled created (Some noteIndex) w2) as [[oscillators|e] w3]
    eqn:Hbass;
    cbn [state_of snd] in H2; subst r;
    (exists w3; split; [now apply (quiet_trans _ w2) |]); [|now left].
  right. exists oscillators. split; [|reflexivity].
  apply addBassNoteIfEnabled_extends in Hbass as (extra & ->).
  apply createChordVoices_length in Hcreated. cbn [length] in Hcreated.
  apply buildChordFrequencies_nonempty in Hbuild.
  destruct created; [destruct frequencies; [congruence | discriminate] | discriminate].
Qed.

Lemma trigger_outcome_invariant (noteKey : string) (w : Registry)
    (r : Result string * Registry) :
  trigger_outcome noteKey w r -> released_or_current w ->
  released_or_current (state_of r).
Proof.
  intros (w2 & Hquiet & Hcases) Hinv.
  assert (Hinv2 : released_or_current w2).
  { eapply quiet_released_or_current; [exact Hquiet|].
    eapply quiet_released_or_current; [apply release_existing_quiet | exact Hinv]. }
  assert (Hrel2 : released noteKey w2).
  { eapply quiet_released; [exact Hquiet | apply release_existing_released]. }
  destruct Hcases as [-> | (oscillators & _ & ->)]; [exact Hinv2|].
  now apply stored_under_released_or_current.
Qed.

Lemma trigger_outcome_releases (noteKey : string) (w : Registry)
    (r : Result string * Registry) (existing : list Voice) :
  trigger_outcome noteKey w r ->
  activeNotes w !! noteKey = Some existing ->
  oscillators_of existing ⊆ stopped (state_of r).
Proof.
  intros (w2 & (_ & _ & Hsub) & Hcases) Hexisting.
  assert (Hw2 : oscillators_of existing ⊆ stopped w2).
  { unfold release_existing in Hsub. rewrite Hexisting in Hsub. cbn in Hsub. set_solver. }
  destruct Hcases as [-> | (oscillators & _ & ->)]; exact Hw2.
Qed.

Lemma stopNoteByKey_invariant (noteKey : string) (w : Registry) :
  released_or_current w -> released_or_current (state_of (stopNoteByKey noteKey w)).
Proof.
  intros Hinv.
  destruct (activeNotes w !! noteKey) as [[|v rest]|] eqn:Hentry.
  - now rewrite stopNoteByKey_empty_entry.
  - rewrite (stopNoteByKey_present _ (v :: rest)) by (assumption || discriminate).
    intros key entry. cbn [state_of snd stored activeNotes stopped set_activeNotes set_stopped].
    intros Hin. destruct (Hinv _ _ Hin) as [Hcurrent | Hstopped]; [|right; set_solver].
    destruct (decide (key = noteKey)) as [-> | Hne].
    + right. rewrite Hentry in Hcurrent. injection Hcurrent as <-. set_solver.
    + left. now rewrite lookup_delete_ne by congruence.
  - destruct (JsObject.inherited noteKey) eqn:Hplain.
    + rewrite stopNoteByKey_inherited; [exact Hinv|].
      unfold JsObject.inherits. now rewrite Hentry.
    + now rewrite stopNoteByKey_absent.
Qed.

Lemma forEach_invariant {W A} (I : W -> Prop) (f : A -> M W unit) (array : list A) :
  (forall x w, I w -> I (state_of (f x w))) ->
  forall w, I w -> I (state_of (forEach array f w)).
Proof.
  intros Hstep. induction array as [|x rest IH]; intros w Hw; [exact Hw|].
  cbn [forEach]. rewrite bind_run. specialize (Hstep x w Hw).
  destruct (f x w) as [[[]|e] w']; cbn [state_of snd] in *; [now apply IH | exact Hstep].
Qed.

Lemma stopAllNotes_invariant (w : Registry) :
  released_or_current w -> released_or_current (state_of (stopAllNotes w)).
Proof.
  intros Hinv. unfold stopAllNotes. rewrite bind_run. unfold gets.
  apply forEach_invariant; [|exact Hinv].
  intros key w'. apply stopNoteByKey_invariant.
Qed.

Lemma perform_invariant (c : RegistryCall) (w : Registry) :
  released_or_current w -> released_or_current (perform c w).
Proof.
  intros Hinv. destruct c; cbn [perform].
  - eapply trigger_outcome_invariant; [apply startNote_outcome | exact Hinv].
  - eapply trigger_outcome_invariant; [apply startChord_outcome | exact Hinv].
  - now apply stopNoteByKey_invariant.
  - now apply stopAllNotes_invariant.
  - exact Hinv.
  - exact Hinv.
Qed.

Lemma perform_all_invariant (calls : list RegistryCall) (w : Registry) :
  released_or_current w -> released_or_current (perform_all calls w).
Proof.
  revert w. induction calls as [|c calls IH]; intros w Hinv; [exact Hinv|].
  cbn [perform_all fold_left]. apply IH. now apply perform_invariant.
Qed.

Lemma initial_registry_invariant : released_or_current initial_registry.
Proof. intros key entry Hin. cbn in Hin. now apply elem_of_nil in Hin. Qed.

Lemma active_not_released (w : Registry) (entry : list Voice) :
  active w entry -> ~ oscillators_of entry ⊆ stopped w.
Proof.
  intros (v & Hv & Hlive) Hsub. apply Hlive, Hsub.
  unfold oscillators_of. rewrite elem_of_list_to_set, list_elem_of_fmap. eauto.
Qed.

(** C1: a trigger under a key first stops every voice of the entry the key
    holds, so that entry is no longer active afterwards, whether the call
    returns or throws; and after any sequence of calls on the loaded page,
    two entries ever stored under one key that are both active are the same
    entry, the one the key holds now. *)
Theorem one_active_entry_per_key :
  (forall (w : Registry) (noteKey : string) (existing : list Voice)
          (frequency : num) (noteIndex : option nat),
      activeNotes w !! noteKey = Some existing ->
      ~ active (state_of (startNote frequency noteKey noteIndex w)) existing)
  /\
  (forall (w : Registry) (noteKey : string) (existing : list Voice)
          (noteIndex : nat) (extensions : list string),
      activeNotes w !! noteKey = Some existing ->
      ~ active (state_of (startChord noteIndex noteKey extensions w)) existing)
  /\
  (forall (calls : list RegistryCall) (noteKey : string) (entry1 entry2 : list Voice),
      let w := perform_all calls initial_registry in
      (noteKey, entry1) ∈ stored w -> (noteKey, entry2) ∈ stored w ->
      active w entry1 -> active w entry2 ->
      entry1 = entry2 /\ activeNotes w !! noteKey = Some entry1).
Proof.
  split; [|split].
  - intros w noteKey existing frequency noteIndex Hexisting Hactive.
    apply (active_not_released _ _ Hactive).
    eapply trigger_outcome_releases; [apply startNote_outcome | exact Hexisting].
  - intros w noteKey existing noteIndex extensions Hexisting Hactive.
    apply (active_not_released _ _ Hactive).
    eapply trigger_outcome_releases; [apply startChord_outcome | exact Hexisting].
  - intros calls noteKey entry1 entry2 w Hin1 Hin2 Hactive1 Hactive2.
    pose proof (perform_all_invariant calls _ initial_registry_invariant) as Hinv.
    fold w in Hinv.
    destruct (Hinv _ _ Hin1) as [H1 | H1];
      [|now apply active_not_released in Hactive1].
    destruct (Hinv _ _ Hin2) as [H2 | H2];
      [|now apply active_not_released in Hactive2].
    split; [congruence | exact H1].
Qed.

Lemma one_active_entry_per_key_witness :
  let w := perform_all [CallStartNote (Fin 440) "keyA" None;
                        CallStartNote (Fin 660) "keyA" None] initial_registry in
  let second := [{| oscillator := 1; kind := Sustained; baseFrequency := Fin 660 |}] in
  second = second /\ activeNotes w !! "keyA"%string = Some second.
Proof.
  intros w second.
  assert (Hstored : ("keyA"%string, second) ∈ stored w)
    by (vm_compute; constructor).
  assert (Hactive : active w second).
  { exists {| oscillator := 1; kind := Sustained; baseFrequency := Fin 660 |}.
    split; [constructor|]. intros Hin. vm_compute in Hin. discriminate Hin. }
  exact (proj2 (proj2 one_active_entry_per_key) _ "keyA"%string second second
           Hstored Hstored Hactive Hactive).
Defined.

(** In that run the first entry had been released by the second trigger. *)
Example retrigger_releases_first_entry :
  let w := perform_all [CallStartNote (Fin 440) "keyA" None;
                        CallStartNote (Fin 660) "keyA" None] initial_registry in
  stored w = [("keyA"%string, [{| oscillator := 1; kind := Sustained; baseFrequency := Fin 660 |}]);
              ("keyA"%string, [{| oscillator := 0; kind := Sustained; baseFrequency := Fin 440 |}])]
  /\ stopped w = {[ 0%nat ]}.
Proof. split; vm_compute; reflexivity. Qed.

(** ** Entries are never empty *)

Lemma quiet_entries_nonempty (w w' : Registry) :
  quiet w w' -> entries_nonempty w -> entries_nonempty w'.
Proof. intros (Hnotes & _) Hne key entry. rewrite Hnotes. apply Hne. Qed.

Lemma trigger_outcome_nonempty (noteKey : string) (w : Registry)
    (r : Result string * Registry) :
  trigger_outcome noteKey w r -> entries_nonempty w -> entries_nonempty (state_of r).
Proof.
  intros (w2 & Hquiet & Hcases) Hne.
  assert (Hne2 : entries_nonempty w2).
  { eapply quiet_entries_nonempty; [exact Hquiet|].
    eapply quiet_entries_nonempty; [apply release_existing_quiet | exact Hne]. }
  destruct Hcases as [-> | (oscillators & Hsome & ->)]; [exact Hne2|].
  intros key entry. cbn [state_of snd stored_under activeNotes set_stored set_activeNotes].
  destruct (decide (key = noteKey)) as [-> | Hother].
  - rewrite lookup_insert_eq. now intros [= <-].
  - rewrite lookup_insert_ne by congruence. apply Hne2.
Qed.

Lemma stopNoteByKey_nonempty (noteKey : string) (w : Registry) :
  entries_nonempty w -> entries_nonempty (state_of (stopNoteByKey noteKey w)).
Proof.
  intros Hne.
  destruct (activeNotes w !! noteKey) as [entry|] eqn:Hentry.
  - rewrite (stopNoteByKey_present _ entry) by eauto.
    intros key entry'. cbn [state_of snd activeNotes set_activeNotes set_stopped].
    destruct (decide (key = noteKey)) as [-> | Hother].
    + now rewrite lookup_delete_eq.
    + rewrite lookup_delete_ne by congruence. apply Hne.
  - destruct (JsObject.inherited noteKey) eqn:Hplain.
    + rewrite stopNoteByKey_inherited; [exact Hne|].
      unfold JsObject.inherits. now rewrite Hentry.
    + now rewrite stopNoteByKey_absent.
Qed.

Lemma perform_nonempty (c : RegistryCall) (w : Registry) :
  entries_nonempty w -> entries_nonempty (perform c w).
Proof.
  intros Hne. destruct c; cbn [perform].
  - eapply trigger_outcome_nonempty; [apply startNote_outcome | exact Hne].
  - eapply trigger_outcome_nonempty; [apply startChord_outcome | exact Hne].
  - now apply stopNoteByKey_nonempty.
  - unfold stopAllNotes. rewrite bind_run. unfold gets.
    apply forEach_invariant; [|exact Hne].
    intros key w'. apply stopNoteByKey_nonempty.
  - exact Hne.
  - exact Hne.
Qed.

Lemma perform_all_nonempty (calls : list RegistryCall) :
  entries_nonempty (perform_all calls initial_registry).
Proof.
  assert (Hinit : entries_nonempty initial_registry).
  { intros key entry Hentry. cbn in Hentry. rewrite lookup_empty in Hentry. discriminate. }
  revert Hinit. generalize initial_registry as w.
  induction calls as [|c calls IH]; intros w Hne; [exact Hne|].
  cbn [perform_all fold_left]. apply IH. now apply perform_nonempty.
Qed.

(** For a key that names no member of [Object.prototype] a release that
    returned has removed the entry, so that releasing the key again does
    nothing. *)
Lemma stopNoteByKey_twice (w w' : Registry) (noteKey : string) :
  JsObject.inherited noteKey = false ->
  stopNoteByKey noteKey w = (Ok tt, w') ->
  activeNotes w' !! noteKey = None /\ stopNoteByKey noteKey w' = (Ok tt, w').
Proof.
  intros Hplain Hcall.
  assert (Habsent : activeNotes w' !! noteKey = None).
  { destruct (activeNotes w !! noteKey) as [entry|] eqn:Hentry.
    - destruct entry as [|v rest].
      + rewrite stopNoteByKey_empty_entry in Hcall by assumption. discriminate.
      + rewrite (stopNoteByKey_present _ (v :: rest)) in Hcall
          by (assumption || discriminate).
        injection Hcall as <-. cbn [activeNotes set_activeNotes]. apply lookup_delete_eq.
    - rewrite stopNoteByKey_absent in Hcall by assumption.
      now injection Hcall as <-. }
  split; [exact Habsent | now apply stopNoteByKey_absent].
Qed.

(** After any sequence of calls on the loaded page a release of a key that
    names no member of [Object.prototype] returns. *)
Lemma stopNoteByKey_returns (calls : list RegistryCall) (noteKey : string) :
  JsObject.inherited noteKey = false ->
  exists w', stopNoteByKey noteKey (perform_all calls initial_registry) = (Ok tt, w').
Proof.
  intros Hplain. pose proof (perform_all_nonempty calls) as Hne.
  destruct (activeNotes (perform_all calls initial_registry) !! noteKey) as [entry|]
    eqn:Hentry.
  - eexists. apply (stopNoteByKey_present noteKey entry); eauto.
  - eexists. now apply stopNoteByKey_absent.
Qed.

(** C8 on the code: [activeNotes] is a plain object, so a key that names
    a member of [Object.prototype] passes the test
    [if (activeNotes[noteKey])] although the registry holds no entry under
    it, and the release of what the test found throws.  On the page as
    loaded the registry has no entry under ["constructor"], and
    [stopNoteByKey("constructor")] throws a TypeError where the claim
    promises a no-op; under a key such as ["keyA"] the same call is the
    no-op. *)
Theorem stopNoteByKey_inherited_key_throws :
  activeNotes initial_registry !! "constructor"%string = None /\
  stopNoteByKey "constructor" initial_registry = (Throw TypeError, initial_registry) /\
  stopNoteByKey "keyA" initial_registry = (Ok tt, initial_registry).
Proof.
  split; [reflexivity|]. split.
  - apply stopNoteByKey_inherited. reflexivity.
  - apply stopNoteByKey_absent; reflexivity.
Qed.

(** ** The gate *)

Section GateProofs.

Variable Math_sin : Q -> Q.
Variable Math_PI : Q.
Variable Math_ceil : Q -> Z.
Variable Math_random : nat -> Q.

(** *** Shuffling *)

Lemma swap_permutation {A} (a : list A) (i j : nat) : swap a i j ≡ₚ a.
Proof.
  unfold swap. destruct (a !! i) as [x|] eqn:Hi; [|reflexivity].
  destruct (a !! j) as [y|] eqn:Hj; [|reflexivity].
  now apply Permutation_insert_swap.
Qed.

(** With [Math.random] in [0, 1) the index drawn at step [i] is at most [i]. *)
Lemma random_index_in_range (r : Q) (i : nat) :
  0 <= r < 1 ->
  (Z.to_nat (Qfloor (r * inject_Z (Z.of_nat i + 1))) <= i)%nat.
Proof.
  intros [Hlo Hhi].
  assert (Hpos : 0 < inject_Z (Z.of_nat i + 1)).
  { change 0 with (inject_Z 0). rewrite <- Zlt_Qlt. lia. }
  assert (Hlt : r * inject_Z (Z.of_nat i + 1) < inject_Z (Z.of_nat i + 1)) by nra.
  assert (Hfloor : (Qfloor (r * inject_Z (Z.of_nat i + 1)) < Z.of_nat i + 1)%Z).
  { rewrite Zlt_Qlt. eapply Qle_lt_trans; [apply Qfloor_le | exact Hlt]. }
  lia.
Qed.

Lemma shuffle_from_run {A} (i : nat) (shuffled : list A) (w : Gate) :
  shuffle_from Math_random i shuffled w
  = (Ok (shuffled_from Math_random (random_calls w) i shuffled),
     set_random_calls (random_calls w + i) w).
Proof.
  revert shuffled w. induction i as [|i IH]; intros shuffled w.
  - cbn. rewrite Nat.add_0_r. now destruct w.
  - cbn [shuffle_from shuffled_from]. rewrite bind_run. unfold random at 1.
    rewrite IH. unfold set_random_calls. cbn. do 2 f_equal. lia.
Qed.

Lemma shuffled_from_permutation {A} (calls i : nat) (shuffled : list A) :
  shuffled_from Math_random calls i shuffled ≡ₚ shuffled.
Proof.
  revert calls shuffled. induction i as [|i IH]; intros calls shuffled; [reflexivity|].
  cbn [shuffled_from]. rewrite IH. apply swap_permutation.
Qed.

Lemma shuffleArray_run {A} (array : list A) (w : Gate) :
  shuffleArray Math_random array w
  = (Ok (shuffled_from Math_random (random_calls w) (length array - 1) array),
     set_random_calls (random_calls w + (length array - 1)) w).
Proof. apply shuffle_from_run. Qed.

(** C6: whatever the random numbers drawn (each in [0, 1), so that each
    index drawn at step [i] lies in 0..i), [shuffleArray] returns, without
    throwing, a permutation of its input: same elements with the same
    multiplicities, same length. *)
Theorem shuffleArray_permutation {A} (array : list A) (w : Gate) :
  (forall n, 0 <= Math_random n < 1) ->
  (forall n i, (Z.to_nat (Qfloor (Math_random n * inject_Z (Z.of_nat i + 1))) <= i)%nat)
  /\ exists shuffled w',
       shuffleArray Math_random array w = (Ok shuffled, w')
       /\ shuffled ≡ₚ array
       /\ length shuffled = length array.
Proof.
  intros Hrandom. split.
  - intros n i. apply random_index_in_range, Hrandom.
  - eexists _, _. split; [apply shuffleArray_run|].
    split; [apply shuffled_from_permutation|].
    apply Permutation_length, shuffled_from_permutation.
Qed.

(** *** The gain curve *)

Lemma clamp_range (lo hi x : Q) : lo <= hi -> lo <= Qmax lo (Qmin hi x) <= hi.
Proof.
  intros Hle. split; [apply Q.le_max_l|].
  apply Q.max_lub; [exact Hle | apply Q.le_min_l].
Qed.

(** Before it is stored, a sample lies in the range the gate ducks to. *)
Lemma gateCurveSample_gain (gateSpeed rate duckingAmount : Q) (i : nat) :
  0 <= duckingAmount <= 1 ->
  exists gain,
    1 - duckingAmount <= gain <= 1 /\
    gateCurveSample Math_sin Math_PI gateSpeed rate duckingAmount i = fround gain.
Proof.
  intros [Hlo Hhi]. unfold gateCurveSample. cbv zeta.
  match goal with
  | |- context [Qmax (-1) (Qmin 1 ?x)] =>
      pose proof (clamp_range (-1) 1 x ltac:(lra)) as Hclamp;
      set (clamped := Qmax (-1) (Qmin 1 x)) in *
  end.
  assert (Hnormalized : 0 <= (clamped + 1) / 2 <= 1)
    by (unfold Qdiv; change (/ 2) with (1 # 2); lra).
  set (normalized := (clamped + 1) / 2) in *.
  set (gainValue := (1 - duckingAmount) + duckingAmount * normalized).
  assert (Hgain : 1 - duckingAmount <= gainValue <= 1)
    by (subst gainValue; nra).
  assert (Hsame : Qmax 0 (Qmin 1 gainValue) == gainValue).
  { rewrite Q.min_r by lra. apply Q.max_r. lra. }
  eexists. split; [|reflexivity]. rewrite Hsame. exact Hgain.
Qed.

Lemma gateCurveSample_range (gateSpeed rate duckingAmount : Q) (i : nat) :
  0 <= duckingAmount <= 1 ->
  in_stored_range duckingAmount
    (gateCurveSample Math_sin Math_PI gateSpeed rate duckingAmount i).
Proof.
  intros Hduck.
  destruct (gateCurveSample_gain gateSpeed rate duckingAmount i Hduck)
    as (gain & Hgain & ->).
  destruct (fround_unit gain) as [Hunit Hnear]; [lra|].
  unfold in_stored_range. split; [exact Hunit|].
  apply Qabs_Qle_condition in Hnear. lra.
Qed.

(** Where [1 - duckingAmount] is a float32, the stored sample is not below
    it. *)
Lemma gateCurveSample_exact (gateSpeed rate duckingAmount : Q) (i : nat) :
  0 <= duckingAmount <= 1 ->
  fround (1 - duckingAmount) == 1 - duckingAmount ->
  in_gate_range duckingAmount
    (gateCurveSample Math_sin Math_PI gateSpeed rate duckingAmount i).
Proof.
  intros Hduck Hexact.
  destruct (gateCurveSample_gain gateSpeed rate duckingAmount i Hduck)
    as (gain & Hgain & ->).
  destruct (fround_unit gain) as [Hunit _]; [lra|].
  pose proof (fround_le (1 - duckingAmount) gain (proj1 Hgain)) as Hle.
  rewrite Hexact in Hle. unfold in_gate_range. lra.
Qed.

Lemma gateCurve_Forall (P : Q -> Prop) (speed rate duckingAmount : Q) (n : nat) :
  (forall i, P (gateCurveSample Math_sin Math_PI speed rate duckingAmount i)) ->
  Forall P (gateCurve Math_sin Math_PI speed rate duckingAmount n).
Proof.
  intros HP. unfold gateCurve. apply List.Forall_map.
  apply List.Forall_forall. intros i _. apply HP.
Qed.

(** *** One cycle *)

Lemma scheduleGateCycle_ok (gateSpeed : num) (duckingAmount : Q) (w w' : Gate) :
  scheduleGateCycle Math_sin Math_PI Math_ceil gateSpeed duckingAmount w = (Ok tt, w') ->
  exists speed,
    gateSpeed = Fin speed /\ 0 < speed /\
    let curve := gateCurve Math_sin Math_PI speed (sampleRate w) duckingAmount
                   (Z.to_nat (Math_ceil (speed * sampleRate w))) in
    (2 <= length curve)%nat /\
    w' = set_gateGain [SetValueCurveAtTime curve speed] w.
Proof.
  unfold scheduleGateCycle. rewrite bind_run. unfold gets at 1.
  destruct gateSpeed as [speed| |]; [| discriminate | cbn; discriminate].
  destruct (Math_ceil (speed * sampleRate w) <? 0)%Z; [discriminate|].
  rewrite bind_run. unfold cancelScheduledValues, modify at 1.
  unfold setValueCurveAtTime.
  destruct (Qle_bool speed 0) eqn:Hspeed; [discriminate|].
  destruct (length _ <? 2)%nat eqn:Hlen; [discriminate|].
  unfold modify. intros [= <-]. exists speed.
  split; [reflexivity|]. split.
  - destruct (Qlt_le_dec 0 speed) as [H|H]; [exact H|].
    apply Qle_bool_iff in H. congruence.
  - cbv zeta. split; [now apply Nat.ltb_ge in Hlen | reflexivity].
Qed.

Lemma gateCurve_length (speed rate duckingAmount : Q) (n : nat) :
  length (gateCurve Math_sin Math_PI speed rate duckingAmount n) = n.
Proof. unfold gateCurve. now rewrite length_map, length_seq. Qed.

Lemma scheduleGateCycle_run (speed duckingAmount : Q) (w : Gate) :
  0 < speed -> (2 <= Math_ceil (speed * sampleRate w))%Z ->
  scheduleGateCycle Math_sin Math_PI Math_ceil (Fin speed) duckingAmount w =
  (Ok tt,
   set_gateGain
     [SetValueCurveAtTime
        (gateCurve Math_sin Math_PI speed (sampleRate w) duckingAmount
           (Z.to_nat (Math_ceil (speed * sampleRate w)))) speed] w).
Proof.
  intros Hspeed Hlen. unfold scheduleGateCycle. rewrite bind_run. unfold gets at 1.
  destruct (Math_ceil (speed * sampleRate w) <? 0)%Z eqn:Hneg; [lia|].
  rewrite bind_run. unfold cancelScheduledValues, modify at 1.
  unfold setValueCurveAtTime.
  destruct (Qle_bool speed 0) eqn:Hle.
  { apply Qle_bool_iff in Hle. lra. }
  rewrite gateCurve_length.
  destruct (Z.to_nat _ <? 2)%nat eqn:Hshort; [apply Nat.ltb_lt in Hshort; lia|].
  reflexivity.
Qed.

Lemma schedule_cycle_ok (amount : Q) (w w' : Gate) (noteValue : NoteValue) :
  schedule_cycle Math_sin Math_PI Math_ceil amount w = (Ok noteValue, w') ->
  noteValue = element_at (gateSpeedSequence w) (gateSequenceIndex w) /\
  exists speed,
    getNoteDuration noteValue (bpm_or_default w) = Fin speed /\ 0 < speed /\
    (2 <= length (cycle_curve Math_sin Math_PI Math_ceil amount speed w))%nat /\
    w' = cycle_state Math_sin Math_PI Math_ceil amount speed w.
Proof.
  unfold schedule_cycle. rewrite bind_run. unfold gets at 1.
  rewrite bind_run. unfold gets at 1. rewrite bind_run.
  set (tok := element_at (gateSpeedSequence w) (gateSequenceIndex w)).
  destruct (scheduleGateCycle _ _ _ _ _ w) as [[[]|e] w2] eqn:Hcycle; [|discriminate].
  apply scheduleGateCycle_ok in Hcycle as (speed & Hspeed & Hpos & Hlen & ->).
  rewrite Hspeed. intros H.
  assert (Hboth : noteValue = tok /\ w' = cycle_state Math_sin Math_PI Math_ceil amount speed w).
  { unfold cycle_state, reported_index, cycle_curve. subst tok.
    destruct w as [? ? ? ? [] ? ? ? ? ? ? ? ? ? ?];
      cbn in H |- *; injection H as <- <-; split; reflexivity. }
  destruct Hboth as [-> ->]. split; [reflexivity|]. exists speed. auto.
Qed.

Lemma schedule_cycle_run (amount speed : Q) (w : Gate) :
  let noteValue := element_at (gateSpeedSequence w) (gateSequenceIndex w) in
  getNoteDuration noteValue (bpm_or_default w) = Fin speed ->
  0 < speed -> (2 <= Math_ceil (speed * sampleRate w))%Z ->
  schedule_cycle Math_sin Math_PI Math_ceil amount w
  = (Ok noteValue, cycle_state Math_sin Math_PI Math_ceil amount speed w).
Proof.
  intros noteValue Hspeed Hpos Hlen.
  unfold schedule_cycle. rewrite bind_run. unfold gets at 1.
  rewrite bind_run. unfold gets at 1. rewrite bind_run.
  fold noteValue. rewrite Hspeed, scheduleGateCycle_run by assumption.
  unfold cycle_state, reported_index, cycle_curve. subst noteValue.
  destruct w as [? ? ? ? [] ? ? ? ? ? ? ? ? ? ?]; reflexivity.
Qed.

(** *** Random mode *)

Lemma reshuffle_if_random_on (w : Gate) :
  gateRandomEnabled w = true -> gateBaseSequence w <> [] ->
  reshuffle_if_random Math_random w = (Ok tt, reshuffled Math_random w).
Proof.
  intros Hrandom Hbase.
  unfold reshuffle_if_random. rewrite bind_run. unfold gets at 1.
  rewrite bind_run. unfold gets at 1. rewrite Hrandom.
  destruct (gateBaseSequence w) as [|x base] eqn:Hb; [congruence|].
  cbn [length Nat.ltb Nat.leb andb]. rewrite bind_run, shuffleArray_run.
  unfold reshuffled. now rewrite Hb.
Qed.

Lemma reshuffle_if_random_off (w : Gate) :
  gateRandomEnabled w = false \/ gateBaseSequence w = [] ->
  reshuffle_if_random Math_random w = (Ok tt, w).
Proof.
  intros Hoff. unfold reshuffle_if_random. rewrite bind_run. unfold gets at 1.
  rewrite bind_run. unfold gets at 1.
  destruct Hoff as [-> | ->]; [reflexivity|]. now rewrite andb_false_r.
Qed.

Lemma reshuffled_cursor (cursor : nat) (w : Gate) :
  reshuffled Math_random (set_gateSequenceIndex cursor w) = reshuffled Math_random w.
Proof. reflexivity. Qed.

Lemma scheduleNextGateCycle_off (w : Gate) :
  gateAmount w == 0 \/ gateSpeedSequence w = [] ->
  scheduleNextGateCycle Math_sin Math_PI Math_ceil Math_random w = (Ok None, w).
Proof.
  intros Hoff. unfold scheduleNextGateCycle. rewrite bind_run. unfold gets at 1.
  rewrite bind_run. unfold gets at 1.
  destruct Hoff as [Hzero | ->].
  - apply Qeq_bool_iff in Hzero. now rewrite Hzero.
  - now rewrite orb_true_r.
Qed.

Lemma scheduleNextGateCycle_on (w : Gate) :
  ~ gateAmount w == 0 -> gateSpeedSequence w <> [] ->
  scheduleNextGateCycle Math_sin Math_PI Math_ceil Math_random w =
  (reshuffle_if_random Math_random ≫= fun _ =>
   noteValue ← schedule_cycle Math_sin Math_PI Math_ceil (gateAmount w);
   mret (Some noteValue)) w.
Proof.
  intros Hamount Hsequence. unfold scheduleNextGateCycle at 1.
  rewrite bind_run. unfold gets at 1. rewrite bind_run. unfold gets at 1.
  destruct (Qeq_bool (gateAmount w) 0) eqn:Hzero.
  { apply Qeq_bool_iff in Hzero. contradiction. }
  destruct (gateSpeedSequence w); [congruence | reflexivity].
Qed.

Lemma scheduleNextGateCycle_cases (w : Gate) :
  (gateAmount w == 0 \/ gateSpeedSequence w = []) \/
  (~ gateAmount w == 0 /\ gateSpeedSequence w <> []).
Proof.
  destruct (Qeq_dec (gateAmount w) 0); [now left; left|].
  destruct (gateSpeedSequence w); [now left; right|].
  right. split; [assumption | discriminate].
Qed.

Lemma cycle_state_sequence (amount speed : Q) (w : Gate) :
  gateSpeedSequence (cycle_state Math_sin Math_PI Math_ceil amount speed w) = gateSpeedSequence w.
Proof.
  unfold cycle_state, notified. cbn.
  now destruct (hasPlayingIndexCallback w).
Qed.

Lemma permutation_head {A} (l l' : list A) (d : A) :
  l' ≡ₚ l -> l <> [] -> l' !! 0%nat = Some (default d (l' !! 0%nat)).
Proof.
  intros Hperm Hne. destruct l' as [|x l'']; [|reflexivity].
  apply Permutation_nil_l in Hperm. congruence.
Qed.

(** C4, as the code has it: for a cycle duration above 0 and a duck
    amount in [0, 1] every sample of the curve of a gate cycle, as the
    [Float32Array] holds it, lies in [0, 1] and is below [1 - duckingAmount]
    by 2^-24 at most, whatever values the sine takes; for the duck amounts
    0, 0.5 and 1.0 it lies in [1 - duckingAmount, 1] and in [0, 1].  This
    is the curve [scheduleGateCycle] hands to the gain, which it does
    whenever the cycle spans at least two samples. *)
Theorem gate_curve_in_range (speed rate duckingAmount : Q) :
  0 < speed -> 0 <= duckingAmount <= 1 ->
  (forall curveLength,
      Forall (in_stored_range duckingAmount)
             (gateCurve Math_sin Math_PI speed rate duckingAmount curveLength))
  /\
  (duckingAmount == 0 \/ duckingAmount == 1 # 2 \/ duckingAmount == 1 ->
   forall curveLength,
      Forall (in_gate_range duckingAmount)
             (gateCurve Math_sin Math_PI speed rate duckingAmount curveLength))
  /\
  (forall w w',
      scheduleGateCycle Math_sin Math_PI Math_ceil (Fin speed) duckingAmount w = (Ok tt, w') ->
      exists curve,
        gateGain w' = [SetValueCurveAtTime curve speed] /\
        curve = gateCurve Math_sin Math_PI speed (sampleRate w) duckingAmount (length curve) /\
        (2 <= length curve)%nat /\
        Forall (in_stored_range duckingAmount) curve)
  /\
  (forall w,
      (2 <= Math_ceil (speed * sampleRate w))%Z ->
      exists w', scheduleGateCycle Math_sin Math_PI Math_ceil (Fin speed) duckingAmount w = (Ok tt, w')).
Proof.
  intros Hspeed Hduck.
  assert (Hcurve : forall rate' curveLength,
    Forall (in_stored_range duckingAmount)
           (gateCurve Math_sin Math_PI speed rate' duckingAmount curveLength)).
  { intros rate' curveLength. apply gateCurve_Forall.
    intros i. now apply gateCurveSample_range. }
  split; [apply Hcurve|]. split; [|split].
  - intros Hexact curveLength. apply gateCurve_Forall. intros i.
    apply gateCurveSample_exact; [exact Hduck|].
    assert (Hfloat : exists c, 1 - duckingAmount == c /\ fround c == c).
    { destruct Hexact as [H | [H | H]];
        [exists 1 | exists (1 # 2) | exists 0]; (split; [lra | vm_compute; reflexivity]). }
    destruct Hfloat as (c & Hc & Hfloat).
    now rewrite (fround_comp _ _ Hc), Hc.
  - intros w w' Hcycle.
    apply scheduleGateCycle_ok in Hcycle as (speed' & [= <-] & _ & Hlen & ->).
    eexists. split; [reflexivity|]. rewrite gateCurve_length.
    split; [reflexivity|]. split; [now rewrite gateCurve_length in Hlen | apply Hcurve].
  - intros w Hlen. eexists. now apply scheduleGateCycle_run.
Qed.

(** *** Disabling the gate *)

Lemma startGateLoop_cleared (w : Gate) :
  startGateLoop Math_sin Math_PI Math_ceil Math_random w =
  (amount ← gets gateAmount;
   sequence ← gets gateSpeedSequence;
   if Qeq_bool amount 0 then
     cancelScheduledValues ≫= fun _ =>
     setValueAtTime 1 ≫= fun _ =>
     notifyPlayingIndex (-1)
   else if (length sequence =? 0)%nat then
     cancelScheduledValues ≫= fun _ =>
     setValueAtTime 1 ≫= fun _ =>
     notifyPlayingIndex (-1)
   else
     modify (set_gateSequenceIndex 0) ≫= fun _ =>
     notifyPlayingIndex 0 ≫= fun _ =>
     scheduleNextGateCycle Math_sin Math_PI Math_ceil Math_random ≫= fun _ => mret tt)
    (timers_cleared w).
Proof.
  unfold startGateLoop at 1, timers_cleared.
  rewrite bind_run. unfold modify at 1. rewrite bind_run. unfold gets at 1.
  cbn [gateTimeout set_gateInterval]. rewrite bind_run.
  destruct (gateTimeout w) as [id|]; reflexivity.
Qed.

Lemma startGateLoop_off (w : Gate) :
  gateAmount w == 0 \/ gateSpeedSequence w = [] ->
  startGateLoop Math_sin Math_PI Math_ceil Math_random w = (Ok tt, gate_off_state w).
Proof.
  intros Hoff. rewrite startGateLoop_cleared.
  rewrite bind_run. unfold gets at 1. rewrite bind_run. unfold gets at 1.
  assert (Hamount : gateAmount (timers_cleared w) = gateAmount w)
    by (unfold timers_cleared; now destruct (gateTimeout w)).
  assert (Hsequence : gateSpeedSequence (timers_cleared w) = gateSpeedSequence w)
    by (unfold timers_cleared; now destruct (gateTimeout w)).
  rewrite Hamount, Hsequence. unfold gate_off_state.
  destruct (Qeq_bool (gateAmount w) 0) eqn:Hzero; [reflexivity|].
  destruct Hoff as [Hoff | ->]; [|reflexivity].
  apply Qeq_bool_iff in Hoff. congruence.
Qed.

Lemma gate_off_state_fields (w : Gate) :
  let w' := gate_off_state w in
  gateGain w' = [SetValueAtTime 1] /\ gateTimeout w' = None /\
  gateAmount w' = gateAmount w /\ gateSpeedSequence w' = gateSpeedSequence w /\
  gateBaseSequence w' = gateBaseSequence w /\
  (forall id, gateTimeout w = Some id -> timers w' !! id = None) /\
  (timers_tracked w -> timers w' = ∅).
Proof.
  unfold gate_off_state, notified, timers_cleared, timers_tracked.
  destruct (gateTimeout w) as [id|] eqn:Htimeout;
    cbn [hasPlayingIndexCallback set_gateGain set_gateTimeout set_timers set_gateInterval];
    destruct (hasPlayingIndexCallback w); cbn; repeat split; try congruence.
  all: try (intros id' [= <-]; apply lookup_delete_eq).
  all: intros Htracked; apply map_eq; intros id'; rewrite lookup_empty.
  all: try (destruct (decide (id' = id)) as [-> | Hne];
            [apply lookup_delete_eq | rewrite lookup_delete_ne by congruence]).
  all: destruct (timers w !! id') eqn:Hpending; [|reflexivity].
  all: specialize (Htracked id' (ex_intro _ _ Hpending)); congruence.
Qed.

Lemma fire_timer_off (id : nat) (w : Gate) :
  gateAmount w == 0 ->
  only_timers_changed w (state_of (fire_timer Math_sin Math_PI Math_ceil Math_random id w)).
Proof.
  intros Hoff. unfold fire_timer. rewrite bind_run. unfold gets at 1.
  destruct (timers w !! id) eqn:Hpending.
  - rewrite bind_run. unfold clearTimeout, modify at 1.
    rewrite bind_run, scheduleNextGateCycle_off by now left.
    cbn. repeat split. apply delete_subseteq.
  - cbn. repeat split; reflexivity.
Qed.

Lemma fire_all_off (ids : list nat) (w : Gate) :
  gateAmount w == 0 ->
  only_timers_changed w (fire_all Math_sin Math_PI Math_ceil Math_random ids w).
Proof.
  revert w. induction ids as [|id ids IH]; intros w Hoff; [repeat split; reflexivity|].
  cbn [fire_all fold_left].
  pose proof (fire_timer_off id w Hoff) as (Ha & Hg & Ht & Hn & Hs & Hsub).
  destruct (IH (state_of (fire_timer Math_sin Math_PI Math_ceil Math_random id w)))
    as (Ha' & Hg' & Ht' & Hn' & Hs' & Hsub'); [now rewrite Ha|].
  unfold fire_all in *. repeat split; try congruence.
  etrans; eassumption.
Qed.

(** *** Settings are kept *)

Lemma same_settings_refl (w : Gate) : same_settings w w.
Proof. repeat split. Qed.

Lemma same_settings_trans (w1 w2 w3 : Gate) :
  same_settings w1 w2 -> same_settings w2 w3 -> same_settings w1 w3.
Proof.
  intros (? & ? & ? & ? & ?) (? & ? & ? & ? & ?). repeat split; congruence.
Qed.

Lemma cycle_state_settings (amount speed : Q) (w : Gate) :
  same_settings w (cycle_state Math_sin Math_PI Math_ceil amount speed w).
Proof.
  unfold cycle_state, notified. cbn.
  destruct (hasPlayingIndexCallback w); repeat split.
Qed.

(** A cycle that throws has at most cancelled the automation. *)
Lemma schedule_cycle_throw (amount : Q) (w w' : Gate) (e : JsError) :
  schedule_cycle Math_sin Math_PI Math_ceil amount w = (Throw e, w') ->
  exists events, w' = set_gateGain events w.
Proof.
  unfold schedule_cycle. rewrite bind_run. unfold gets at 1.
  rewrite bind_run. unfold gets at 1. rewrite bind_run.
  destruct (scheduleGateCycle _ _ _ _ _ w) as [[[]|e'] w2] eqn:Hgate.
  - apply scheduleGateCycle_ok in Hgate as (speed & _ & _ & _ & ->).
    destruct w as [? ? ? ? [] ? ? ? ? ? ? ? ? ? ?]; cbn; discriminate.
  - intros [= _ <-]. revert Hgate. unfold scheduleGateCycle.
    rewrite bind_run. unfold gets at 1.
    assert (Hself : w = set_gateGain (gateGain w) w) by now destruct w.
    destruct (getNoteDuration _ _) as [speed| |].
    + destruct (_ <? 0)%Z; [intros [= _ <-]; eauto|].
      rewrite bind_run. unfold cancelScheduledValues, modify at 1.
      unfold setValueCurveAtTime.
      destruct (Qle_bool speed 0); [intros [= _ <-]; eauto|].
      destruct (_ <? 2)%nat; [intros [= _ <-]; eauto | discriminate].
    + intros [= _ <-]. eauto.
    + rewrite bind_run. intros [= _ <-]. eauto.
Qed.

Lemma schedule_cycle_settings (amount : Q) (w : Gate) :
  same_settings w (state_of (schedule_cycle Math_sin Math_PI Math_ceil amount w)).
Proof.
  destruct (schedule_cycle Math_sin Math_PI Math_ceil amount w) as [[noteValue|e] w'] eqn:Hcycle.
  - apply schedule_cycle_ok in Hcycle as (_ & speed & _ & _ & _ & ->).
    apply cycle_state_settings.
  - apply schedule_cycle_throw in Hcycle as (events & ->). repeat split.
Qed.

Lemma reshuffle_if_random_settings (w : Gate) :
  exists w1, reshuffle_if_random Math_random w = (Ok tt, w1) /\ same_settings w w1.
Proof.
  destruct (gateRandomEnabled w) eqn:Hrandom.
  - destruct (gateBaseSequence w) as [|x base] eqn:Hbase.
    + exists w. split; [now apply reshuffle_if_random_off; right | apply same_settings_refl].
    + eexists. split; [apply reshuffle_if_random_on; congruence | repeat split].
  - exists w. split; [now apply reshuffle_if_random_off; left | apply same_settings_refl].
Qed.

Lemma scheduleNextGateCycle_settings (w : Gate) :
  same_settings w (state_of (scheduleNextGateCycle Math_sin Math_PI Math_ceil Math_random w)).
Proof.
  destruct (scheduleNextGateCycle_cases w) as [Hoff | [Hamount Hsequence]].
  - rewrite scheduleNextGateCycle_off by assumption. apply same_settings_refl.
  - rewrite scheduleNextGateCycle_on by assumption. rewrite bind_run.
    destruct (reshuffle_if_random_settings w) as (w1 & -> & Hsame).
    rewrite bind_run.
    pose proof (schedule_cycle_settings (gateAmount w) w1) as Hcycle.
    destruct (schedule_cycle _ _ _ _ w1) as [[noteValue|e] w2]; cbn [state_of snd] in *;
      now apply (same_settings_trans _ w1).
Qed.

Lemma timers_cleared_settings (w : Gate) : same_settings w (timers_cleared w).
Proof. unfold timers_cleared. destruct (gateTimeout w); repeat split. Qed.

Lemma startGateLoop_settings (w : Gate) :
  same_settings w (state_of (startGateLoop Math_sin Math_PI Math_ceil Math_random w)).
Proof.
  destruct (scheduleNextGateCycle_cases w) as [Hoff | [Hamount Hsequence]].
  - rewrite startGateLoop_off by assumption.
    unfold gate_off_state, notified. cbn [state_of snd].
    pose proof (timers_cleared_settings w) as (? & ? & ? & ? & ?).
    destruct (hasPlayingIndexCallback _); repeat split; assumption.
  - rewrite startGateLoop_cleared.
    pose proof (timers_cleared_settings w) as Hcleared.
    set (w0 := timers_cleared w) in *.
    assert (Hseq : gateSpeedSequence w0 = gateSpeedSequence w)
      by (subst w0; unfold timers_cleared; now destruct (gateTimeout w)).
    rewrite bind_run. unfold gets at 1. rewrite bind_run. unfold gets at 1.
    destruct Hcleared as (Ha & Hrest). rewrite Ha, Hseq.
    destruct (Qeq_bool (gateAmount w) 0) eqn:Hzero.
    { apply Qeq_bool_iff in Hzero. contradiction. }
    destruct (gateSpeedSequence w) as [|x s]; [congruence|].
    cbn [length Nat.eqb]. rewrite bind_run. unfold modify at 1.
    rewrite bind_run. unfold notifyPlayingIndex, modify at 1. rewrite bind_run.
    match goal with
    | |- context [scheduleNextGateCycle _ _ _ _ ?w1] =>
        pose proof (scheduleNextGateCycle_settings w1) as Hnext;
        destruct (scheduleNextGateCycle Math_sin Math_PI Math_ceil Math_random w1) as [[r|e] w2];
        cbn [state_of snd] in *;
        (eapply same_settings_trans; [|exact Hnext])
    end.
    all: unfold notified; cbn;
      destruct (hasPlayingIndexCallback w0); repeat split; tauto.
Qed.

(** *** Timers *)

Lemma cycle_state_timers (amount speed : Q) (w : Gate) :
  let w' := cycle_state Math_sin Math_PI Math_ceil amount speed w in
  gateTimeout w' = Some (next_timer w) /\
  timers w' = <[next_timer w := speed * 1000]> (timers w) /\
  next_timer w' = S (next_timer w) /\
  gateGain w' = [SetValueCurveAtTime (cycle_curve Math_sin Math_PI Math_ceil amount speed w) speed].
Proof.
  unfold cycle_state, notified. cbn.
  destruct (hasPlayingIndexCallback w); repeat split.
Qed.

Lemma scheduleNextGateCycle_tracked (w : Gate) :
  timers w = ∅ ->
  timers_tracked (state_of (scheduleNextGateCycle Math_sin Math_PI Math_ceil Math_random w)).
Proof.
  intros Hempty.
  assert (Hnone : forall w', timers w' = ∅ -> timers_tracked w').
  { intros w' Hw' id [delay Hid]. rewrite Hw', lookup_empty in Hid. discriminate. }
  destruct (scheduleNextGateCycle_cases w) as [Hoff | [Hamount Hsequence]].
  - rewrite scheduleNextGateCycle_off by assumption. now apply Hnone.
  - rewrite scheduleNextGateCycle_on by assumption. rewrite bind_run.
    assert (Hshuffle : exists w1,
      reshuffle_if_random Math_random w = (Ok tt, w1) /\ timers w1 = ∅).
    { destruct (gateRandomEnabled w) eqn:Hrandom.
      - destruct (gateBaseSequence w) as [|x base] eqn:Hbase.
        + exists w. split; [now apply reshuffle_if_random_off; right | exact Hempty].
        + eexists. split; [apply reshuffle_if_random_on; congruence | exact Hempty].
      - exists w. split; [now apply reshuffle_if_random_off; left | exact Hempty]. }
    destruct Hshuffle as (w1 & -> & Hempty1). rewrite bind_run.
    destruct (schedule_cycle _ _ _ _ w1) as [[noteValue|e] w2] eqn:Hcycle;
      unfold mret, M_ret; cbn [state_of snd].
    + apply schedule_cycle_ok in Hcycle as (_ & speed & _ & _ & _ & ->).
      destruct (cycle_state_timers (gateAmount w) speed w1) as (Htimeout & Htimers & _).
      intros id [delay Hid]. rewrite Htimers, Hempty1 in Hid. rewrite Htimeout.
      destruct (decide (id = next_timer w1)) as [-> | Hne]; [reflexivity|].
      rewrite lookup_insert_ne, lookup_empty in Hid by congruence. discriminate.
    + apply schedule_cycle_throw in Hcycle as (events & ->). now apply Hnone.
Qed.

Lemma timers_cleared_empty (w : Gate) :
  timers_tracked w -> timers (timers_cleared w) = ∅ /\ gateTimeout (timers_cleared w) = None.
Proof.
  intros Htracked.
  destruct (gate_off_state_fields w) as (_ & Htimeout & _ & _ & _ & _ & Hempty).
  specialize (Hempty Htracked). revert Htimeout Hempty.
  unfold gate_off_state, notified. cbn.
  destruct (hasPlayingIndexCallback _); cbn; auto.
Qed.

Lemma startGateLoop_on (w : Gate) :
  ~ gateAmount w == 0 -> gateSpeedSequence w <> [] ->
  startGateLoop Math_sin Math_PI Math_ceil Math_random w =
  (scheduleNextGateCycle Math_sin Math_PI Math_ceil Math_random ≫= fun _ => mret tt)
    (notified 0 (set_gateSequenceIndex 0 (timers_cleared w))).
Proof.
  intros Hamount Hsequence. rewrite startGateLoop_cleared.
  rewrite bind_run. unfold gets at 1. rewrite bind_run. unfold gets at 1.
  assert (Ha : gateAmount (timers_cleared w) = gateAmount w)
    by (unfold timers_cleared; now destruct (gateTimeout w)).
  assert (Hs : gateSpeedSequence (timers_cleared w) = gateSpeedSequence w)
    by (unfold timers_cleared; now destruct (gateTimeout w)).
  rewrite Ha, Hs.
  destruct (Qeq_bool (gateAmount w) 0) eqn:Hzero.
  { apply Qeq_bool_iff in Hzero. contradiction. }
  destruct (gateSpeedSequence w) as [|x s]; [congruence|].
  reflexivity.
Qed.

Lemma startGateLoop_tracked (w : Gate) :
  timers_tracked w ->
  timers_tracked (state_of (startGateLoop Math_sin Math_PI Math_ceil Math_random w)).
Proof.
  intros Htracked.
  destruct (timers_cleared_empty w Htracked) as (Hempty & Htimeout).
  destruct (scheduleNextGateCycle_cases w) as [Hoff | [Hamount Hsequence]].
  - rewrite startGateLoop_off by assumption. cbn [state_of snd].
    destruct (gate_off_state_fields w) as (_ & _ & _ & _ & _ & _ & Hnone).
    intros id [delay Hid]. rewrite (Hnone Htracked), lookup_empty in Hid. discriminate.
  - rewrite startGateLoop_on by assumption. rewrite bind_run.
    match goal with
    | |- context [scheduleNextGateCycle _ _ _ _ ?w1] =>
        assert (Hempty1 : timers w1 = ∅)
          by (unfold notified; cbn; now destruct (hasPlayingIndexCallback _));
        pose proof (scheduleNextGateCycle_tracked w1 Hempty1) as Hnext;
        destruct (scheduleNextGateCycle Math_sin Math_PI Math_ceil Math_random w1) as [[r|e] w2]
    end; exact Hnext.
Qed.

Lemma updateGateAmount_run (amount : Q) (w : Gate) :
  updateGateAmount Math_sin Math_PI Math_ceil Math_random amount w
  = startGateLoop Math_sin Math_PI Math_ceil Math_random (set_gateAmount amount w).
Proof. reflexivity. Qed.

Lemma updateGateSpeedSequence_run (sequence : option (list NoteValue))
    (randomEnabled : bool) (w : Gate) :
  updateGateSpeedSequence Math_sin Math_PI Math_ceil Math_random sequence randomEnabled w
  = startGateLoop Math_sin Math_PI Math_ceil Math_random
      (sequence_installed Math_random sequence randomEnabled w).
Proof.
  unfold updateGateSpeedSequence, sequence_installed.
  rewrite bind_run. unfold modify at 1. rewrite bind_run. unfold modify at 1.
  rewrite bind_run. destruct randomEnabled.
  - rewrite bind_run, shuffleArray_run. unfold modify at 1.
    rewrite bind_run. unfold modify at 1. reflexivity.
  - unfold modify at 1. rewrite bind_run. unfold modify at 1. reflexivity.
Qed.

Lemma fire_timer_tracked (id : nat) (w : Gate) :
  timers_tracked w ->
  timers_tracked (state_of (fire_timer Math_sin Math_PI Math_ceil Math_random id w)).
Proof.
  intros Htracked. unfold fire_timer. rewrite bind_run. unfold gets at 1.
  destruct (timers w !! id) as [delay|] eqn:Hpending; [|exact Htracked].
  rewrite bind_run. unfold clearTimeout, modify at 1. rewrite bind_run.
  match goal with
  | |- context [scheduleNextGateCycle _ _ _ _ ?w1] =>
      assert (Hempty : timers w1 = ∅);
      [| pose proof (scheduleNextGateCycle_tracked w1 Hempty) as Hnext;
         destruct (scheduleNextGateCycle Math_sin Math_PI Math_ceil Math_random w1) as [[r|e] w2];
         exact Hnext ]
  end.
  cbn. apply map_eq. intros id'. rewrite lookup_empty.
  destruct (decide (id' = id)) as [-> | Hne]; [apply lookup_delete_eq|].
  rewrite lookup_delete_ne by congruence.
  destruct (timers w !! id') eqn:Hother; [|reflexivity].
  pose proof (Htracked id (ex_intro _ _ Hpending)) as H1.
  pose proof (Htracked id' (ex_intro _ _ Hother)) as H2. congruence.
Qed.

Lemma gate_perform_tracked (c : GateCall) (w : Gate) :
  timers_tracked w -> timers_tracked (gate_perform Math_sin Math_PI Math_ceil Math_random c w).
Proof.
  intros Htracked. destruct c as [amount | sequence randomEnabled | bpm | id];
    cbn [gate_perform].
  - rewrite updateGateAmount_run. now apply startGateLoop_tracked.
  - rewrite updateGateSpeedSequence_run. apply startGateLoop_tracked.
    unfold sequence_installed. destruct randomEnabled; exact Htracked.
  - exact Htracked.
  - now apply fire_timer_tracked.
Qed.

(** Every pending timer of a running page is the one [gateTimeout] names. *)
Lemma reachable_timers_tracked (calls : list GateCall) (rate : Q) :
  timers_tracked (gate_perform_all Math_sin Math_PI Math_ceil Math_random calls (initial_gate rate)).
Proof.
  assert (Hinit : timers_tracked (initial_gate rate)).
  { intros id [delay Hid]. cbn in Hid. rewrite lookup_empty in Hid. discriminate. }
  revert Hinit. generalize (initial_gate rate) as w.
  induction calls as [|c calls IH]; intros w Hw; [exact Hw|].
  cbn [gate_perform_all fold_left]. apply IH. now apply gate_perform_tracked.
Qed.

(** *** Random mode, cycle by cycle *)

Lemma reshuffled_fields (w : Gate) :
  let w1 := reshuffled Math_random w in
  gateSequenceIndex w1 = 0%nat /\ bpm_or_default w1 = bpm_or_default w /\
  sampleRate w1 = sampleRate w /\ next_timer w1 = next_timer w /\
  timers w1 = timers w /\ same_settings w w1.
Proof. repeat split. Qed.

(** C9: with random mode on and a non-empty base sequence, a call of
    [scheduleNextGateCycle] that returns has either left at once, the gate
    being off, or scheduled a cycle on the first element of a fresh shuffle
    of the base sequence, which has become the working sequence: the
    duration of that token is the duration of the gain curve and, in
    milliseconds, the delay of the timer of the next cycle, and random
    mode and the base sequence are as before.  The cursor the call finds
    changes neither the token nor, when the gate is on, anything else; and
    the call does schedule the cycle when the gate is on and the token has
    a usable duration. *)
Theorem random_mode_uses_first_of_fresh_shuffle (w : Gate) :
  gateRandomEnabled w = true -> gateBaseSequence w <> [] ->
  exists fresh w0,
    shuffleArray Math_random (gateBaseSequence w) w = (Ok fresh, w0) /\
    fresh ≡ₚ gateBaseSequence w /\
    (forall r w',
        scheduleNextGateCycle Math_sin Math_PI Math_ceil Math_random w = (Ok r, w') ->
        (r = None /\ w' = w /\ (gateAmount w == 0 \/ gateSpeedSequence w = [])) \/
        (exists noteValue speed,
            r = Some noteValue /\
            ~ gateAmount w == 0 /\ gateSpeedSequence w <> [] /\
            fresh !! 0%nat = Some noteValue /\
            getNoteDuration noteValue (bpm_or_default w) = Fin speed /\
            gateSpeedSequence w' = fresh /\
            gateGain w' =
              [SetValueCurveAtTime
                 (gateCurve Math_sin Math_PI speed (sampleRate w) (gateAmount w / 100)
                    (Z.to_nat (Math_ceil (speed * sampleRate w)))) speed] /\
            gateTimeout w' = Some (next_timer w) /\
            timers w' = <[next_timer w := speed * 1000]> (timers w) /\
            same_settings w w')) /\
    (forall cursor,
        result_of (scheduleNextGateCycle Math_sin Math_PI Math_ceil Math_random
                     (set_gateSequenceIndex cursor w))
        = result_of (scheduleNextGateCycle Math_sin Math_PI Math_ceil Math_random w) /\
        (~ gateAmount w == 0 -> gateSpeedSequence w <> [] ->
         scheduleNextGateCycle Math_sin Math_PI Math_ceil Math_random (set_gateSequenceIndex cursor w)
         = scheduleNextGateCycle Math_sin Math_PI Math_ceil Math_random w)) /\
    (forall noteValue speed,
        ~ gateAmount w == 0 -> gateSpeedSequence w <> [] ->
        fresh !! 0%nat = Some noteValue ->
        getNoteDuration noteValue (bpm_or_default w) = Fin speed ->
        0 < speed -> (2 <= Math_ceil (speed * sampleRate w))%Z ->
        exists w',
          scheduleNextGateCycle Math_sin Math_PI Math_ceil Math_random w = (Ok (Some noteValue), w')).
Proof.
  intros Hrandom Hbase. eexists _, _. split; [apply shuffleArray_run|].
  set (fresh := shuffled_from Math_random (random_calls w)
                  (length (gateBaseSequence w) - 1) (gateBaseSequence w)).
  assert (Hperm : fresh ≡ₚ gateBaseSequence w) by apply shuffled_from_permutation.
  assert (Hhead : fresh !! 0%nat = Some (element_at fresh 0))
    by (apply (permutation_head (gateBaseSequence w)); assumption).
  assert (Hon : forall cursor,
    ~ gateAmount w == 0 -> gateSpeedSequence w <> [] ->
    scheduleNextGateCycle Math_sin Math_PI Math_ceil Math_random (set_gateSequenceIndex cursor w)
    = (noteValue ← schedule_cycle Math_sin Math_PI Math_ceil (gateAmount w);
       mret (Some noteValue)) (reshuffled Math_random w)).
  { intros cursor Hamount Hsequence.
    rewrite scheduleNextGateCycle_on by assumption.
    rewrite bind_run, reshuffle_if_random_on by assumption.
    reflexivity. }
  assert (Hself : set_gateSequenceIndex (gateSequenceIndex w) w = w) by now destruct w.
  split; [exact Hperm|]. split; [|split].
  - intros r w' Hcall.
    destruct (scheduleNextGateCycle_cases w) as [Hoff | [Hamount Hsequence]].
    { rewrite scheduleNextGateCycle_off in Hcall by assumption.
      injection Hcall as <- <-. now left. }
    right. rewrite <- Hself, Hon, bind_run in Hcall by assumption.
    destruct (schedule_cycle _ _ _ _ _) as [[tok|e] w1] eqn:Hcycle; [|discriminate].
    injection Hcall as <- <-.
    apply schedule_cycle_ok in Hcycle as (-> & speed & Hspeed & _ & _ & ->).
    destruct (reshuffled_fields w) as (Hcursor & Hbpm & Hrate & Hnext & Htimers & Hsame).
    destruct (cycle_state_timers (gateAmount w) speed (reshuffled Math_random w))
      as (Htimeout & Hpending & _ & Hgain).
    exists (element_at fresh 0), speed.
    split; [reflexivity|]. split; [exact Hamount|]. split; [exact Hsequence|].
    split; [exact Hhead|]. split; [exact Hspeed|].
    split; [apply cycle_state_sequence|]. split; [exact Hgain|].
    split; [exact Htimeout|]. split; [exact Hpending|].
    eapply same_settings_trans; [exact Hsame | apply cycle_state_settings].
  - intros cursor.
    destruct (scheduleNextGateCycle_cases w) as [Hoff | [Hamount Hsequence]].
    + split; [|intros Hamount Hsequence; destruct Hoff; contradiction].
      now rewrite !scheduleNextGateCycle_off.
    + assert (Hsame :
        scheduleNextGateCycle Math_sin Math_PI Math_ceil Math_random (set_gateSequenceIndex cursor w)
        = scheduleNextGateCycle Math_sin Math_PI Math_ceil Math_random w).
      { rewrite <- Hself at 2. now rewrite !Hon. }
      split; [now rewrite Hsame | intros _ _; exact Hsame].
  - intros noteValue speed Hamount Hsequence Hfirst Hspeed Hpos Hlen.
    rewrite <- Hself, Hon, bind_run by assumption.
    rewrite Hfirst in Hhead. injection Hhead as Hhead.
    rewrite (schedule_cycle_run _ speed); [| | assumption..].
    + cbn [reshuffled gateSpeedSequence gateSequenceIndex set_gateSequenceIndex
           set_gateSpeedSequence]. fold fresh. rewrite <- Hhead. eauto.
    + cbn [reshuffled gateSpeedSequence gateSequenceIndex set_gateSequenceIndex
           set_gateSpeedSequence]. fold fresh. rewrite <- Hhead. exact Hspeed.
Qed.

(** *** An empty sequence *)

Lemma quarter_note_duration (b : Q) :
  0 < b -> getNoteDuration (NVStr "4") (Fin b) = Fin (60 / b / 4).
Proof.
  intros Hb. change "4"%string with (numeral [4%nat]).
  rewrite getNoteDuration_plain by (discriminate || (repeat constructor; lia)).
  now rewrite beat_duration.
Qed.

(** With a non-zero amount, [updateGateSpeedSequence([])] restarts the gate
    on the default sequence. *)
Lemma updateGateSpeedSequence_empty_restarts (w : Gate) (randomEnabled : bool) (b : Q) :
  ~ gateAmount w == 0 -> bpm_or_default w = Fin b -> 0 < b ->
  (2 <= Math_ceil (60 / b / 4 * sampleRate w))%Z ->
  let r := updateGateSpeedSequence Math_sin Math_PI Math_ceil Math_random (Some []) randomEnabled w in
  result_of r = Ok tt /\
  gateTimeout (state_of r) = Some (next_timer w) /\
  timers (state_of r) !! next_timer w = Some (60 / b / 4 * 1000) /\
  exists curve,
    gateGain (state_of r) = [SetValueCurveAtTime curve (60 / b / 4)] /\
    length curve = Z.to_nat (Math_ceil (60 / b / 4 * sampleRate w)).
Proof.
  intros Hamount Hbpm Hb Hlen r. subst r.
  rewrite updateGateSpeedSequence_run.
  set (w0 := sequence_installed Math_random (Some []) randomEnabled w).
  assert (Hfields : gateAmount w0 = gateAmount w /\ gateSpeedSequence w0 = [NVStr "4"]
                    /\ gateBaseSequence w0 = [NVStr "4"]
                    /\ gateRandomEnabled w0 = randomEnabled).
  { subst w0. unfold sequence_installed. destruct randomEnabled; repeat split. }
  destruct Hfields as (Ha0 & Hs0 & Hb0 & Hr0).
  rewrite startGateLoop_on by (rewrite ?Ha0, ?Hs0; (assumption || discriminate)).
  set (w1 := notified 0 (set_gateSequenceIndex 0 (timers_cleared w0))).
  assert (Hfields1 :
    gateAmount w1 = gateAmount w /\ gateSpeedSequence w1 = [NVStr "4"] /\
    gateBaseSequence w1 = [NVStr "4"] /\ gateRandomEnabled w1 = randomEnabled /\
    gateSequenceIndex w1 = 0%nat /\ window_bpm w1 = window_bpm w /\
    sampleRate w1 = sampleRate w /\ next_timer w1 = next_timer w).
  { subst w1. unfold notified, timers_cleared.
    destruct (gateTimeout w0);
      cbn [hasPlayingIndexCallback set_gateSequenceIndex set_gateTimeout set_timers
           set_gateInterval];
      destruct (hasPlayingIndexCallback w0); cbn; rewrite ?Ha0, ?Hs0, ?Hb0, ?Hr0;
      repeat split; subst w0; unfold sequence_installed;
      destruct randomEnabled; reflexivity. }
  destruct Hfields1 as (Ha1 & Hs1 & Hb1 & Hr1 & Hi1 & Hbpm1 & Hrate1 & Hnext1).
  rewrite bind_run, scheduleNextGateCycle_on
    by (rewrite ?Ha1, ?Hs1; (assumption || discriminate)).
  rewrite bind_run.
  assert (Hshuffle : exists w2,
    reshuffle_if_random Math_random w1 = (Ok tt, w2) /\
    element_at (gateSpeedSequence w2) (gateSequenceIndex w2) = NVStr "4" /\
    window_bpm w2 = window_bpm w /\ sampleRate w2 = sampleRate w /\
    next_timer w2 = next_timer w).
  { destruct randomEnabled.
    - eexists. split; [apply reshuffle_if_random_on; [exact Hr1 | rewrite Hb1; discriminate]|].
      unfold reshuffled. cbn. rewrite Hb1. cbn. auto.
    - exists w1. split; [apply reshuffle_if_random_off; now left|].
      rewrite Hs1, Hi1. auto. }
  destruct Hshuffle as (w2 & -> & Htok & Hbpm2 & Hrate2 & Hnext2).
  assert (Hbpm' : bpm_or_default w2 = Fin b)
    by (unfold bpm_or_default in *; now rewrite Hbpm2).
  rewrite bind_run, (schedule_cycle_run _ (60 / b / 4));
    [ | rewrite Htok, Hbpm'; now apply quarter_note_duration
      | apply Qlt_shift_div_l; [reflexivity|]; apply Qlt_shift_div_l; lra
      | now rewrite Hrate2 ].
  unfold mret, M_ret. cbn [result_of state_of fst snd].
  destruct (cycle_state_timers (gateAmount w1) (60 / b / 4) w2)
    as (Htimeout & Htimers & _ & Hgain).
  rewrite Htimeout, Htimers, Hgain, Hnext2. repeat split.
  - apply lookup_insert_eq.
  - eexists. split; [reflexivity|]. unfold cycle_curve.
    now rewrite gateCurve_length, Hrate2.
Qed.

(** With a non-zero amount and random mode off, [updateGateAmount] starts
    the gate on the first token of the sequence. *)
Lemma updateGateAmount_starts (w : Gate) (amount : Q) (token : NoteValue) (speed : Q) :
  ~ amount == 0 -> gateRandomEnabled w = false ->
  gateSpeedSequence w !! 0%nat = Some token ->
  getNoteDuration token (bpm_or_default w) = Fin speed -> 0 < speed ->
  (2 <= Math_ceil (speed * sampleRate w))%Z ->
  let r := updateGateAmount Math_sin Math_PI Math_ceil Math_random amount w in
  result_of r = Ok tt /\
  gateTimeout (state_of r) = Some (next_timer w) /\
  timers (state_of r) !! next_timer w = Some (speed * 1000) /\
  exists curve, gateGain (state_of r) = [SetValueCurveAtTime curve speed].
Proof.
  intros Hamount Hrandom Htoken Hspeed Hpos Hlen r. subst r.
  rewrite updateGateAmount_run.
  set (w0 := set_gateAmount amount w).
  assert (Hsequence : gateSpeedSequence w0 <> [])
    by (subst w0; cbn; intros Hnil; rewrite Hnil in Htoken; discriminate).
  rewrite startGateLoop_on by assumption.
  set (w1 := notified 0 (set_gateSequenceIndex 0 (timers_cleared w0))).
  assert (Hfields1 :
    gateAmount w1 = amount /\ gateSpeedSequence w1 = gateSpeedSequence w /\
    gateRandomEnabled w1 = false /\
    gateSequenceIndex w1 = 0%nat /\ window_bpm w1 = window_bpm w /\
    sampleRate w1 = sampleRate w /\ next_timer w1 = next_timer w).
  { subst w1 w0. unfold notified, timers_cleared.
    cbn [gateTimeout set_gateAmount].
    destruct (gateTimeout w);
      cbn [hasPlayingIndexCallback set_gateSequenceIndex set_gateTimeout set_timers
           set_gateInterval set_gateAmount];
      destruct (hasPlayingIndexCallback w); cbn; repeat split; assumption. }
  destruct Hfields1 as (Ha1 & Hs1 & Hr1 & Hi1 & Hbpm1 & Hrate1 & Hnext1).
  rewrite bind_run, scheduleNextGateCycle_on
    by (rewrite ?Ha1, ?Hs1; assumption).
  rewrite bind_run, reshuffle_if_random_off by now left.
  assert (Hbpm' : bpm_or_default w1 = bpm_or_default w)
    by (unfold bpm_or_default; now rewrite Hbpm1).
  rewrite bind_run, (schedule_cycle_run _ speed);
    [ | rewrite Hs1, Hi1, Hbpm'; unfold element_at; rewrite Htoken; exact Hspeed
      | exact Hpos
      | now rewrite Hrate1 ].
  unfold mret, M_ret. cbn [result_of state_of fst snd].
  destruct (cycle_state_timers (gateAmount w1) speed w1)
    as (Htimeout & Htimers & _ & Hgain).
  rewrite Htimeout, Htimers, Hgain, Hnext1. repeat split.
  - apply lookup_insert_eq.
  - eexists. reflexivity.
Qed.

(** C3, as the code has it: [updateGateAmount(0)] disables the gate from
    every state: it returns, the gain is set to 1.0 with nothing else
    scheduled, the timer of the next cycle is cleared (so no timer is
    pending on a running page), and timers coming due afterwards schedule
    nothing.  [updateGateSpeedSequence([])] does not disable it: the empty
    sequence is replaced by the default [["4"]]; the gate is then off only
    if the amount is 0, and otherwise restarts on quarter notes. *)
Theorem gate_disabled_by_zero_amount :
  (forall w : Gate,
      let r := updateGateAmount Math_sin Math_PI Math_ceil Math_random 0 w in
      result_of r = Ok tt /\
      gateGain (state_of r) = [SetValueAtTime 1] /\
      gateTimeout (state_of r) = None /\
      (forall id, gateTimeout w = Some id -> timers (state_of r) !! id = None) /\
      (timers_tracked w -> timers (state_of r) = ∅) /\
      (forall ids,
          only_timers_changed (state_of r)
            (fire_all Math_sin Math_PI Math_ceil Math_random ids (state_of r))) /\
      scheduleNextGateCycle Math_sin Math_PI Math_ceil Math_random (state_of r)
      = (Ok None, state_of r))
  /\
  (forall (w : Gate) (randomEnabled : bool),
      let r := updateGateSpeedSequence Math_sin Math_PI Math_ceil Math_random
                 (Some []) randomEnabled w in
      gateBaseSequence (state_of r) = [NVStr "4"] /\
      gateAmount (state_of r) = gateAmount w /\
      (gateAmount w == 0 ->
       result_of r = Ok tt /\
       gateGain (state_of r) = [SetValueAtTime 1] /\
       gateTimeout (state_of r) = None) /\
      (forall b : Q,
          ~ gateAmount w == 0 -> bpm_or_default w = Fin b -> 0 < b ->
          (2 <= Math_ceil (60 / b / 4 * sampleRate w))%Z ->
          result_of r = Ok tt /\
          gateTimeout (state_of r) = Some (next_timer w) /\
          timers (state_of r) !! next_timer w = Some (60 / b / 4 * 1000) /\
          exists curve,
            gateGain (state_of r) = [SetValueCurveAtTime curve (60 / b / 4)] /\
            length curve = Z.to_nat (Math_ceil (60 / b / 4 * sampleRate w)))).
Proof.
  split.
  - intros w r. subst r. rewrite updateGateAmount_run.
    set (w0 := set_gateAmount 0 w).
    assert (Hzero : gateAmount w0 == 0) by reflexivity.
    rewrite startGateLoop_off by now left.
    cbn [result_of state_of fst snd].
    destruct (gate_off_state_fields w0) as (Hgain & Htimeout & Hamount & _ & _ & Hid & Hnone).
    split; [reflexivity|]. split; [exact Hgain|]. split; [exact Htimeout|].
    split; [exact Hid|]. split; [exact Hnone|].
    assert (Hoff : gateAmount (gate_off_state w0) == 0) by now rewrite Hamount.
    split; [intros ids; now apply fire_all_off|].
    apply scheduleNextGateCycle_off. now left.
  - intros w randomEnabled r.
    assert (Hsettings : same_settings
              (sequence_installed Math_random (Some []) randomEnabled w) (state_of r)).
    { subst r. rewrite updateGateSpeedSequence_run. apply startGateLoop_settings. }
    destruct Hsettings as (Hamount & Hbase & _).
    assert (Ha0 : gateAmount (sequence_installed Math_random (Some []) randomEnabled w)
                  = gateAmount w)
      by (unfold sequence_installed; now destruct randomEnabled).
    assert (Hb0 : gateBaseSequence (sequence_installed Math_random (Some []) randomEnabled w)
                  = [NVStr "4"])
      by (unfold sequence_installed; now destruct randomEnabled).
    split; [congruence|]. split; [congruence|]. split.
    + intros Hzero. subst r. rewrite updateGateSpeedSequence_run.
      rewrite startGateLoop_off by (left; now rewrite Ha0).
      cbn [result_of state_of fst snd].
      destruct (gate_off_state_fields
                  (sequence_installed Math_random (Some []) randomEnabled w))
        as (Hgain & Htimeout & _).
      auto.
    + intros b Hon Hbpm Hb Hlen.
      now apply updateGateSpeedSequence_empty_restarts.
Qed.

(** *** One timer at most *)

(** X15: the gate never has two cycles pending.  In every state the page
    can reach from a fresh load (updates of the amount and of the
    sequence, tempo changes, timers coming due in any order) at most one
    timer is pending, and it is the one [gateTimeout] names. *)
Theorem gate_has_one_timer_at_most (calls : list GateCall) (rate : Q) :
  let w := gate_perform_all Math_sin Math_PI Math_ceil Math_random calls (initial_gate rate) in
  forall id1 id2,
    is_Some (timers w !! id1) -> is_Some (timers w !! id2) ->
    id1 = id2 /\ gateTimeout w = Some id1.
Proof.
  intros w id1 id2 H1 H2.
  pose proof (reachable_timers_tracked calls rate) as Htracked. fold w in Htracked.
  pose proof (Htracked id1 H1) as Hid1. pose proof (Htracked id2 H2) as Hid2.
  split; [congruence | exact Hid1].
Qed.

(** *** The sequence and its cursor *)

Lemma sequence_in_step_fields (w w' : Gate) :
  gateSpeedSequence w' = gateSpeedSequence w ->
  gateBaseSequence w' = gateBaseSequence w ->
  gateSequenceIndex w' = gateSequenceIndex w ->
  sequence_in_step w -> sequence_in_step w'.
Proof.
  intros Hspeed Hbase Hindex. unfold sequence_in_step. now rewrite Hspeed, Hbase, Hindex.
Qed.

Lemma sequence_in_step_rewound (w w' : Gate) :
  gateSpeedSequence w' = gateSpeedSequence w ->
  gateBaseSequence w' = gateBaseSequence w ->
  gateSequenceIndex w' = 0%nat ->
  sequence_in_step w -> sequence_in_step w'.
Proof.
  intros Hspeed Hbase Hindex (Hperm & Hne & Hlt). unfold sequence_in_step.
  rewrite Hspeed, Hbase, Hindex. split; [exact Hperm|]. split; [exact Hne | lia].
Qed.

Lemma timers_cleared_sequence (w : Gate) :
  gateSpeedSequence (timers_cleared w) = gateSpeedSequence w /\
  gateBaseSequence (timers_cleared w) = gateBaseSequence w /\
  gateSequenceIndex (timers_cleared w) = gateSequenceIndex w /\
  gateRandomEnabled (timers_cleared w) = gateRandomEnabled w.
Proof. unfold timers_cleared. now destruct (gateTimeout w). Qed.

Lemma notified_sequence (i : Z) (w : Gate) :
  gateSpeedSequence (notified i w) = gateSpeedSequence w /\
  gateBaseSequence (notified i w) = gateBaseSequence w /\
  gateSequenceIndex (notified i w) = gateSequenceIndex w /\
  gateRandomEnabled (notified i w) = gateRandomEnabled w.
Proof. unfold notified. now destruct (hasPlayingIndexCallback w). Qed.

Lemma cycle_state_index (amount speed : Q) (w : Gate) :
  gateSequenceIndex (cycle_state Math_sin Math_PI Math_ceil amount speed w)
  = ((gateSequenceIndex w + 1) mod length (gateSpeedSequence w))%nat.
Proof.
  unfold cycle_state, notified.
  cbn [hasPlayingIndexCallback set_gateGain].
  now destruct (hasPlayingIndexCallback w).
Qed.

Lemma cycle_state_in_step (amount speed : Q) (w : Gate) :
  sequence_in_step w -> sequence_in_step (cycle_state Math_sin Math_PI Math_ceil amount speed w).
Proof.
  intros (Hperm & Hne & Hlt). unfold sequence_in_step.
  destruct (cycle_state_settings amount speed w) as (_ & Hbase & _).
  rewrite cycle_state_sequence, Hbase, cycle_state_index.
  split; [exact Hperm|]. split; [exact Hne|].
  apply Nat.mod_upper_bound. lia.
Qed.

Lemma reshuffled_in_step (w : Gate) :
  gateBaseSequence w <> [] -> sequence_in_step (reshuffled Math_random w).
Proof.
  intros Hne. unfold sequence_in_step, reshuffled.
  cbn [gateSpeedSequence gateBaseSequence gateSequenceIndex set_gateSequenceIndex
       set_gateSpeedSequence set_random_calls].
  pose proof (shuffled_from_permutation (random_calls w) (length (gateBaseSequence w) - 1)
                (gateBaseSequence w)) as Hperm.
  split; [exact Hperm|]. split; [exact Hne|].
  rewrite (Permutation_length Hperm).
  destruct (gateBaseSequence w); [congruence | cbn; lia].
Qed.

Lemma scheduleNextGateCycle_in_step (w : Gate) :
  sequence_in_step w ->
  sequence_in_step (state_of (scheduleNextGateCycle Math_sin Math_PI Math_ceil Math_random w)).
Proof.
  intros Hstep.
  destruct (scheduleNextGateCycle_cases w) as [Hoff | [Hamount Hsequence]].
  - now rewrite scheduleNextGateCycle_off by assumption.
  - rewrite scheduleNextGateCycle_on by assumption. rewrite bind_run.
    assert (Hshuffle : exists w1,
      reshuffle_if_random Math_random w = (Ok tt, w1) /\ sequence_in_step w1).
    { destruct (gateRandomEnabled w) eqn:Hrandom.
      - eexists. split; [apply reshuffle_if_random_on; [exact Hrandom | apply Hstep]|].
        apply reshuffled_in_step, Hstep.
      - exists w. split; [now apply reshuffle_if_random_off; left | exact Hstep]. }
    destruct Hshuffle as (w1 & -> & Hstep1). rewrite bind_run.
    destruct (schedule_cycle _ _ _ _ w1) as [[noteValue|e] w2] eqn:Hcycle;
      unfold mret, M_ret; cbn [state_of snd].
    + apply schedule_cycle_ok in Hcycle as (_ & speed & _ & _ & _ & ->).
      now apply cycle_state_in_step.
    + apply schedule_cycle_throw in Hcycle as (events & ->).
      now apply (sequence_in_step_fields w1).
Qed.

Lemma gate_off_state_sequence (w : Gate) :
  gateSpeedSequence (gate_off_state w) = gateSpeedSequence w /\
  gateBaseSequence (gate_off_state w) = gateBaseSequence w /\
  gateSequenceIndex (gate_off_state w) = gateSequenceIndex w.
Proof.
  unfold gate_off_state.
  destruct (notified_sequence (-1) (set_gateGain [SetValueAtTime 1] (timers_cleared w)))
    as (-> & -> & -> & _).
  destruct (timers_cleared_sequence w) as (Hspeed & Hbase & Hindex & _).
  cbn [gateSpeedSequence gateBaseSequence gateSequenceIndex set_gateGain].
  now rewrite Hspeed, Hbase, Hindex.
Qed.

Lemma startGateLoop_in_step (w : Gate) :
  sequence_in_step w ->
  sequence_in_step (state_of (startGateLoop Math_sin Math_PI Math_ceil Math_random w)).
Proof.
  intros Hstep.
  destruct (scheduleNextGateCycle_cases w) as [Hoff | [Hamount Hsequence]].
  - rewrite startGateLoop_off by assumption. cbn [state_of snd].
    destruct (gate_off_state_sequence w) as (Hspeed & Hbase & Hindex).
    now apply (sequence_in_step_fields w).
  - rewrite startGateLoop_on by assumption. rewrite bind_run.
    match goal with
    | |- context [scheduleNextGateCycle _ _ _ _ ?w1] =>
        assert (Hstep1 : sequence_in_step w1);
        [| pose proof (scheduleNextGateCycle_in_step w1 Hstep1) as Hnext;
           destruct (scheduleNextGateCycle Math_sin Math_PI Math_ceil Math_random w1) as [[r|e] w2];
           exact Hnext ]
    end.
    destruct (timers_cleared_sequence w) as (Hspeed & Hbase & _).
    match goal with
    | |- sequence_in_step (notified 0 ?w0) =>
        destruct (notified_sequence 0 w0) as (Hspeed' & Hbase' & Hindex' & _)
    end.
    apply (sequence_in_step_rewound w); [| | | exact Hstep].
    + now rewrite Hspeed'.
    + now rewrite Hbase'.
    + now rewrite Hindex'.
Qed.

Lemma sequence_installed_in_step (sequence : option (list NoteValue))
    (randomEnabled : bool) (w : Gate) :
  sequence_in_step (sequence_installed Math_random sequence randomEnabled w).
Proof.
  unfold sequence_installed.
  set (base := match sequence with
               | Some s => if (0 <? length s)%nat then s else [NVStr "4"]
               | None => [NVStr "4"]
               end).
  assert (Hbase : base <> []).
  { subst base. destruct sequence as [[|x s]|]; cbn; discriminate. }
  unfold sequence_in_step. destruct randomEnabled;
    cbn [gateSpeedSequence gateBaseSequence gateSequenceIndex set_gateSequenceIndex
         set_gateSpeedSequence set_random_calls set_gateRandomEnabled
         set_gateBaseSequence].
  - pose proof (shuffled_from_permutation (random_calls w) (length base - 1) base) as Hperm.
    split; [exact Hperm|]. split; [exact Hbase|].
    rewrite (Permutation_length Hperm). destruct base; [congruence | cbn; lia].
  - split; [reflexivity|]. split; [exact Hbase|].
    destruct base; [congruence | cbn; lia].
Qed.

Lemma fire_timer_in_step (id : nat) (w : Gate) :
  sequence_in_step w ->
  sequence_in_step (state_of (fire_timer Math_sin Math_PI Math_ceil Math_random id w)).
Proof.
  intros Hstep. unfold fire_timer. rewrite bind_run. unfold gets at 1.
  destruct (timers w !! id) as [delay|]; [|exact Hstep].
  rewrite bind_run. unfold clearTimeout, modify at 1. rewrite bind_run.
  match goal with
  | |- context [scheduleNextGateCycle _ _ _ _ ?w1] =>
      assert (Hstep1 : sequence_in_step w1) by exact Hstep;
      pose proof (scheduleNextGateCycle_in_step w1 Hstep1) as Hnext;
      destruct (scheduleNextGateCycle Math_sin Math_PI Math_ceil Math_random w1) as [[r|e] w2];
      exact Hnext
  end.
Qed.

Lemma gate_perform_in_step (c : GateCall) (w : Gate) :
  sequence_in_step w -> sequence_in_step (gate_perform Math_sin Math_PI Math_ceil Math_random c w).
Proof.
  intros Hstep. destruct c as [amount | sequence randomEnabled | bpm | id];
    cbn [gate_perform].
  - rewrite updateGateAmount_run. now apply startGateLoop_in_step.
  - rewrite updateGateSpeedSequence_run. apply startGateLoop_in_step.
    apply sequence_installed_in_step.
  - exact Hstep.
  - now apply fire_timer_in_step.
Qed.

Lemma reachable_in_step (calls : list GateCall) (rate : Q) :
  sequence_in_step (gate_perform_all Math_sin Math_PI Math_ceil Math_random calls (initial_gate rate)).
Proof.
  assert (Hinit : sequence_in_step (initial_gate rate)).
  { unfold sequence_in_step. cbn. split; [reflexivity|]. split; [discriminate | lia]. }
  revert Hinit. generalize (initial_gate rate) as w.
  induction calls as [|c calls IH]; intros w Hw; [exact Hw|].
  cbn [gate_perform_all fold_left]. apply IH. now apply gate_perform_in_step.
Qed.

(** X16: the cursor never leaves the sequence.  With [Math.random] in
    [0, 1), which keeps the swaps of [shuffleArray] inside the array, every
    state the page can reach from a fresh load has a working sequence that
    is the base sequence in some order and is not empty, and a cursor
    inside it: the token the next cycle reads exists and is one of the
    base sequence, never [undefined]. *)
Theorem gate_cursor_stays_in_sequence (calls : list GateCall) (rate : Q) :
  (forall n, 0 <= Math_random n < 1) ->
  let w := gate_perform_all Math_sin Math_PI Math_ceil Math_random calls (initial_gate rate) in
  gateSpeedSequence w ≡ₚ gateBaseSequence w /\
  exists noteValue,
    gateSpeedSequence w !! gateSequenceIndex w = Some noteValue /\
    element_at (gateSpeedSequence w) (gateSequenceIndex w) = noteValue /\
    noteValue ∈ gateBaseSequence w.
Proof.
  intros _ w.
  destruct (reachable_in_step calls rate) as (Hperm & _ & Hlt). fold w in Hperm, Hlt.
  split; [exact Hperm|].
  destruct (lookup_lt_is_Some_2 _ _ Hlt) as (noteValue & HnoteValue).
  exists noteValue. split; [exact HnoteValue|].
  split; [unfold element_at; now rewrite HnoteValue|].
  rewrite <- Hperm. now apply list_elem_of_lookup_2 in HnoteValue.
Qed.

(** *** A token without a duration *)

Lemma scheduleNextGateCycle_bad_token (w : Gate) :
  ~ gateAmount w == 0 -> gateSpeedSequence w <> [] -> gateRandomEnabled w = false ->
  (forall speed,
      getNoteDuration (element_at (gateSpeedSequence w) (gateSequenceIndex w))
                      (bpm_or_default w) = Fin speed -> speed <= 0) ->
  exists e events,
    scheduleNextGateCycle Math_sin Math_PI Math_ceil Math_random w = (Throw e, set_gateGain events w).
Proof.
  intros Hamount Hsequence Hrandom Hbad.
  rewrite scheduleNextGateCycle_on by assumption. rewrite bind_run.
  rewrite reshuffle_if_random_off by now left. rewrite bind_run.
  destruct (schedule_cycle _ _ _ _ w) as [[noteValue|e] w2] eqn:Hcycle.
  - apply schedule_cycle_ok in Hcycle as (-> & speed & Hspeed & Hpositive & _).
    specialize (Hbad speed Hspeed). lra.
  - apply schedule_cycle_throw in Hcycle as (events & ->). now exists e, events.
Qed.

(** X17: a token without a positive duration ends the gate loop.  When
    the gate is on in ordered mode and the token under the cursor has no
    positive finite duration at the current tempo (["0"], a negative
    number, a text [parseInt] does not read), [scheduleNextGateCycle]
    throws: it sets no timer and does not move the cursor.  Run from the
    one pending timer, it leaves the gate with no timer at all, so no
    further cycle is scheduled until the page updates the gate. *)
Theorem bad_token_ends_gate_loop (w : Gate) (id : nat) :
  ~ gateAmount w == 0 -> gateSpeedSequence w <> [] -> gateRandomEnabled w = false ->
  (forall speed,
      getNoteDuration (element_at (gateSpeedSequence w) (gateSequenceIndex w))
                      (bpm_or_default w) = Fin speed -> speed <= 0) ->
  (exists e w',
      scheduleNextGateCycle Math_sin Math_PI Math_ceil Math_random w = (Throw e, w') /\
      timers w' = timers w /\ gateTimeout w' = gateTimeout w /\
      gateSequenceIndex w' = gateSequenceIndex w) /\
  (timers_tracked w -> is_Some (timers w !! id) ->
   exists e w',
     fire_timer Math_sin Math_PI Math_ceil Math_random id w = (Throw e, w') /\
     timers w' = ∅ /\ gateSequenceIndex w' = gateSequenceIndex w).
Proof.
  intros Hamount Hsequence Hrandom Hbad. split.
  - destruct (scheduleNextGateCycle_bad_token w Hamount Hsequence Hrandom Hbad)
      as (e & events & ->).
    exists e. eexists. split; [reflexivity|]. now cbn.
  - intros Htracked [delay Hpending].
    unfold fire_timer. rewrite bind_run. unfold gets at 1. rewrite Hpending.
    rewrite bind_run. unfold clearTimeout, modify at 1. rewrite bind_run.
    match goal with
    | |- context [scheduleNextGateCycle _ _ _ _ ?w1] =>
        destruct (scheduleNextGateCycle_bad_token w1 Hamount Hsequence Hrandom Hbad)
          as (e & events & ->)
    end.
    exists e. eexists. split; [reflexivity|].
    cbn [timers gateSequenceIndex set_gateGain set_timers]. split; [|reflexivity].
    apply map_eq. intros id'. rewrite lookup_empty.
    destruct (decide (id' = id)) as [-> | Hne]; [apply lookup_delete_eq|].
    rewrite lookup_delete_ne by congruence.
    destruct (timers w !! id') eqn:Hother; [|reflexivity].
    pose proof (Htracked id (ex_intro _ _ Hpending)) as H1.
    pose proof (Htracked id' (ex_intro _ _ Hother)) as H2. congruence.
Qed.

(** *** The legacy gate speed *)

Lemma closestNoteValue_valid (approximateNoteValue : num) :
  closestNoteValue approximateNoteValue ∈ validNoteValues.
Proof.
  unfold closestNoteValue, validNoteValues.
  cbn [lookup list_lookup default fold_left fst from_option].
  repeat match goal with
  | |- context [JsMath.lt ?a ?b] => destruct (JsMath.lt a b)
  end;
  cbn [fst];
  repeat first [ apply list_elem_of_here | apply list_elem_of_further ].
Qed.

Lemma closestNoteValue_not_finite (approximateNoteValue : num) :
  is_finite approximateNoteValue = false ->
  closestNoteValue approximateNoteValue = Fin 16.
Proof. destruct approximateNoteValue as [q|[]|]; [discriminate | reflexivity..]. Qed.

Lemma div_by_zero_not_finite (a : num) (q : Q) :
  q == 0 -> is_finite (JsMath.round (div a (Fin q))) = false.
Proof.
  intros Hq. assert (Hzero : Qis_zero q = true) by now apply Qeq_bool_iff.
  destruct a as [x|s|]; cbn [div]; rewrite ?Hzero; [|reflexivity..].
  now destruct (Qis_zero x).
Qed.

Lemma scheduleNextGateCycle_ordered (w : Gate) :
  gateRandomEnabled w = false ->
  gateSpeedSequence (state_of (scheduleNextGateCycle Math_sin Math_PI Math_ceil Math_random w))
  = gateSpeedSequence w.
Proof.
  intros Hrandom.
  destruct (scheduleNextGateCycle_cases w) as [Hoff | [Hamount Hsequence]].
  - now rewrite scheduleNextGateCycle_off by assumption.
  - rewrite scheduleNextGateCycle_on by assumption. rewrite bind_run.
    rewrite reshuffle_if_random_off by now left. rewrite bind_run.
    destruct (schedule_cycle _ _ _ _ w) as [[noteValue|e] w2] eqn:Hcycle;
      unfold mret, M_ret; cbn [state_of snd].
    + apply schedule_cycle_ok in Hcycle as (_ & speed & _ & _ & _ & ->).
      apply cycle_state_sequence.
    + now apply schedule_cycle_throw in Hcycle as (events & ->).
Qed.

Lemma startGateLoop_ordered (w : Gate) :
  gateRandomEnabled w = false ->
  gateSpeedSequence (state_of (startGateLoop Math_sin Math_PI Math_ceil Math_random w))
  = gateSpeedSequence w.
Proof.
  intros Hrandom.
  destruct (scheduleNextGateCycle_cases w) as [Hoff | [Hamount Hsequence]].
  - rewrite startGateLoop_off by assumption. apply gate_off_state_sequence.
  - rewrite startGateLoop_on by assumption. rewrite bind_run.
    destruct (timers_cleared_sequence w) as (Hspeed & _ & _ & Hrandom0).
    match goal with
    | |- context [scheduleNextGateCycle _ _ _ _ (notified 0 ?w0)] =>
        destruct (notified_sequence 0 w0) as (Hspeed' & _ & _ & Hrandom');
        assert (Hordered : gateRandomEnabled (notified 0 w0) = false)
          by (rewrite Hrandom'; cbn; now rewrite Hrandom0);
        pose proof (scheduleNextGateCycle_ordered (notified 0 w0) Hordered) as Hnext;
        destruct (scheduleNextGateCycle Math_sin Math_PI Math_ceil Math_random (notified 0 w0))
          as [[r|e] w2]
    end;
    unfold mret, M_ret; cbn [state_of snd] in *;
    rewrite Hnext, Hspeed'; cbn; exact Hspeed.
Qed.

(** X18: the legacy [updateGateSpeed] always installs a valid note
    value.  Whatever the speed and the tempo, it leaves a base sequence
    and a working sequence of one number among 16, 8, 4, 2 and 1, in
    ordered mode, and keeps the gate amount; a speed of 0 or NaN gives
    16. *)
Theorem updateGateSpeed_installs_valid_value (speed : num) (w : Gate) :
  let w' := state_of (updateGateSpeed Math_sin Math_PI Math_ceil Math_random speed w) in
  (exists value,
      value ∈ validNoteValues /\
      gateBaseSequence w' = [NVNum value] /\ gateSpeedSequence w' = [NVNum value]) /\
  gateRandomEnabled w' = false /\ gateAmount w' = gateAmount w /\
  (speed = NaN \/ (exists q, speed = Fin q /\ q == 0) ->
   gateBaseSequence w' = [NVNum (Fin 16)]).
Proof.
  intros w'.
  set (closest := closestNoteValue
                    (JsMath.round (div (div (Fin 60) (bpm_or_default w)) speed))).
  assert (Hrun : w' = state_of (startGateLoop Math_sin Math_PI Math_ceil Math_random
                                  (sequence_installed Math_random
                                     (Some [NVNum closest]) false w))).
  { subst w'. unfold updateGateSpeed. rewrite bind_run. unfold gets at 1.
    now rewrite updateGateSpeedSequence_run. }
  destruct (startGateLoop_settings
              (sequence_installed Math_random (Some [NVNum closest]) false w))
    as (Hamount & Hbase & Hrandom & _).
  rewrite <- Hrun in Hamount, Hbase, Hrandom.
  assert (Hspeed : gateSpeedSequence w' = [NVNum closest]).
  { rewrite Hrun. now rewrite startGateLoop_ordered. }
  split; [exists closest; split; [apply closestNoteValue_valid | now split]|].
  split; [exact Hrandom|]. split; [exact Hamount|].
  intros Hspecial. rewrite Hbase. cbn. do 2 f_equal. subst closest.
  apply closestNoteValue_not_finite.
  destruct Hspecial as [-> | (q & -> & Hq)].
  - now destruct (div (Fin 60) (bpm_or_default w)).
  - now apply div_by_zero_not_finite.
Qed.



End GateProofs.

(** ** The gate on a sample platform *)

Lemma gate_at_half_settings :
  gateAmount gate_at_half = 50 /\ window_bpm gate_at_half = None /\
  sampleRate gate_at_half = 44100.
Proof.
  destruct (startGateLoop_settings sample_sin sample_PI sample_ceil sample_random
              (set_gateAmount 50 (initial_gate 44100))) as (Ha & _ & _ & Hbpm & Hrate).
  unfold gate_at_half. rewrite updateGateAmount_run.
  split; [exact Ha|]. split; [exact Hbpm | exact Hrate].
Qed.

(** C3, as the spec states it, fails for the empty sequence: with the amount
    at 50 the call leaves a cycle scheduled and a timer pending instead of a
    gain of 1.0. *)
Lemma empty_sequence_does_not_disable :
  let w' := state_of (updateGateSpeedSequence sample_sin sample_PI sample_ceil sample_random
                        (Some []) false gate_at_half) in
  gateGain w' <> [SetValueAtTime 1] /\ gateTimeout w' <> None
  /\ is_Some (timers w' !! next_timer gate_at_half).
Proof.
  destruct gate_at_half_settings as (Ha & Hbpm & Hrate).
  pose proof (updateGateSpeedSequence_empty_restarts sample_sin sample_PI sample_ceil sample_random
                gate_at_half false 120) as H.
  rewrite Ha, Hrate in H. unfold bpm_or_default in H. rewrite Hbpm in H.
  specialize (H ltac:(discriminate) eq_refl eq_refl ltac:(vm_compute; discriminate)).
  cbv zeta in H |- *.
  destruct H as (_ & Htimeout & Htimers & curve & Hgain & _).
  rewrite Htimeout, Htimers, Hgain.
  split; [discriminate|]. split; [discriminate|]. eexists; reflexivity.
Qed.

(** The gate at amount 50 is running: a quarter-note cycle is scheduled
    and the timer of the next one is pending. *)
Lemma gate_at_half_running :
  gateTimeout gate_at_half = Some 1%nat /\
  timers gate_at_half !! 1%nat = Some (60 / 120 / 4 * 1000) /\
  exists curve, gateGain gate_at_half = [SetValueCurveAtTime curve (60 / 120 / 4)].
Proof.
  pose proof (updateGateAmount_starts sample_sin sample_PI sample_ceil sample_random
                (initial_gate 44100) 50 (NVStr "4") (60 / 120 / 4)) as H.
  cbv zeta in H. unfold gate_at_half.
  destruct H as (_ & Htimeout & Htimers & Hgain).
  - discriminate.
  - reflexivity.
  - reflexivity.
  - exact (quarter_note_duration 120 eq_refl).
  - reflexivity.
  - vm_compute. discriminate.
  - split; [exact Htimeout|]. split; [exact Htimers | exact Hgain].
Qed.

Lemma gate_at_half_tracked : timers_tracked gate_at_half.
Proof.
  unfold gate_at_half. rewrite updateGateAmount_run.
  apply startGateLoop_tracked.
  intros id [delay Hid]. cbn in Hid. rewrite lookup_empty in Hid. discriminate.
Qed.

Lemma gate_disabled_by_zero_amount_witness :
  let off := updateGateAmount sample_sin sample_PI sample_ceil sample_random 0 gate_at_half in
  let emptied := updateGateSpeedSequence sample_sin sample_PI sample_ceil sample_random
                   (Some []) true gate_at_half in
  (gateTimeout gate_at_half = Some 1%nat /\ is_Some (timers gate_at_half !! 1%nat)) /\
  (result_of off = Ok tt /\
   gateGain (state_of off) = [SetValueAtTime 1] /\
   gateTimeout (state_of off) = None /\
   timers (state_of off) !! 1%nat = None /\
   timers (state_of off) = ∅ /\
   scheduleNextGateCycle sample_sin sample_PI sample_ceil sample_random (state_of off)
   = (Ok None, state_of off)) /\
  (gateBaseSequence (state_of emptied) = [NVStr "4"] /\
   gateAmount (state_of emptied) = 50 /\
   result_of emptied = Ok tt /\
   gateTimeout (state_of emptied) = Some (next_timer gate_at_half) /\
   exists curve,
     gateGain (state_of emptied) = [SetValueCurveAtTime curve (60 / 120 / 4)] /\
     length curve = Z.to_nat (sample_ceil (60 / 120 / 4 * 44100))).
Proof.
  destruct gate_at_half_running as (Htimeout & Htimers & _).
  destruct gate_at_half_settings as (Ha & Hbpm & Hrate).
  destruct (gate_disabled_by_zero_amount sample_sin sample_PI sample_ceil sample_random)
    as [Hzero Hempty].
  specialize (Hzero gate_at_half). specialize (Hempty gate_at_half true).
  cbv zeta in Hzero, Hempty |- *.
  destruct Hzero as (Hresult & Hgain & Hnone & Hid & Htracked & _ & Hnext).
  destruct Hempty as (Hbase & Hamount & _ & Hrestart).
  specialize (Hrestart 120). rewrite Ha, Hrate in Hrestart.
  unfold bpm_or_default in Hrestart. rewrite Hbpm in Hrestart.
  destruct Hrestart as (Hresult' & Htimeout' & _ & Hcurve);
    [discriminate | reflexivity | reflexivity | vm_compute; discriminate |].
  split; [split; [exact Htimeout | rewrite Htimers; eexists; reflexivity]|].
  split.
  - split; [exact Hresult|]. split; [exact Hgain|]. split; [exact Hnone|].
    split; [exact (Hid 1%nat Htimeout)|].
    split; [exact (Htracked gate_at_half_tracked) | exact Hnext].
  - split; [exact Hbase|]. split; [now rewrite Hamount, Ha|].
    split; [exact Hresult'|]. split; [exact Htimeout' | exact Hcurve].
Defined.

Lemma shuffleArray_permutation_witness :
  exists shuffled w',
    shuffleArray sample_random [NVStr "8"; NVStr "4T"; NVStr "8"; NVStr "1"; NVStr "4T"]
      (initial_gate 44100) = (Ok shuffled, w')
    /\ shuffled ≡ₚ [NVStr "8"; NVStr "4T"; NVStr "8"; NVStr "1"; NVStr "4T"]
    /\ length shuffled = 5%nat.
Proof.
  refine (proj2 (shuffleArray_permutation sample_random _ (initial_gate 44100) _)).
  intros n. unfold sample_random.
  assert (H : (0 <= Z.of_nat (n mod 7) < 7)%Z).
  { pose proof (Nat.mod_upper_bound n 7). lia. }
  split.
  - apply Qle_shift_div_l; [reflexivity|]. rewrite Qmult_0_l.
    change 0 with (inject_Z 0). rewrite <- Zle_Qle. lia.
  - apply Qlt_shift_div_r; [reflexivity|]. rewrite Qmult_1_l.
    change 7 with (inject_Z 7). rewrite <- Zlt_Qlt. lia.
Defined.

Lemma gate_curve_in_range_witness :
  Forall (in_stored_range (30 / 100))
    (gateCurve sample_sin sample_PI (60 / 120 / 4) 44100 (30 / 100) (Z.to_nat 5513)) /\
  Forall (in_gate_range (50 / 100))
    (gateCurve sample_sin sample_PI (60 / 120 / 4) 44100 (50 / 100) (Z.to_nat 5513)) /\
  exists w',
    scheduleGateCycle sample_sin sample_PI sample_ceil (Fin (60 / 120 / 4)) (30 / 100)
      (initial_gate 44100) = (Ok tt, w').
Proof.
  split; [|split].
  - refine (proj1 (gate_curve_in_range sample_sin sample_PI sample_ceil
                     (60 / 120 / 4) 44100 (30 / 100) _ _) _).
    + reflexivity.
    + split; discriminate.
  - refine (proj1 (proj2 (gate_curve_in_range sample_sin sample_PI sample_ceil
                            (60 / 120 / 4) 44100 (50 / 100) _ _)) _ _).
    + reflexivity.
    + split; discriminate.
    + right. left. reflexivity.
  - refine (proj2 (proj2 (proj2 (gate_curve_in_range sample_sin sample_PI sample_ceil
                                   (60 / 120 / 4) 44100 (30 / 100) _ _)))
              (initial_gate 44100) _).
    + reflexivity.
    + split; discriminate.
    + vm_compute. discriminate.
Defined.

(** C4, as the spec states it, fails at amount 30: in the trough of a
    quarter-note cycle at 120 bpm the sample is 1 - 0.3 before it is stored,
    and the [Float32Array] holds the float32 next to it, which is lower. *)
Lemma gate_curve_sample_below_range :
  0 < 60 / 120 / 4 /\ 0 <= 30 / 100 <= 1 /\
  exists curve w' sample,
    scheduleGateCycle sample_sin sample_PI sample_ceil (Fin (60 / 120 / 4)) (30 / 100)
      (initial_gate 44100) = (Ok tt, w') /\
    gateGain w' = [SetValueCurveAtTime curve (60 / 120 / 4)] /\
    curve !! Z.to_nat 4134 = Some sample /\
    sample == 11744051 # 16777216 /\
    sample < 1 - 30 / 100 /\
    ~ in_gate_range (30 / 100) sample /\
    ~ Forall (in_gate_range (30 / 100)) curve.
Proof.
  split; [reflexivity|]. split; [split; discriminate|].
  eexists _, _, _. split.
  { apply scheduleGateCycle_run; [reflexivity | vm_compute; discriminate]. }
  split; [reflexivity|].
  assert (Hlookup :
    gateCurve sample_sin sample_PI (60 / 120 / 4) (sampleRate (initial_gate 44100)) (30 / 100)
      (Z.to_nat (sample_ceil (60 / 120 / 4 * sampleRate (initial_gate 44100))))
    !! Z.to_nat 4134
    = Some (gateCurveSample sample_sin sample_PI (60 / 120 / 4) 44100 (30 / 100)
              (Z.to_nat 4134))).
  { unfold gateCurve. rewrite list_lookup_fmap, lookup_seq_lt; [reflexivity|].
    apply Nat.ltb_lt. vm_compute. reflexivity. }
  assert (Hsample :
    gateCurveSample sample_sin sample_PI (60 / 120 / 4) 44100 (30 / 100) (Z.to_nat 4134)
    == 11744051 # 16777216) by (vm_compute; reflexivity).
  assert (Hbelow :
    gateCurveSample sample_sin sample_PI (60 / 120 / 4) 44100 (30 / 100) (Z.to_nat 4134)
    < 1 - 30 / 100) by (rewrite Hsample; reflexivity).
  assert (Hout : ~ in_gate_range (30 / 100)
    (gateCurveSample sample_sin sample_PI (60 / 120 / 4) 44100 (30 / 100) (Z.to_nat 4134))).
  { intros [[Hlo _] _]. revert Hlo. now apply Qlt_not_le. }
  split; [exact Hlookup|]. split; [exact Hsample|]. split; [exact Hbelow|].
  split; [exact Hout|].
  intros Hall. apply Hout. exact (Forall_lookup_1 _ _ _ _ Hall Hlookup).
Qed.

Lemma gate_random_settings :
  gateRandomEnabled gate_random = true /\
  gateBaseSequence gate_random = [NVStr "8"; NVStr "4T"].
Proof.
  destruct (startGateLoop_settings sample_sin sample_PI sample_ceil sample_random
              (sequence_installed sample_random (Some [NVStr "8"; NVStr "4T"]) true
                 gate_at_half)) as (_ & Hbase & Hrandom & _).
  unfold gate_random. rewrite updateGateSpeedSequence_run.
  split; [exact Hrandom | exact Hbase].
Qed.

Lemma sequence_installed_fields (Math_random : nat -> Q)
    (sequence : option (list NoteValue)) (randomEnabled : bool) (w : Gate) :
  let w' := sequence_installed Math_random sequence randomEnabled w in
  gateAmount w' = gateAmount w /\ window_bpm w' = window_bpm w /\
  sampleRate w' = sampleRate w.
Proof. unfold sequence_installed. destruct randomEnabled; repeat split. Qed.

Lemma gate_random_running :
  ~ gateAmount gate_random == 0 /\ gateSpeedSequence gate_random <> [] /\
  bpm_or_default gate_random = Fin 120 /\ sampleRate gate_random = 44100.
Proof.
  destruct gate_at_half_settings as (Ha & Hbpm & Hrate).
  pose proof (startGateLoop_settings sample_sin sample_PI sample_ceil sample_random
                (sequence_installed sample_random (Some [NVStr "8"; NVStr "4T"]) true
                   gate_at_half)) as (Hamount & _ & _ & Hbpm' & Hrate').
  pose proof (startGateLoop_in_step sample_sin sample_PI sample_ceil sample_random _
                (sequence_installed_in_step sample_random
                   (Some [NVStr "8"; NVStr "4T"]) true gate_at_half))
    as (Hperm & Hbase & _).
  destruct (sequence_installed_fields sample_random (Some [NVStr "8"; NVStr "4T"]) true
              gate_at_half) as (Ha0 & Hbpm0 & Hrate0).
  unfold gate_random. rewrite updateGateSpeedSequence_run.
  split; [rewrite Hamount, Ha0, Ha; discriminate|].
  split.
  - intros Hnil. rewrite Hnil in Hperm. symmetry in Hperm.
    now apply Permutation_nil_r in Hperm.
  - unfold bpm_or_default. rewrite Hbpm', Hrate', Hbpm0, Hrate0, Hbpm, Hrate. now split.
Qed.

Lemma random_mode_uses_first_of_fresh_shuffle_witness :
  exists fresh w0,
    shuffleArray sample_random (gateBaseSequence gate_random) gate_random = (Ok fresh, w0)
    /\ fresh ≡ₚ [NVStr "8"; NVStr "4T"]
    /\ exists noteValue speed w',
         scheduleNextGateCycle sample_sin sample_PI sample_ceil sample_random gate_random
         = (Ok (Some noteValue), w') /\
         fresh !! 0%nat = Some noteValue /\
         getNoteDuration noteValue (Fin 120) = Fin speed /\
         gateSpeedSequence w' = fresh /\
         timers w' = <[next_timer gate_random := speed * 1000]> (timers gate_random) /\
         exists curve, gateGain w' = [SetValueCurveAtTime curve speed].
Proof.
  destruct gate_random_settings as (Hrandom & Hbase).
  destruct gate_random_running as (Hamount & Hsequence & Hbpm & Hrate).
  destruct (random_mode_uses_first_of_fresh_shuffle sample_sin sample_PI sample_ceil sample_random
              gate_random Hrandom) as (fresh & w0 & Hrun & Hperm & Hcall & _ & Hreturns).
  - rewrite Hbase. discriminate.
  - rewrite Hbase in Hperm. rewrite Hbpm, Hrate in Hreturns.
    exists fresh, w0. split; [exact Hrun|]. split; [exact Hperm|].
    assert (Hhead : exists noteValue speed,
      fresh !! 0%nat = Some noteValue /\
      getNoteDuration noteValue (Fin 120) = Fin speed /\ 0 < speed /\
      (2 <= sample_ceil (speed * 44100))%Z).
    { destruct fresh as [|noteValue rest]; [now apply Permutation_nil_l in Hperm|].
      assert (Hin : noteValue ∈ [NVStr "8"; NVStr "4T"])
        by (rewrite <- Hperm; apply list_elem_of_here).
      apply elem_of_cons in Hin as [-> | Hin];
        [| apply elem_of_cons in Hin as [-> | Hin];
           [| now apply not_elem_of_nil in Hin]].
      - exists (NVStr "8"), (60 / 120 / 8). split; [reflexivity|].
        split; [vm_compute; reflexivity|]. split; [reflexivity | vm_compute; discriminate].
      - exists (NVStr "4T"), (60 / 120 * (2 / 3)). split; [reflexivity|].
        split; [vm_compute; reflexivity|]. split; [reflexivity | vm_compute; discriminate]. }
    destruct Hhead as (noteValue & speed & Hfirst & Hspeed & Hpos & Hlen).
    destruct (Hreturns noteValue speed Hamount Hsequence Hfirst Hspeed Hpos Hlen)
      as (w' & Hnext).
    destruct (Hcall _ _ Hnext) as [(Hnone & _) | Hcycle]; [discriminate|].
    destruct Hcycle as (noteValue' & speed' & [= <-] & _ & _ & _ & Hspeed' & Hfresh
                        & Hgain & _ & Htimers & _).
    rewrite Hbpm, Hspeed in Hspeed'. injection Hspeed' as <-.
    exists noteValue, speed, w'. split; [exact Hnext|]. split; [exact Hfirst|].
    split; [exact Hspeed|]. split; [exact Hfresh|]. split; [exact Htimers|].
    eexists. exact Hgain.
Defined.
(** ** Scale degrees, octaves and chord modes *)

Lemma getScaleNoteFrequency_outside (root : num) (noteIndex : nat) (octave : Z) :
  (8 <= noteIndex)%nat -> getScaleNoteFrequency root noteIndex octave = Throw TypeError.
Proof.
  intros Hindex. unfold getScaleNoteFrequency.
  rewrite (lookup_ge_None_2 MAJOR_SCALE_RATIOS noteIndex); [reflexivity|].
  exact Hindex.
Qed.

Lemma getScaleNoteFrequency_inside (root : num) (noteIndex : nat) (octave : Z) :
  (noteIndex < 8)%nat ->
  exists note,
    MAJOR_SCALE_RATIOS !! noteIndex = Some note /\
    getScaleNoteFrequency root noteIndex octave
    = Ok (mul (getFrequencyFromRatio (note_ratio note) root) (pow2 octave)).
Proof.
  intros Hindex. unfold getScaleNoteFrequency.
  destruct (MAJOR_SCALE_RATIOS !! noteIndex) as [note|] eqn:Hrow.
  - now exists note.
  - apply lookup_ge_None_1 in Hrow. cbn in Hrow. lia.
Qed.

(** X1: the scale has eight degrees.  [getScaleNoteFrequency] returns a
    number for the indices 0 to 7, whatever the root and the octave, and
    throws a TypeError for every other index, reading [.ratio] of a missing
    row; [getNoteFrequency] and [buildChordFrequencies] throw with it. *)
Theorem scale_has_eight_degrees (root : num) (noteIndex : nat) (octave : Z) :
  ((noteIndex < 8)%nat ->
     exists f, getScaleNoteFrequency root noteIndex octave = Ok f) /\
  ((8 <= noteIndex)%nat ->
     getScaleNoteFrequency root noteIndex octave = Throw TypeError /\
     getNoteFrequency root noteIndex = Throw TypeError /\
     forall chordType extensions,
       buildChordFrequencies root noteIndex chordType extensions = Throw TypeError).
Proof.
  split.
  - intros Hindex.
    destruct (getScaleNoteFrequency_inside root noteIndex octave Hindex) as (note & _ & ->).
    eauto.
  - intros Hindex. split; [now apply getScaleNoteFrequency_outside|].
    split; [now apply getScaleNoteFrequency_outside|].
    intros chordType extensions. unfold buildChordFrequencies.
    now rewrite getScaleNoteFrequency_outside.
Qed.

Lemma scale_has_eight_degrees_witness :
  (exists f, getScaleNoteFrequency (Fin 261.63) 7 0 = Ok f) /\
  getScaleNoteFrequency (Fin 261.63) 8 0 = Throw TypeError.
Proof.
  split.
  - apply (scale_has_eight_degrees (Fin 261.63) 7 0). lia.
  - apply (scale_has_eight_degrees (Fin 261.63) 8 0). lia.
Defined.

Lemma pow2_exact (n : Z) :
  (-1074 <= n <= 1023)%Z -> pow2 n = Fin (Qpower 2 n).
Proof.
  intros Hn. unfold pow2.
  destruct (Z.ltb_spec 1023 n); [lia|]. destruct (Z.ltb_spec n (-1074)); [lia|].
  reflexivity.
Qed.

Lemma getScaleNoteFrequency_octave (root : Q) (noteIndex : nat) (octave : Z) :
  (noteIndex < 8)%nat -> (-1074 <= octave <= 1023)%Z ->
  exists f, getScaleNoteFrequency (Fin root) noteIndex octave = Ok (Fin f)
            /\ f == root * ChordSpec.degree_ratio noteIndex * Qpower 2 octave.
Proof.
  intros Hindex Hoctave. unfold getScaleNoteFrequency.
  destruct (MAJOR_SCALE_RATIOS_row noteIndex Hindex) as (note & n & d & -> & -> & Hd & Hq).
  destruct (getFrequencyFromRatio_ratio n d root _ Hd Hq) as (f & -> & Hf).
  rewrite pow2_exact by exact Hoctave.
  cbn [mul]. eexists. split; [reflexivity|]. now rewrite Hf.
Qed.

(** X2: one octave up doubles the frequency.  For a degree of the scale,
    a root between 1 Hz and 1 MHz and an octave shift of at most a
    thousand either way, where the doubles of the source neither overflow
    nor underflow, [getScaleNoteFrequency(i, octave + 1)] is twice
    [getScaleNoteFrequency(i, octave)], for negative octaves too.  Outside
    that range the law ends: from octave 1024 on [Math.pow] returns
    Infinity, and so does the function for a positive root. *)
Theorem octave_doubles (root : Q) (noteIndex : nat) (octave : Z) :
  (noteIndex < 8)%nat -> 1 <= root <= 1000000 ->
  ((-1000 <= octave <= 1000)%Z ->
   exists f g,
     getScaleNoteFrequency (Fin root) noteIndex octave = Ok (Fin f) /\
     getScaleNoteFrequency (Fin root) noteIndex (octave + 1) = Ok (Fin g) /\
     g == 2 * f) /\
  ((1023 < octave)%Z ->
   getScaleNoteFrequency (Fin root) noteIndex octave = Ok (Inf false)).
Proof.
  intros Hindex Hroot. split.
  - intros Hoctave.
    destruct (getScaleNoteFrequency_octave root noteIndex octave Hindex ltac:(lia))
      as (f & Hf & Hfv).
    destruct (getScaleNoteFrequency_octave root noteIndex (octave + 1) Hindex ltac:(lia))
      as (g & Hg & Hgv).
    exists f, g. split; [exact Hf|]. split; [exact Hg|].
    rewrite Hgv, Hfv, Qpower_2_S. ring.
  - intros Hoctave. unfold getScaleNoteFrequency.
    destruct (MAJOR_SCALE_RATIOS_row noteIndex Hindex) as (note & n & d & -> & -> & Hd & Hq).
    destruct (getFrequencyFromRatio_ratio n d root _ Hd Hq) as (f & -> & Hf).
    unfold pow2. destruct (Z.ltb_spec 1023 octave); [|lia].
    assert (Hpositive : 0 < f).
    { rewrite Hf. apply Qmult_lt_0_compat; [lra|].
      do 8 (destruct noteIndex as [|noteIndex]; [reflexivity|]). lia. }
    cbn [mul]. rewrite Qis_zero_false by lra.
    unfold Qis_neg. destruct (Qcompare_spec f 0); try reflexivity. lra.
Qed.

Lemma octave_doubles_witness :
  exists f g,
    getScaleNoteFrequency (Fin 261.63) 2 (-1) = Ok (Fin f) /\
    getScaleNoteFrequency (Fin 261.63) 2 (-1 + 1) = Ok (Fin g) /\
    g == 2 * f.
Proof.
  refine (proj1 (octave_doubles 261.63 2 (-1) _ _) _).
  - lia.
  - split; discriminate.
  - lia.
Defined.

(** X3: the table of [getJazz7Extensions] follows one rule.  For every
    index, inside the scale or not, a major degree gets the major seventh
    and a minor degree the minor seventh, except the dominant (index 6, a
    major chord), which gets the minor seventh. *)
Theorem getJazz7Extensions_rule (noteIndex : nat) :
  getJazz7Extensions noteIndex =
  if (noteIndex =? 6)%nat then ["minorSeventh"%string]
  else if String.eqb (chordTypeOf noteIndex) "major" then ["seventh"%string]
  else ["minorSeventh"%string].
Proof.
  do 8 (destruct noteIndex as [|noteIndex]; [reflexivity|]).
  reflexivity.
Qed.

(** X4: the chord modes are layered.  For every index
    [getJazz79Extensions] returns the extensions of [getJazz7Extensions]
    followed by the ninth, and [getJazz13Extensions] the thirteenth alone. *)
Theorem getJazz79Extensions_adds_ninth (noteIndex : nat) :
  getJazz79Extensions noteIndex = getJazz7Extensions noteIndex ++ ["ninth"%string] /\
  getJazz13Extensions noteIndex = ["thirteenth"%string].
Proof.
  do 8 (destruct noteIndex as [|noteIndex]; [split; reflexivity|]).
  unfold getJazz79Extensions, getJazz7Extensions.
  split; [|reflexivity].
  now destruct (String.eqb _ _).
Qed.





Lemma same_numbers_rescaled (c a : Q) (before after : list num) (ratios : list Q) :
  same_numbers before (map (fun r => Fin (a * r)) ratios) ->
  same_numbers after (map (fun r => Fin (c * a * r)) ratios) ->
  same_numbers after (map (mul (Fin c)) before).
Proof.
  unfold same_numbers. revert before after.
  induction ratios as [|r ratios IH]; intros before after Hb Ha; cbn [map] in *.
  - inversion Hb; subst. inversion Ha; subst. constructor.
  - inversion Hb as [|x y before' ys Hxy Hrest]; subst.
    inversion Ha as [|x' y' after' ys' Hxy' Hrest']; subst.
    cbn [map]. apply List.Forall2_cons; [|now apply IH].
    destruct x; cbn [eqv] in Hxy; try contradiction.
    destruct x'; cbn [eqv] in Hxy'; try contradiction.
    cbn [mul eqv]. rewrite Hxy', Hxy. ring.
Qed.



(** ** Triggers, to the oscillator *)

Lemma set_next_oscillator_same (w : Registry) :
  set_next_oscillator (next_oscillator w) w = w.
Proof. now destruct w. Qed.

Lemma advanced_refl (w : Registry) : advanced w w.
Proof. exists (next_oscillator w). split; [lia|]. now rewrite set_next_oscillator_same. Qed.

Lemma advanced_trans (w1 w2 w3 : Registry) :
  advanced w1 w2 -> advanced w2 w3 -> advanced w1 w3.
Proof.
  intros (n & Hn & ->) (m & Hm & ->). exists m. split; [cbn in Hm; lia | reflexivity].
Qed.

Lemma advanced_by (w : Registry) (n : nat) :
  (next_oscillator w <= n)%nat -> advanced w (set_next_oscillator n w).
Proof. intros Hn. now exists n. Qed.

Lemma createSustainedNote_cases (frequency : num) (w : Registry) :
  let w' := set_next_oscillator (S (next_oscillator w)) w in
  createSustainedNote frequency w
  = (Ok {| oscillator := next_oscillator w; kind := Sustained; baseFrequency := frequency |},
     w')
  \/ exists e, createSustainedNote frequency w = (Throw e, w').
Proof.
  unfold createSustainedNote, createOscillator. rewrite bind_run.
  destruct (negb _); [right; now eexists|].
  destruct (strict_eq _ _); [right; now eexists|]. now left.
Qed.

Lemma createSubBass_cases (frequency : num) (w : Registry) :
  let w' := set_next_oscillator (S (next_oscillator w)) w in
  createSubBass frequency w
  = (Ok {| oscillator := next_oscillator w; kind := SubBass; baseFrequency := frequency |},
     w')
  \/ exists e, createSubBass frequency w = (Throw e, w').
Proof.
  unfold createSubBass, createOscillator. rewrite bind_run.
  destruct (negb _); [right; now eexists | now left].
Qed.

Lemma applyFrequencyGain_state (frequency : num) (w : Registry) :
  exists r, applyFrequencyGain frequency w = (r, w).
Proof.
  unfold applyFrequencyGain. rewrite bind_run. unfold gets.
  destruct (getFrequencyBasedGain _ _); now eexists.
Qed.

Lemma addBassNoteIfEnabled_cases (oscillators : list Voice) (noteIndex : option nat)
    (w : Registry) :
  match addBassNoteIfEnabled oscillators noteIndex w with
  | (Ok result, w') =>
      (result = oscillators /\ w' = w) \/
      (exists bass,
          result = oscillators ++ [bass] /\ oscillator bass = next_oscillator w /\
          kind bass = SubBass /\
          w' = set_next_oscillator (S (next_oscillator w)) w)
  | (Throw _, w') => advanced w w'
  end.
Proof.
  unfold addBassNoteIfEnabled. rewrite bind_run. unfold gets at 1.
  destruct noteIndex as [i|]; [|now left].
  destruct (bassMode w); [|now left].
  rewrite bind_run. unfold gets at 1. rewrite bind_run. unfold lift at 1.
  destruct (getScaleNoteFrequency _ _ _) as [rootFreq|e]; [|apply advanced_refl].
  rewrite bind_run.
  destruct (createSubBass_cases (div rootFreq (Fin 2)) w) as [-> | (e & ->)].
  - right. eexists. repeat split.
  - apply advanced_by. lia.
Qed.

Lemma createChordVoices_cases (frequencies : list num) (created : list Voice)
    (w : Registry) :
  match createChordVoices frequencies created w with
  | (Ok result, w') =>
      exists new,
        result = created ++ new /\ length new = length frequencies /\
        numbered_from (next_oscillator w) new /\
        w' = set_next_oscillator (next_oscillator w + length new) w
  | (Throw _, w') => advanced w w'
  end.
Proof.
  revert created w. induction frequencies as [|f fs IH]; intros created w.
  - cbn. exists []. rewrite app_nil_r, Nat.add_0_r, set_next_oscillator_same.
    repeat split.
  - cbn [createChordVoices]. rewrite bind_run.
    destruct (createSustainedNote_cases f w) as [-> | (e & ->)];
      [|apply advanced_by; lia].
    rewrite bind_run.
    destruct (applyFrequencyGain_state f (set_next_oscillator (S (next_oscillator w)) w))
      as ([[]|e] & ->); [|apply advanced_by; lia].
    specialize (IH (created ++ [{| oscillator := next_oscillator w; kind := Sustained;
                                   baseFrequency := f |}])
                   (set_next_oscillator (S (next_oscillator w)) w)).
    destruct (createChordVoices fs _ _) as [[result|e] w'].
    + destruct IH as (new & -> & Hlength & Hnumbered & ->).
      eexists (_ :: new). rewrite <- app_assoc. split; [reflexivity|].
      split; [cbn; now rewrite Hlength|].
      split.
      * unfold numbered_from in *. cbn [fmap list_fmap length seq oscillator].
        cbn [next_oscillator set_next_oscillator] in Hnumbered.
        f_equal. exact Hnumbered.
      * cbn [length next_oscillator set_next_oscillator]. unfold set_next_oscillator. cbn.
        f_equal. lia.
    + eapply advanced_trans; [|exact IH]. apply advanced_by. lia.
Qed.

Lemma release_existing_next (noteKey : string) (w : Registry) :
  next_oscillator (release_existing noteKey w) = next_oscillator w.
Proof. unfold release_existing. now destruct (activeNotes w !! noteKey). Qed.

Lemma release_existing_activeNotes (noteKey : string) (w : Registry) :
  activeNotes (release_existing noteKey w) = activeNotes w.
Proof. apply (release_existing_quiet noteKey w). Qed.

Lemma set_next_oscillator_twice (n m : nat) (w : Registry) :
  set_next_oscillator m (set_next_oscillator n w) = set_next_oscillator m w.
Proof. reflexivity. Qed.

Lemma startNote_result (frequency : num) (noteKey : string) (noteIndex : option nat)
    (w : Registry) :
  trigger_result noteKey w (startNote frequency noteKey noteIndex w).
Proof.
  destruct (JsObject.inherits (activeNotes w) noteKey) eqn:Hkey.
  { rewrite startNote_inherited by exact Hkey. cbn.
    rewrite release_existing_inherited by exact Hkey. apply advanced_refl. }
  remember (startNote frequency noteKey noteIndex w) as r eqn:Hr.
  unfold startNote in Hr.
  rewrite bind_run in Hr. unfold gets at 1 in Hr. rewrite bind_run in Hr.
  change (forEach ?l stopNote) with (stopChord l) in Hr.
  rewrite release_existing_run in Hr by exact Hkey.
  pose proof (release_existing_next noteKey w) as Hnext.
  set (w1 := release_existing noteKey w) in *.
  rewrite bind_run in Hr.
  destruct (createSustainedNote_cases frequency w1) as [Hv | (e & Hv)];
    rewrite Hv in Hr; [|subst r; apply advanced_by; lia].
  rewrite bind_run in Hr.
  destruct (applyFrequencyGain_state frequency (set_next_oscillator (S (next_oscillator w1)) w1))
    as ([[]|e] & Hgain); rewrite Hgain in Hr; [|subst r; apply advanced_by; lia].
  rewrite bind_run in Hr.
  pose proof (addBassNoteIfEnabled_cases
                [{| oscillator := next_oscillator w1; kind := Sustained;
                    baseFrequency := frequency |}] noteIndex
                (set_next_oscillator (S (next_oscillator w1)) w1)) as Hbass.
  destruct (addBassNoteIfEnabled _ noteIndex _) as [[oscillators|e] w3].
  - subst r. cbn. split; [reflexivity|]. exists oscillators.
    destruct Hbass as [[-> ->] | (bass & -> & Hosc & _ & ->)].
    + split; [discriminate|]. split; [unfold numbered_from; cbn; now rewrite Hnext|].
      cbn [length].
      rewrite <- Hnext, Nat.add_1_r. reflexivity.
    + split; [discriminate|]. split.
      * unfold numbered_from. cbn in *. rewrite Hosc, Hnext. reflexivity.
      * cbn [length app next_oscillator set_next_oscillator].
        rewrite <- Hnext. unfold set_next_oscillator at 1 2. cbn.
        unfold stored_under. f_equal. unfold set_next_oscillator, set_activeNotes. cbn.
        f_equal. lia.
  - subst r. cbn. eapply advanced_trans; [|exact Hbass]. apply advanced_by. lia.
Qed.

Lemma startChord_result (noteIndex : nat) (noteKey : string) (extensions : list string)
    (w : Registry) :
  trigger_result noteKey w (startChord noteIndex noteKey extensions w).
Proof.
  destruct (JsObject.inherits (activeNotes w) noteKey) eqn:Hkey.
  { rewrite startChord_inherited by exact Hkey. cbn.
    rewrite release_existing_inherited by exact Hkey. apply advanced_refl. }
  remember (startChord noteIndex noteKey extensions w) as r eqn:Hr.
  unfold startChord in Hr.
  rewrite bind_run in Hr. unfold gets at 1 in Hr. rewrite bind_run in Hr.
  rewrite release_existing_run in Hr by exact Hkey.
  pose proof (release_existing_next noteKey w) as Hnext.
  set (w1 := release_existing noteKey w) in *.
  rewrite bind_run in Hr. unfold gets at 1 in Hr.
  rewrite bind_run in Hr. unfold lift at 1 in Hr.
  destruct (buildChordFrequencies _ _ _ _) as [frequencies|e] eqn:Hbuild;
    [|subst r; apply advanced_refl].
  rewrite bind_run in Hr.
  pose proof (createChordVoices_cases frequencies [] w1) as Hcreated.
  destruct (createChordVoices frequencies [] w1) as [[created|e] w2];
    [|subst r; exact Hcreated].
  destruct Hcreated as (new & Hcreated & Hlength & Hnumbered & ->).
  cbn [app] in Hcreated. subst created.
  rewrite bind_run in Hr.
  pose proof (addBassNoteIfEnabled_cases new (Some noteIndex)
                (set_next_oscillator (next_oscillator w1 + length new) w1)) as Hbass.
  destruct (addBassNoteIfEnabled new _ _) as [[oscillators|e] w3].
  - subst r. cbn. split; [reflexivity|]. exists oscillators.
    assert (Hnew : new <> []).
    { apply buildChordFrequencies_nonempty in Hbuild.
      destruct new; [destruct frequencies; [congruence | discriminate] | discriminate]. }
    destruct Hbass as [[-> ->] | (bass & -> & Hosc & _ & ->)].
    + split; [exact Hnew|]. split; [now rewrite <- Hnext|].
      now rewrite <- Hnext.
    + split; [destruct new; discriminate|]. split.
      * unfold numbered_from in *. rewrite fmap_app, length_app, seq_app, Hnumbered.
        cbn in *. rewrite Hosc, Hnext. reflexivity.
      * rewrite length_app. cbn [length next_oscillator set_next_oscillator].
        rewrite <- Hnext. unfold stored_under. f_equal.
        unfold set_next_oscillator, set_activeNotes. cbn. f_equal. lia.
  - subst r. cbn. eapply advanced_trans; [|exact Hbass]. apply advanced_by. lia.
Qed.
(** ** Triggers outside the scale *)

(** X7: a chord on an index outside the scale.  [startChord] with an
    index of 8 or more throws a TypeError before it creates any voice:
    nothing is stored and no oscillator is created, but the entry already
    stored under the key has been released and stays in the registry. *)
Theorem startChord_outside_scale (w : Registry) (noteIndex : nat) (noteKey : string)
    (extensions : list string) :
  (8 <= noteIndex)%nat ->
  let r := startChord noteIndex noteKey extensions w in
  result_of r = Throw TypeError /\
  activeNotes (state_of r) = activeNotes w /\
  next_oscillator (state_of r) = next_oscillator w /\
  (forall existing,
      activeNotes w !! noteKey = Some existing ->
      oscillators_of existing ⊆ stopped (state_of r)).
Proof.
  intros Hindex r.
  assert (Hr : r = (Throw TypeError, release_existing noteKey w)).
  { subst r. destruct (JsObject.inherits (activeNotes w) noteKey) eqn:Hkey.
    { rewrite startChord_inherited by exact Hkey.
      now rewrite release_existing_inherited. }
    unfold startChord.
    rewrite bind_run. unfold gets at 1. rewrite bind_run.
    rewrite release_existing_run by exact Hkey.
    rewrite bind_run. unfold gets at 1. rewrite bind_run. unfold lift at 1.
    unfold buildChordFrequencies. now rewrite getScaleNoteFrequency_outside. }
  rewrite Hr. cbn [result_of state_of fst snd].
  split; [reflexivity|].
  split; [apply (release_existing_quiet noteKey w)|].
  split; [apply release_existing_next|].
  intros existing Hexisting. apply (release_existing_released noteKey w).
  now rewrite release_existing_activeNotes.
Qed.

Lemma startChord_outside_scale_witness :
  let r := startChord 8 "keyA" [] initial_registry in
  result_of r = Throw TypeError /\
  activeNotes (state_of r) = activeNotes initial_registry /\
  next_oscillator (state_of r) = next_oscillator initial_registry /\
  (forall existing,
      activeNotes initial_registry !! "keyA"%string = Some existing ->
      oscillators_of existing ⊆ stopped (state_of r)).
Proof. apply (startChord_outside_scale initial_registry 8 "keyA" []). lia. Defined.

(** X8: a note on an index outside the scale, in bass mode.  [startNote]
    looks the index up only for the bass note, after the voice of the note
    has been created and started: with bass mode on and an index of 8
    or more it throws a TypeError, and the oscillator it has created is
    neither stored in the registry nor stopped.  The key is one the
    registry holds or one that names no member of [Object.prototype]; on
    a key that only the prototype knows the call throws before it creates
    anything. *)
Theorem startNote_outside_scale_leaves_voice (w : Registry) (frequency : num)
    (noteKey : string) (noteIndex : nat) :
  playable (ROOT_FREQUENCY w) frequency -> bassMode w = true ->
  (8 <= noteIndex)%nat ->
  (JsObject.inherits (activeNotes w) noteKey = true ->
   startNote frequency noteKey (Some noteIndex) w = (Throw TypeError, w)) /\
  (JsObject.inherits (activeNotes w) noteKey = false ->
  let r := startNote frequency noteKey (Some noteIndex) w in
  result_of r = Throw TypeError /\
  activeNotes (state_of r) = activeNotes w /\
  next_oscillator (state_of r) = S (next_oscillator w) /\
  stopped (state_of r) = stopped (release_existing noteKey w)).
Proof.
  intros Hplayable Hbass Hindex. split; [apply startNote_inherited|].
  intros Hkey r.
  assert (Hr : r = (Throw TypeError,
                    set_next_oscillator (S (next_oscillator w))
                      (release_existing noteKey w))).
  { subst r. unfold startNote.
    rewrite bind_run. unfold gets at 1. rewrite bind_run.
    change (forEach ?l stopNote) with (stopChord l).
    rewrite release_existing_run by exact Hkey.
    pose proof (release_existing_next noteKey w) as Hnext.
    assert (Hroot : ROOT_FREQUENCY (release_existing noteKey w) = ROOT_FREQUENCY w).
    { unfold release_existing. now destruct (activeNotes w !! noteKey). }
    assert (Hbass' : bassMode (release_existing noteKey w) = true).
    { unfold release_existing. now destruct (activeNotes w !! noteKey). }
    set (w1 := release_existing noteKey w) in *.
    rewrite bind_run, (createSustainedNote_run (ROOT_FREQUENCY w)) by exact Hplayable.
    rewrite bind_run, applyFrequencyGain_run by (cbn; now rewrite Hroot).
    rewrite bind_run. unfold addBassNoteIfEnabled.
    rewrite bind_run. unfold gets at 1. cbn [bassMode set_next_oscillator].
    rewrite Hbass'. rewrite bind_run. unfold gets at 1.
    rewrite bind_run. unfold lift at 1.
    rewrite getScaleNoteFrequency_outside by exact Hindex.
    now rewrite Hnext. }
  rewrite Hr. cbn [result_of state_of fst snd].
  split; [reflexivity|].
  split; [apply (release_existing_quiet noteKey w)|].
  split; reflexivity.
Qed.

Lemma playable_positive (root x : Q) : 0 < root -> 0 < x -> playable (Fin root) (Fin x).
Proof.
  intros Hroot Hx. unfold playable. cbn [is_finite strict_eq].
  split; [reflexivity|]. split.
  - destruct (Qeq_bool x 0) eqn:Heq; [|reflexivity].
    apply Qeq_bool_eq in Heq. lra.
  - unfold getFrequencyBasedGain, div.
    rewrite Qis_zero_false by lra.
    assert (Hq : 0 < root / x) by (apply Qlt_shift_div_l; lra).
    rewrite Qis_zero_false by lra.
    unfold Qis_neg. destruct (Qcompare_spec (root / x) 0); try reflexivity. lra.
Qed.

Lemma startNote_outside_scale_leaves_voice_witness :
  let w := set_bassMode true initial_registry in
  let r := startNote (Fin 440) "keyA" (Some 8%nat) w in
  result_of r = Throw TypeError /\
  activeNotes (state_of r) = activeNotes w /\
  next_oscillator (state_of r) = S (next_oscillator w) /\
  stopped (state_of r) = stopped (release_existing "keyA" w).
Proof.
  refine (proj2 (startNote_outside_scale_leaves_voice (set_bassMode true initial_registry)
                   (Fin 440) "keyA" 8 _ _ _) _).
  - apply playable_positive; reflexivity.
  - reflexivity.
  - lia.
  - reflexivity.
Defined.

(** ** Trigger, then release *)

Lemma trigger_result_then_stop (noteKey returned : string) (w w1 : Registry) :
  trigger_result noteKey w (Ok returned, w1) ->
  returned = noteKey /\
  exists entry w2,
    activeNotes w1 !! noteKey = Some entry /\
    stopNoteByKey noteKey w1 = (Ok tt, w2) /\
    activeNotes w2 = delete noteKey (activeNotes w) /\
    oscillators_of entry ⊆ stopped w2 /\
    (activeNotes w !! noteKey = None -> activeNotes w2 = activeNotes w).
Proof.
  intros (-> & oscillators & Hne & _ & ->). split; [reflexivity|].
  exists oscillators. eexists. split.
  { cbn. apply lookup_insert_eq. }
  split.
  { apply (stopNoteByKey_present _ oscillators); [|exact Hne].
    cbn. apply lookup_insert_eq. }
  cbn [activeNotes stopped set_activeNotes set_stopped stored_under set_stored
       set_next_oscillator].
  rewrite delete_insert_eq, release_existing_activeNotes.
  split; [reflexivity|]. split; [set_solver|].
  intros Habsent. now apply delete_id.
Qed.

(** X9: trigger, then release.  When [startNote] or [startChord] has
    returned, [stopNoteByKey] on the same key succeeds, stops every
    oscillator of the entry the trigger stored and removes the key: the
    map of active notes is the one before the trigger without the key, so
    it is back to what it was when the key was free. *)
Theorem trigger_then_stop (w w1 : Registry) (noteKey returned : string) :
  (exists frequency noteIndex,
      startNote frequency noteKey noteIndex w = (Ok returned, w1)) \/
  (exists noteIndex extensions,
      startChord noteIndex noteKey extensions w = (Ok returned, w1)) ->
  returned = noteKey /\
  exists entry w2,
    activeNotes w1 !! noteKey = Some entry /\
    stopNoteByKey noteKey w1 = (Ok tt, w2) /\
    activeNotes w2 = delete noteKey (activeNotes w) /\
    oscillators_of entry ⊆ stopped w2 /\
    (activeNotes w !! noteKey = None -> activeNotes w2 = activeNotes w).
Proof.
  intros [(frequency & noteIndex & Hrun) | (noteIndex & extensions & Hrun)];
    apply trigger_result_then_stop; rewrite <- Hrun.
  - apply startNote_result.
  - apply startChord_result.
Qed.

Lemma trigger_then_stop_witness :
  "keyA"%string = "keyA"%string /\
  exists entry w2,
    activeNotes (state_of (startNote (Fin 440) "keyA" None initial_registry))
      !! "keyA"%string = Some entry /\
    stopNoteByKey "keyA" (state_of (startNote (Fin 440) "keyA" None initial_registry))
    = (Ok tt, w2) /\
    activeNotes w2 = delete "keyA"%string (activeNotes initial_registry) /\
    oscillators_of entry ⊆ stopped w2 /\
    (activeNotes initial_registry !! "keyA"%string = None ->
     activeNotes w2 = activeNotes initial_registry).
Proof.
  apply (trigger_then_stop initial_registry
           (state_of (startNote (Fin 440) "keyA" None initial_registry))
           "keyA" "keyA").
  left. exists (Fin 440), None. reflexivity.
Defined.
(** ** Releasing everything *)

Lemma stopNoteByKey_state (noteKey : string) (w : Registry) :
  entries_nonempty w -> JsObject.inherits (activeNotes w) noteKey = false ->
  exists w',
    stopNoteByKey noteKey w = (Ok tt, w') /\
    activeNotes w' = delete noteKey (activeNotes w) /\
    stopped w' = default ∅ (oscillators_of <$> activeNotes w !! noteKey) ∪ stopped w /\
    next_oscillator w' = next_oscillator w.
Proof.
  intros Hnonempty Hkey.
  destruct (activeNotes w !! noteKey) as [entry|] eqn:Hentry.
  - rewrite (stopNoteByKey_present _ entry) by eauto.
    eexists. split; [reflexivity|]. now cbn.
  - unfold JsObject.inherits in Hkey. rewrite Hentry in Hkey.
    rewrite stopNoteByKey_absent by assumption.
    exists w. split; [reflexivity|]. rewrite delete_id by exact Hentry.
    cbn. split; [reflexivity|]. split; [set_solver | reflexivity].
Qed.

Lemma delete_entries_nonempty (noteKey : string) (w w' : Registry) :
  activeNotes w' = delete noteKey (activeNotes w) ->
  entries_nonempty w -> entries_nonempty w'.
Proof.
  intros Hdelete Hnonempty key entry. rewrite Hdelete.
  intros Hentry. apply lookup_delete_Some in Hentry as [_ Hentry]. eauto.
Qed.

Lemma forEach_stopNoteByKey (keys : list string) (w : Registry) :
  entries_nonempty w ->
  NoDup keys -> (forall key, key ∈ keys -> is_Some (activeNotes w !! key)) ->
  exists w',
    forEach keys stopNoteByKey w = (Ok tt, w') /\
    (forall key, key ∈ keys -> activeNotes w' !! key = None) /\
    (forall key, key ∉ keys -> activeNotes w' !! key = activeNotes w !! key) /\
    (forall o, o ∈ stopped w' <->
               o ∈ stopped w \/
               exists key entry,
                 key ∈ keys /\ activeNotes w !! key = Some entry /\
                 o ∈ oscillators_of entry) /\
    next_oscillator w' = next_oscillator w.
Proof.
  revert w. induction keys as [|k keys IH]; intros w Hnonempty Hnodup Hown.
  - exists w. split; [reflexivity|].
    split; [intros key Hin; now apply elem_of_nil in Hin|].
    split; [reflexivity|]. split; [|reflexivity].
    intros o. split; [now left|].
    intros [Ho | (key & entry & Hin & _)]; [exact Ho | now apply elem_of_nil in Hin].
  - cbn [forEach]. rewrite bind_run.
    apply NoDup_cons in Hnodup as [Hfresh Hnodup].
    assert (Hk : JsObject.inherits (activeNotes w) k = false).
    { destruct (Hown k) as [entry Hentry]; [now left|].
      now apply (inherits_own _ _ entry). }
    destruct (stopNoteByKey_state k w Hnonempty Hk) as (w1 & -> & Hnotes & Hstopped & Hnext).
    assert (Hown1 : forall key, key ∈ keys -> is_Some (activeNotes w1 !! key)).
    { intros key Hin. rewrite Hnotes, lookup_delete_ne by (intros ->; contradiction).
      apply Hown. now right. }
    destruct (IH w1 (delete_entries_nonempty k w w1 Hnotes Hnonempty) Hnodup Hown1)
      as (w' & Hrun & Hgone & Hkept & Hstop & Hnext').
    exists w'. split; [exact Hrun|].
    split.
    { intros key Hin. destruct (decide (key ∈ keys)) as [Hkeys | Hkeys]; [now apply Hgone|].
      rewrite Hkept, Hnotes by exact Hkeys.
      apply elem_of_cons in Hin as [-> | Hin]; [apply lookup_delete_eq | contradiction]. }
    split.
    { intros key Hout. apply not_elem_of_cons in Hout as [Hne Hout].
      rewrite Hkept, Hnotes by exact Hout. now apply lookup_delete_ne. }
    split; [|congruence].
    intros o. rewrite Hstop, Hstopped, Hnotes. split.
    + intros [Ho | (key & entry & Hin & Hentry & Ho)].
      * apply elem_of_union in Ho as [Ho | Ho]; [|now left].
        destruct (activeNotes w !! k) as [entry|] eqn:Hentry; [|set_solver].
        right. exists k, entry. split; [now left | now split].
      * apply lookup_delete_Some in Hentry as [_ Hentry].
        right. exists key, entry. split; [now right | now split].
    + intros [Ho | (key & entry & Hin & Hentry & Ho)].
      * left. set_solver.
      * destruct (decide (key = k)) as [-> | Hne].
        -- left. rewrite Hentry. cbn. set_solver.
        -- right. exists key, entry.
           apply elem_of_cons in Hin as [-> | Hin]; [contradiction|].
           split; [exact Hin|]. split; [|exact Ho].
           now rewrite lookup_delete_ne by congruence.
Qed.

(** X10: [stopAllNotes] releases everything.  On a registry with no
    empty entry, which is every registry the page can reach,
    [stopAllNotes] returns, leaves no key in the map of active notes and
    has stopped exactly the oscillators that were stopped before and those
    of the entries it found; it creates no oscillator. *)
Theorem stopAllNotes_releases_everything :
  (forall w : Registry,
      entries_nonempty w ->
      exists w',
        stopAllNotes w = (Ok tt, w') /\
        activeNotes w' = ∅ /\
        (forall o, o ∈ stopped w' <->
                   o ∈ stopped w \/
                   exists noteKey entry,
                     activeNotes w !! noteKey = Some entry /\ o ∈ oscillators_of entry) /\
        next_oscillator w' = next_oscillator w)
  /\
  (forall calls : list RegistryCall, entries_nonempty (perform_all calls initial_registry)).
Proof.
  split; [|apply perform_all_nonempty].
  intros w Hnonempty. unfold stopAllNotes. rewrite bind_run. unfold gets.
  assert (Hown : forall key,
             key ∈ (map_to_list (activeNotes w)).*1 -> is_Some (activeNotes w !! key)).
  { intros key Hin. apply list_elem_of_fmap in Hin as ([key' entry] & -> & Hin).
    apply elem_of_map_to_list in Hin. now exists entry. }
  destruct (forEach_stopNoteByKey (map_to_list (activeNotes w)).*1 w Hnonempty
              (NoDup_fst_map_to_list _) Hown)
    as (w' & Hrun & Hgone & Hkept & Hstop & Hnext).
  assert (Hkeys : forall key entry,
             activeNotes w !! key = Some entry -> key ∈ (map_to_list (activeNotes w)).*1).
  { intros key entry Hentry. apply list_elem_of_fmap. exists (key, entry).
    split; [reflexivity|]. now apply elem_of_map_to_list. }
  exists w'. split; [exact Hrun|].
  split.
  { apply map_empty. intros key.
    destruct (decide (key ∈ (map_to_list (activeNotes w)).*1)) as [Hin | Hout];
      [now apply Hgone|].
    rewrite Hkept by exact Hout.
    destruct (activeNotes w !! key) as [entry|] eqn:Hentry; [|reflexivity].
    exfalso. eauto. }
  split; [|exact Hnext].
  intros o. rewrite Hstop. split.
  - intros [Ho | (key & entry & _ & Hentry & Ho)]; [now left | right; eauto].
  - intros [Ho | (key & entry & Hentry & Ho)]; [now left|].
    right. exists key, entry. eauto.
Qed.

Lemma stopAllNotes_releases_everything_witness :
  exists w',
    stopAllNotes (perform_all [CallStartNote (Fin 440) "keyA" None;
                               CallStartChord 2 "keyB" []] initial_registry)
    = (Ok tt, w') /\ activeNotes w' = ∅.
Proof.
  destruct stopAllNotes_releases_everything as [Hall Hreach].
  destruct (Hall (perform_all [CallStartNote (Fin 440) "keyA" None;
                               CallStartChord 2 "keyB" []] initial_registry)
                 (Hreach _)) as (w' & Hrun & Hempty & _).
  exists w'. now split.
Defined.

(** ** No oscillator in two places *)

Lemma numbered_from_lookup (first : nat) (voices : list Voice) (i : nat) (v : Voice) :
  numbered_from first voices -> voices !! i = Some v -> oscillator v = (first + i)%nat.
Proof.
  unfold numbered_from. intros Hnumbered Hv.
  assert (Hi : (oscillator <$> voices) !! i = Some (oscillator v))
    by now rewrite list_lookup_fmap, Hv.
  rewrite Hnumbered in Hi. apply lookup_seq in Hi as [-> _]. reflexivity.
Qed.

Lemma advanced_well_numbered (w w' : Registry) :
  advanced w w' -> well_numbered_registry w -> well_numbered_registry w'.
Proof.
  intros (n & Hn & ->) [Hbelow Hshared]. split.
  - intros key entry v Hentry Hv. cbn in *. specialize (Hbelow key entry v Hentry Hv). lia.
  - exact Hshared.
Qed.

Lemma release_existing_well_numbered (noteKey : string) (w : Registry) :
  well_numbered_registry w -> well_numbered_registry (release_existing noteKey w).
Proof.
  unfold release_existing. now destruct (activeNotes w !! noteKey).
Qed.

Lemma trigger_result_well_numbered (noteKey : string) (w : Registry)
    (r : Result string * Registry) :
  trigger_result noteKey w r -> well_numbered_registry w ->
  well_numbered_registry (state_of r).
Proof.
  destruct r as [[returned|e] w']; cbn [trigger_result state_of snd].
  - intros (_ & oscillators & _ & Hnumbered & ->) [Hbelow Hshared].
    assert (Hnew : forall i v, oscillators !! i = Some v ->
                     oscillator v = (next_oscillator w + i)%nat /\
                     (i < length oscillators)%nat).
    { intros i v Hv. split; [now apply (numbered_from_lookup _ oscillators)|].
      now apply lookup_lt_Some in Hv. }
    assert (Hold : forall key entry i v,
               activeNotes w !! key = Some entry -> entry !! i = Some v ->
               (oscillator v < next_oscillator w)%nat).
    { intros key entry i v Hentry Hv. apply (Hbelow key entry v Hentry).
      now apply list_elem_of_lookup_2 in Hv. }
    split.
    + intros key entry v. cbn. rewrite release_existing_activeNotes.
      intros Hentry Hv. apply list_elem_of_lookup in Hv as (i & Hv).
      destruct (decide (key = noteKey)) as [-> | Hne].
      * rewrite lookup_insert_eq in Hentry. injection Hentry as <-.
        destruct (Hnew i v Hv). lia.
      * rewrite lookup_insert_ne in Hentry by congruence.
        specialize (Hold key entry i v Hentry Hv). lia.
    + intros key1 key2 entry1 entry2 i1 i2 v1 v2. cbn.
      rewrite release_existing_activeNotes. intros Hentry1 Hentry2 Hv1 Hv2 Hosc.
      destruct (decide (key1 = noteKey)) as [-> | Hne1];
        destruct (decide (key2 = noteKey)) as [-> | Hne2].
      * rewrite lookup_insert_eq in Hentry1, Hentry2.
        injection Hentry1 as <-. injection Hentry2 as <-.
        destruct (Hnew i1 v1 Hv1), (Hnew i2 v2 Hv2). split; [reflexivity | lia].
      * rewrite lookup_insert_eq in Hentry1. injection Hentry1 as <-.
        rewrite lookup_insert_ne in Hentry2 by congruence.
        destruct (Hnew i1 v1 Hv1). specialize (Hold key2 entry2 i2 v2 Hentry2 Hv2). lia.
      * rewrite lookup_insert_eq in Hentry2. injection Hentry2 as <-.
        rewrite lookup_insert_ne in Hentry1 by congruence.
        destruct (Hnew i2 v2 Hv2). specialize (Hold key1 entry1 i1 v1 Hentry1 Hv1). lia.
      * rewrite lookup_insert_ne in Hentry1, Hentry2 by congruence.
        now apply (Hshared key1 key2 entry1 entry2 i1 i2 v1 v2).
  - intros Hadvanced Hwell. eapply advanced_well_numbered; [exact Hadvanced|].
    now apply release_existing_well_numbered.
Qed.

Lemma stopNoteByKey_cases (noteKey : string) (w : Registry) :
  state_of (stopNoteByKey noteKey w) = w \/
  exists entry,
    activeNotes w !! noteKey = Some entry /\
    state_of (stopNoteByKey noteKey w)
    = set_activeNotes (delete noteKey (activeNotes w))
        (set_stopped (oscillators_of entry ∪ stopped w) w).
Proof.
  destruct (activeNotes w !! noteKey) as [[|v rest]|] eqn:Hentry.
  - left. now rewrite stopNoteByKey_empty_entry.
  - right. exists (v :: rest). split; [reflexivity|].
    now rewrite (stopNoteByKey_present _ (v :: rest)).
  - left. destruct (JsObject.inherited noteKey) eqn:Hplain.
    + rewrite stopNoteByKey_inherited; [reflexivity|].
      unfold JsObject.inherits. now rewrite Hentry.
    + now rewrite stopNoteByKey_absent.
Qed.

Lemma stopNoteByKey_well_numbered (noteKey : string) (w : Registry) :
  well_numbered_registry w -> well_numbered_registry (state_of (stopNoteByKey noteKey w)).
Proof.
  intros [Hbelow Hshared].
  destruct (stopNoteByKey_cases noteKey w) as [-> | (entry & _ & ->)]; [now split|].
  split.
  - intros key entry' v. cbn. intros Hentry Hv.
    apply lookup_delete_Some in Hentry as [_ Hentry]. now apply (Hbelow key entry').
  - intros key1 key2 entry1 entry2 i1 i2 v1 v2. cbn. intros Hentry1 Hentry2.
    apply lookup_delete_Some in Hentry1 as [_ Hentry1].
    apply lookup_delete_Some in Hentry2 as [_ Hentry2].
    now apply Hshared.
Qed.

Lemma perform_well_numbered (c : RegistryCall) (w : Registry) :
  well_numbered_registry w -> well_numbered_registry (perform c w).
Proof.
  intros Hwell. destruct c; cbn [perform].
  - eapply trigger_result_well_numbered; [apply startNote_result | exact Hwell].
  - eapply trigger_result_well_numbered; [apply startChord_result | exact Hwell].
  - now apply stopNoteByKey_well_numbered.
  - unfold stopAllNotes. rewrite bind_run. unfold gets.
    apply forEach_invariant; [|exact Hwell].
    intros key w'. apply stopNoteByKey_well_numbered.
  - exact Hwell.
  - exact Hwell.
Qed.

Lemma perform_all_well_numbered (calls : list RegistryCall) (w : Registry) :
  well_numbered_registry w -> well_numbered_registry (perform_all calls w).
Proof.
  revert w. induction calls as [|c calls IH]; intros w Hwell; [exact Hwell|].
  cbn [perform_all fold_left]. apply IH. now apply perform_well_numbered.
Qed.

Lemma initial_registry_well_numbered : well_numbered_registry initial_registry.
Proof.
  split.
  - intros key entry v Hentry. cbn in Hentry. now rewrite lookup_empty in Hentry.
  - intros key1 key2 entry1 entry2 i1 i2 v1 v2 Hentry. cbn in Hentry.
    now rewrite lookup_empty in Hentry.
Qed.

Lemma elem_of_oscillators_of (o : nat) (entry : list Voice) :
  o ∈ oscillators_of entry <-> exists i v, entry !! i = Some v /\ oscillator v = o.
Proof.
  unfold oscillators_of. rewrite elem_of_list_to_set, list_elem_of_fmap. split.
  - intros (v & -> & Hv). apply list_elem_of_lookup in Hv as (i & Hv). eauto.
  - intros (i & v & Hv & <-). exists v. split; [reflexivity|].
    now apply list_elem_of_lookup_2 in Hv.
Qed.

(** X11: keys never share a voice.  In every state the page can reach
    from a fresh load, an oscillator sits at one place of the registry
    only: under one key and at one position of its entry.  Hence
    releasing a key with [stopNoteByKey] stops no oscillator of an entry
    stored under another key. *)
Theorem keys_never_share_a_voice (calls : list RegistryCall) :
  let w := perform_all calls initial_registry in
  no_shared_oscillator w /\
  (forall noteKey other entry v,
      other <> noteKey -> activeNotes w !! other = Some entry -> v ∈ entry ->
      oscillator v ∉ stopped w ->
      oscillator v ∉ stopped (state_of (stopNoteByKey noteKey w))).
Proof.
  intros w.
  assert (Hwell : well_numbered_registry w)
    by apply perform_all_well_numbered, initial_registry_well_numbered.
  destruct Hwell as [_ Hshared]. split; [exact Hshared|].
  intros noteKey other entry v Hne Hentry Hv Hsounding.
  destruct (stopNoteByKey_cases noteKey w) as [-> | (released & Hreleased & ->)];
    [exact Hsounding|].
  cbn. intros Hin. apply elem_of_union in Hin as [Hin | Hin]; [|contradiction].
  apply elem_of_oscillators_of in Hin as (i & v' & Hv' & Hosc).
  apply list_elem_of_lookup in Hv as (j & Hv).
  destruct (Hshared noteKey other released entry i j v' v Hreleased Hentry Hv' Hv Hosc).
  congruence.
Qed.

Lemma keys_never_share_a_voice_witness :
  let w := perform_all [CallStartNote (Fin 440) "keyA" None;
                        CallStartNote (Fin 660) "keyB" None] initial_registry in
  let v := {| oscillator := 1; kind := Sustained; baseFrequency := Fin 660 |} in
  oscillator v ∉ stopped (state_of (stopNoteByKey "keyA" w)).
Proof.
  intros w v.
  destruct (keys_never_share_a_voice
              [CallStartNote (Fin 440) "keyA" None;
               CallStartNote (Fin 660) "keyB" None]) as [_ Hother].
  apply (Hother "keyA"%string "keyB"%string [v] v).
  - discriminate.
  - reflexivity.
  - apply list_elem_of_singleton. reflexivity.
  - vm_compute. discriminate.
Defined.
(** ** Forgetting the registry *)

Lemma release_existing_kept (bound : nat) (noteKey : string) (w0 w : Registry) :
  forgotten_kept bound w0 w -> forgotten_kept bound w0 (release_existing noteKey w).
Proof.
  intros (Hfrom & Hnext & Hstopped). unfold release_existing.
  destruct (activeNotes w !! noteKey) as [existing|] eqn:Hexisting; [|now split].
  split; [exact Hfrom|]. split; [exact Hnext|].
  intros o Ho. cbn. intros Hin. apply elem_of_union in Hin as [Hin | Hin]; [|now apply Hstopped].
  apply elem_of_oscillators_of in Hin as (i & v & Hv & <-).
  apply list_elem_of_lookup_2 in Hv. specialize (Hfrom noteKey existing v Hexisting Hv). lia.
Qed.

Lemma advanced_kept (bound : nat) (w0 w w' : Registry) :
  advanced w w' -> forgotten_kept bound w0 w -> forgotten_kept bound w0 w'.
Proof.
  intros (n & Hn & ->) (Hfrom & Hnext & Hstopped).
  split; [exact Hfrom|]. split; [cbn; lia | exact Hstopped].
Qed.

Lemma trigger_result_kept (bound : nat) (noteKey : string) (w0 w : Registry)
    (r : Result string * Registry) :
  trigger_result noteKey w r -> forgotten_kept bound w0 w ->
  forgotten_kept bound w0 (state_of r).
Proof.
  destruct r as [[returned|e] w']; cbn [trigger_result state_of snd].
  - intros (_ & oscillators & _ & Hnumbered & ->) Hkept.
    pose proof (release_existing_kept bound noteKey w0 w Hkept) as (Hfrom & _ & Hstopped).
    destruct Hkept as (_ & Hnext & _).
    split.
    + intros key entry v. cbn. intros Hentry Hv.
      destruct (decide (key = noteKey)) as [-> | Hne].
      * rewrite lookup_insert_eq in Hentry. injection Hentry as <-.
        apply list_elem_of_lookup in Hv as (i & Hv).
        rewrite (numbered_from_lookup _ _ _ _ Hnumbered Hv). lia.
      * rewrite lookup_insert_ne in Hentry by congruence.
        now apply (Hfrom key entry v).
    + split; [cbn; lia | exact Hstopped].
  - intros Hadvanced Hkept. eapply advanced_kept; [exact Hadvanced|].
    now apply release_existing_kept.
Qed.

Lemma stopNoteByKey_kept (bound : nat) (noteKey : string) (w0 w : Registry) :
  forgotten_kept bound w0 w -> forgotten_kept bound w0 (state_of (stopNoteByKey noteKey w)).
Proof.
  intros Hkept.
  destruct (stopNoteByKey_cases noteKey w) as [-> | (entry & Hentry & ->)]; [exact Hkept|].
  destruct Hkept as (Hfrom & Hnext & Hstopped). split.
  - intros key entry' v. cbn. intros Hentry' Hv.
    apply lookup_delete_Some in Hentry' as [_ Hentry']. now apply (Hfrom key entry').
  - split; [exact Hnext|].
    intros o Ho. cbn. intros Hin.
    apply elem_of_union in Hin as [Hin | Hin]; [|now apply Hstopped].
    apply elem_of_oscillators_of in Hin as (i & v & Hv & <-).
    apply list_elem_of_lookup_2 in Hv. specialize (Hfrom noteKey entry v Hentry Hv). lia.
Qed.

Lemma perform_kept (bound : nat) (c : RegistryCall) (w0 w : Registry) :
  forgotten_kept bound w0 w -> forgotten_kept bound w0 (perform c w).
Proof.
  intros Hkept. destruct c; cbn [perform].
  - eapply trigger_result_kept; [apply startNote_result | exact Hkept].
  - eapply trigger_result_kept; [apply startChord_result | exact Hkept].
  - now apply stopNoteByKey_kept.
  - unfold stopAllNotes. rewrite bind_run. unfold gets.
    apply (forEach_invariant (forgotten_kept bound w0)); [|exact Hkept].
    intros key w'. apply stopNoteByKey_kept.
  - exact Hkept.
  - exact Hkept.
Qed.

Lemma perform_all_kept (bound : nat) (calls : list RegistryCall) (w0 w : Registry) :
  forgotten_kept bound w0 w -> forgotten_kept bound w0 (perform_all calls w).
Proof.
  revert w. induction calls as [|c calls IH]; intros w Hkept; [exact Hkept|].
  cbn [perform_all fold_left]. apply IH. now apply perform_kept.
Qed.

(** X12: [clearActiveNotes] forgets, it does not release.  It empties
    the map of active notes and stops nothing; and whatever the page calls
    on the registry afterwards (triggers, [stopNoteByKey], [stopAllNotes],
    retuning, bass mode), an oscillator that existed and was not stopped
    when [clearActiveNotes] ran is never stopped. *)
Theorem clearActiveNotes_forgets (w : Registry) (calls : list RegistryCall) (o : nat) :
  let w0 := state_of (clearActiveNotes w) in
  activeNotes w0 = ∅ /\ stopped w0 = stopped w /\
  ((o < next_oscillator w)%nat -> o ∉ stopped w -> o ∉ stopped (perform_all calls w0)).
Proof.
  intros w0. split; [reflexivity|]. split; [reflexivity|].
  intros Ho Hsounding Hin.
  assert (Hkept : forgotten_kept (next_oscillator w) w0 w0).
  { split.
    - intros key entry v Hentry. cbn in Hentry. now rewrite lookup_empty in Hentry.
    - split; [cbn; lia|]. now intros o' _ Ho'. }
  apply (perform_all_kept _ calls) in Hkept as (_ & _ & Hstopped).
  apply Hsounding. now apply (Hstopped o).
Qed.

Lemma clearActiveNotes_forgets_witness :
  let w := state_of (startNote (Fin 440) "keyA" None initial_registry) in
  0%nat ∉ stopped (perform_all [CallStopNoteByKey "keyA"; CallStopAllNotes]
                     (state_of (clearActiveNotes w))).
Proof.
  intros w.
  apply (clearActiveNotes_forgets w [CallStopNoteByKey "keyA"; CallStopAllNotes] 0).
  - vm_compute. lia.
  - vm_compute. discriminate.
Defined.

(** ** The bass voice *)







(** ** Pitch bend *)










(** ** More of the gate on the sample platform *)

Lemma sample_random_range (n : nat) : 0 <= sample_random n < 1.
Proof.
  unfold sample_random.
  assert (H : (0 <= Z.of_nat (n mod 7) < 7)%Z).
  { pose proof (Nat.mod_upper_bound n 7). lia. }
  split.
  - apply Qle_shift_div_l; [reflexivity|]. rewrite Qmult_0_l.
    change 0 with (inject_Z 0). rewrite <- Zle_Qle. lia.
  - apply Qlt_shift_div_r; [reflexivity|]. rewrite Qmult_1_l.
    change 7 with (inject_Z 7). rewrite <- Zlt_Qlt. lia.
Qed.

Lemma gate_cursor_stays_in_sequence_witness :
  let w := gate_perform_all sample_sin sample_PI sample_ceil sample_random
             [CallUpdateGateSpeedSequence (Some [NVStr "8"; NVStr "4T"]) true;
              CallUpdateGateAmount 50; TimerDue 1]
             (initial_gate 44100) in
  gateSpeedSequence w ≡ₚ gateBaseSequence w /\
  exists noteValue,
    gateSpeedSequence w !! gateSequenceIndex w = Some noteValue /\
    element_at (gateSpeedSequence w) (gateSequenceIndex w) = noteValue /\
    noteValue ∈ gateBaseSequence w.
Proof.
  apply (gate_cursor_stays_in_sequence sample_sin sample_PI sample_ceil sample_random
           [CallUpdateGateSpeedSequence (Some [NVStr "8"; NVStr "4T"]) true;
            CallUpdateGateAmount 50; TimerDue 1] 44100).
  exact sample_random_range.
Defined.

Lemma bad_token_ends_gate_loop_witness :
  exists e w',
    fire_timer sample_sin sample_PI sample_ceil sample_random 2 gate_on_zero_token = (Throw e, w') /\
    timers w' = ∅ /\ gateSequenceIndex w' = gateSequenceIndex gate_on_zero_token.
Proof.
  refine (proj2 (bad_token_ends_gate_loop sample_sin sample_PI sample_ceil sample_random
                   gate_on_zero_token 2 _ _ _ _) _ _).
  - discriminate.
  - discriminate.
  - reflexivity.
  - intros speed Hspeed. vm_compute in Hspeed. discriminate Hspeed.
  - intros id [delay Hid]. cbn [timers gate_on_zero_token] in Hid.
    apply lookup_singleton_Some in Hid as [<- _]. reflexivity.
  - exists 125. reflexivity.
Defined.

Lemma updateGateSpeed_installs_valid_value_witness :
  gateBaseSequence (state_of (updateGateSpeed sample_sin sample_PI sample_ceil sample_random (Fin 0)
                                (initial_gate 44100)))
  = [NVNum (Fin 16)].
Proof.
  refine (proj2 (proj2 (proj2 (updateGateSpeed_installs_valid_value
                                 sample_sin sample_PI sample_ceil sample_random (Fin 0)
                                 (initial_gate 44100)))) _).
  right. exists 0. split; reflexivity.
Defined.


Lemma gate_perform_all_two (Math_sin : Q -> Q) (Math_PI : Q) (Math_ceil : Q -> Z)
    (Math_random : nat -> Q)
    (c1 c2 : GateCall) (w : Gate) :
  gate_perform_all Math_sin Math_PI Math_ceil Math_random [c1; c2] w
  = gate_perform Math_sin Math_PI Math_ceil Math_random c2
      (gate_perform Math_sin Math_PI Math_ceil Math_random c1 w).
Proof. reflexivity. Qed.

Lemma gate_perform_amount (Math_sin : Q -> Q) (Math_PI : Q) (Math_ceil : Q -> Z)
    (Math_random : nat -> Q)
    (amount : Q) (w : Gate) :
  gate_perform Math_sin Math_PI Math_ceil Math_random (CallUpdateGateAmount amount) w
  = state_of (updateGateAmount Math_sin Math_PI Math_ceil Math_random amount w).
Proof. reflexivity. Qed.

Lemma gate_perform_sequence (Math_sin : Q -> Q) (Math_PI : Q) (Math_ceil : Q -> Z)
    (Math_random : nat -> Q)
    (sequence : option (list NoteValue)) (randomEnabled : bool) (w : Gate) :
  gate_perform Math_sin Math_PI Math_ceil Math_random
    (CallUpdateGateSpeedSequence sequence randomEnabled) w
  = state_of (updateGateSpeedSequence Math_sin Math_PI Math_ceil Math_random sequence randomEnabled w).
Proof. reflexivity. Qed.

Lemma sample_gate_restarted :
  gate_perform_all sample_sin sample_PI sample_ceil sample_random
    [CallUpdateGateAmount 50; CallUpdateGateSpeedSequence (Some []) false]
    (initial_gate 44100)
  = state_of (updateGateSpeedSequence sample_sin sample_PI sample_ceil sample_random
                (Some []) false gate_at_half).
Proof.
  rewrite gate_perform_all_two, gate_perform_sequence, gate_perform_amount.
  unfold gate_at_half. exact eq_refl.
Qed.

Lemma sample_gate_restarted_timer :
  is_Some (timers (gate_perform_all sample_sin sample_PI sample_ceil sample_random
                     [CallUpdateGateAmount 50; CallUpdateGateSpeedSequence (Some []) false]
                     (initial_gate 44100))
           !! next_timer gate_at_half).
Proof.
  destruct gate_at_half_settings as (Ha & Hbpm & Hrate).
  pose proof (updateGateSpeedSequence_empty_restarts sample_sin sample_PI sample_ceil sample_random
                gate_at_half false 120) as H.
  rewrite Ha, Hrate in H. unfold bpm_or_default in H. rewrite Hbpm in H.
  specialize (H ltac:(discriminate) eq_refl eq_refl ltac:(vm_compute; discriminate)).
  cbv zeta in H.
  destruct H as (_ & _ & Htimers & _).
  rewrite sample_gate_restarted, Htimers. eexists. exact eq_refl.
Qed.

Lemma gate_has_one_timer_at_most_witness :
  is_Some (timers (gate_perform_all sample_sin sample_PI sample_ceil sample_random
                     [CallUpdateGateAmount 50; CallUpdateGateSpeedSequence (Some []) false]
                     (initial_gate 44100))
           !! next_timer gate_at_half) /\
  gateTimeout (gate_perform_all sample_sin sample_PI sample_ceil sample_random
                 [CallUpdateGateAmount 50; CallUpdateGateSpeedSequence (Some []) false]
                 (initial_gate 44100))
  = Some (next_timer gate_at_half).
Proof.
  split; [exact sample_gate_restarted_timer|].
  exact (proj2 (gate_has_one_timer_at_most sample_sin sample_PI sample_ceil sample_random
                  [CallUpdateGateAmount 50; CallUpdateGateSpeedSequence (Some []) false]
                  44100 (next_timer gate_at_half) (next_timer gate_at_half)
                  sample_gate_restarted_timer sample_gate_restarted_timer)).
Defined.

(** ** The sound manager of the growl bass page *)

Lemma manager_frequency_same_root (root : num) (r : JsRatio) :
  MusicSoundManager.getFrequencyFromRatio root r (Some root) = getFrequencyFromRatio r root.
Proof.
  unfold MusicSoundManager.getFrequencyFromRatio, getFrequencyFromRatio.
  now destruct (truthy root).
Qed.

Lemma manager_frequency_truthy (root f : num) (r : JsRatio) :
  truthy f = true ->
  MusicSoundManager.getFrequencyFromRatio root r (Some f) = getFrequencyFromRatio r f.
Proof.
  intros Hf. unfold MusicSoundManager.getFrequencyFromRatio, getFrequencyFromRatio.
  now rewrite Hf.
Qed.

Lemma truthy_positive (g : Q) : 0 < g -> truthy (Fin g) = true.
Proof. intros Hg. cbn. rewrite Qis_zero_false; [reflexivity | lra]. Qed.

Lemma manager_scale_shift (root : num) (noteIndex : nat) (octave : Z) :
  (noteIndex < 8)%nat ->
  MusicSoundManager.getScaleNoteFrequency root (noteIndex + 4) octave
  = getScaleNoteFrequency root noteIndex octave.
Proof.
  intros Hindex.
  unfold MusicSoundManager.getScaleNoteFrequency, getScaleNoteFrequency.
  rewrite Z.add_0_r.
  do 8 (destruct noteIndex as [|noteIndex];
        [cbn [Nat.add lookup list_lookup MusicSoundManager.MAJOR_SCALE_RATIOS
              MAJOR_SCALE_RATIOS note_ratio];
         now rewrite manager_frequency_same_root|]).
  lia.
Qed.

Lemma manager_chordType_shift (noteIndex : nat) :
  (noteIndex < 8)%nat ->
  MusicSoundManager.chordTypeOf (noteIndex + 4) = chordTypeOf noteIndex.
Proof.
  intros Hindex. do 8 (destruct noteIndex as [|noteIndex]; [reflexivity|]). lia.
Qed.

(** X20: the manager's scale is the page's scale, four keys up.  For a
    positive root, the keys 4 to 11 of the sixteen keys of
    [MusicSoundManager] are the eight degrees of the page: the same
    frequency at every octave, the same Jazz79 extensions, and for every
    list of extensions the same chord frequencies as
    [createChordWithExtensions] returns. *)
Theorem manager_scale_is_page_scale_shifted (root : Q) (noteIndex : nat) :
  0 < root -> (noteIndex < 8)%nat ->
  (forall octave,
      MusicSoundManager.getScaleNoteFrequency (Fin root) (noteIndex + 4) octave
      = getScaleNoteFrequency (Fin root) noteIndex octave) /\
  MusicSoundManager.getJazz79Extensions (noteIndex + 4) = getJazz79Extensions noteIndex /\
  (forall extensions,
      MusicSoundManager.buildChordFrequencies (Fin root) (noteIndex + 4) extensions
      = createChordWithExtensions (Fin root) noteIndex extensions).
Proof.
  intros Hroot Hindex.
  split; [intros octave; now apply manager_scale_shift|].
  split.
  { do 8 (destruct noteIndex as [|noteIndex]; [reflexivity|]). lia. }
  intros extensions.
  unfold MusicSoundManager.buildChordFrequencies, createChordWithExtensions,
    buildChordFrequencies.
  rewrite manager_scale_shift, manager_chordType_shift by exact Hindex.
  destruct (getScaleNoteFrequency_degree root noteIndex Hindex) as (f & -> & Hf).
  assert (Hpositive : 0 < f).
  { rewrite Hf. apply Qmult_lt_0_compat; [exact Hroot|].
    do 8 (destruct noteIndex as [|noteIndex]; [reflexivity|]). lia. }
  destruct (chordTypeOf_name noteIndex Hindex) as (t & ->).
  change MusicSoundManager.CHORD_INTERVALS with CHORD_INTERVALS.
  destruct (triad_frequencies f f t (Qeq_refl f)) as (elems & -> & _).
  cbn [elements_of]. f_equal. f_equal.
  - apply map_ext. intros interval. now apply manager_frequency_truthy, truthy_positive.
  - apply flat_map_ext. intros ext.
    destruct (table_entry CHORD_INTERVALS ext); [|reflexivity].
    f_equal. now apply manager_frequency_truthy, truthy_positive.
Qed.

Lemma manager_scale_is_page_scale_shifted_witness :
  MusicSoundManager.getJazz79Extensions (2 + 4) = getJazz79Extensions 2 /\
  MusicSoundManager.buildChordFrequencies (Fin 261.63) (2 + 4) ["seventh"; "ninth"]%string
  = createChordWithExtensions (Fin 261.63) 2 ["seventh"; "ninth"]%string.
Proof.
  refine ((fun H => conj (proj1 (proj2 H)) (proj2 (proj2 H) _))
            (manager_scale_is_page_scale_shifted 261.63 2 _ _)).
  - reflexivity.
  - lia.
Defined.

Lemma manager_scale_positive (root : Q) (noteIndex : nat) :
  0 < root -> (noteIndex < 16)%nat ->
  exists g, MusicSoundManager.getScaleNoteFrequency (Fin root) noteIndex 0 = Ok (Fin g)
            /\ 0 < g.
Proof.
  intros Hroot Hindex. unfold MusicSoundManager.getScaleNoteFrequency.
  do 16 (destruct noteIndex as [|noteIndex];
    [ cbn [lookup list_lookup MusicSoundManager.MAJOR_SCALE_RATIOS note_ratio];
      rewrite manager_frequency_same_root;
      match goal with
      | |- context [getFrequencyFromRatio (ratio ?n ?d) (Fin root)] =>
          destruct (getFrequencyFromRatio_ratio n d root (inject_Z n / inject_Z d))
            as (f & -> & Hf); [discriminate | reflexivity |]
      end;
      change (pow2 (0 + 0)) with (Fin 1);
      cbn [mul]; eexists; split; [reflexivity|];
      rewrite Hf;
      apply Qmult_lt_0_compat; [|reflexivity];
      apply Qmult_lt_0_compat; [exact Hroot | reflexivity] | ]).
  lia.
Qed.

Lemma manager_scale_octave (root : Q) (noteIndex : nat) :
  (noteIndex < 9)%nat ->
  exists g g',
    MusicSoundManager.getScaleNoteFrequency (Fin root) noteIndex 0 = Ok (Fin g) /\
    MusicSoundManager.getScaleNoteFrequency (Fin root) (noteIndex + 7) 0 = Ok (Fin g') /\
    g' == 2 * g.
Proof.
  intros Hindex. unfold MusicSoundManager.getScaleNoteFrequency.
  do 9 (destruct noteIndex as [|noteIndex];
    [ cbn [Nat.add lookup list_lookup MusicSoundManager.MAJOR_SCALE_RATIOS note_ratio];
      rewrite !manager_frequency_same_root;
      repeat match goal with
      | |- context [getFrequencyFromRatio (ratio ?n ?d) (Fin root)] =>
          let f := fresh "f" in
          let Hf := fresh "Hf" in
          destruct (getFrequencyFromRatio_ratio n d root (inject_Z n / inject_Z d))
            as (f & -> & Hf); [discriminate | reflexivity |]
      end;
      change (pow2 (0 + 0)) with (Fin 1);
      cbn [mul]; eexists _, _; split; [reflexivity|]; split; [reflexivity|];
      repeat match goal with H : _ == _ |- _ => rewrite H; clear H end;
      field | ]).
  lia.
Qed.

Lemma manager_chordType_name (noteIndex : nat) :
  (noteIndex < 16)%nat ->
  exists t, MusicSoundManager.chordTypeOf noteIndex = ChordSpec.chordType_name t.
Proof.
  intros Hindex.
  do 16 (destruct noteIndex as [|noteIndex];
         [ first [ now exists ChordSpec.major | now exists ChordSpec.minor ] | ]).
  lia.
Qed.

(** A chord of the manager, in the terms of the page's table: the triad
    of the key's chord type, then what each extension name adds. *)
Lemma manager_chord_shape (root : Q) (noteIndex : nat) (extensions : list string) :
  0 < root -> (noteIndex < 16)%nat ->
  exists g t elems,
    MusicSoundManager.getScaleNoteFrequency (Fin root) noteIndex 0 = Ok (Fin g) /\ 0 < g /\
    MusicSoundManager.chordTypeOf noteIndex = ChordSpec.chordType_name t /\
    table_entry CHORD_INTERVALS (ChordSpec.chordType_name t) = Some (RArray elems) /\
    MusicSoundManager.buildChordFrequencies (Fin root) noteIndex extensions
    = Ok (map (fun interval => getFrequencyFromRatio interval (Fin g)) elems ++
          flat_map (fun ext =>
            match table_entry CHORD_INTERVALS ext with
            | Some r => [getFrequencyFromRatio r (Fin g)]
            | None => []
            end) extensions).
Proof.
  intros Hroot Hindex.
  destruct (manager_scale_positive root noteIndex Hroot Hindex) as (g & Hg & Hpositive).
  destruct (manager_chordType_name noteIndex Hindex) as (t & Htype).
  destruct (triad_frequencies g g t (Qeq_refl g)) as (elems & Helems & _).
  exists g, t, elems. unfold MusicSoundManager.buildChordFrequencies.
  rewrite Hg, Htype. change MusicSoundManager.CHORD_INTERVALS with CHORD_INTERVALS.
  rewrite Helems. cbn [elements_of].
  split; [reflexivity|]. split; [exact Hpositive|]. split; [reflexivity|].
  split; [reflexivity|]. f_equal. f_equal.
  - apply map_ext. intros interval. now apply manager_frequency_truthy, truthy_positive.
  - apply flat_map_ext. intros ext.
    destruct (table_entry CHORD_INTERVALS ext); [|reflexivity].
    f_equal. now apply manager_frequency_truthy, truthy_positive.
Qed.



(** X21: keys seven apart sound an octave apart.  On the sixteen keys of
    [MusicSoundManager], for a positive root and every key with a key
    seven places higher, the higher key has the same Jazz79 extensions
    and, for every list of extensions that does not name a triad, a chord
    whose frequencies are twice those of the lower key, one by one. *)
Theorem manager_keys_seven_apart_are_octaves (root : Q) (noteIndex : nat)
    (extensions : list string) :
  0 < root -> (noteIndex < 9)%nat ->
  Forall (fun ext => ext <> "major" /\ ext <> "minor") extensions ->
  MusicSoundManager.getJazz79Extensions (noteIndex + 7)
  = MusicSoundManager.getJazz79Extensions noteIndex /\
  exists low high,
    MusicSoundManager.buildChordFrequencies (Fin root) noteIndex extensions = Ok low /\
    MusicSoundManager.buildChordFrequencies (Fin root) (noteIndex + 7) extensions
    = Ok high /\
    same_numbers high (map (mul (Fin 2)) low).
Proof.
  intros Hroot Hindex Hexts.
  split.
  { do 9 (destruct noteIndex as [|noteIndex]; [reflexivity|]). lia. }
  destruct (manager_chord_shape root noteIndex extensions Hroot ltac:(lia))
    as (g & t & elems & Hg & _ & Htype & Helems & Hlow).
  destruct (manager_chord_shape root (noteIndex + 7) extensions Hroot ltac:(lia))
    as (g' & t' & elems' & Hg' & _ & Htype' & Helems' & Hhigh).
  destruct (manager_scale_octave root noteIndex Hindex) as (g0 & g0' & Hg0 & Hg0' & Hoctave).
  rewrite Hg in Hg0. rewrite Hg' in Hg0'. injection Hg0 as <-. injection Hg0' as <-.
  assert (Htypes : t' = t).
  { assert (H : ChordSpec.chordType_name t' = ChordSpec.chordType_name t).
    { rewrite <- Htype, <- Htype'.
      do 9 (destruct noteIndex as [|noteIndex]; [reflexivity|]). lia. }
    destruct t, t'; (reflexivity || discriminate). }
  subst t'. rewrite Helems in Helems'. injection Helems' as <-.
  eexists _, _. split; [exact Hlow|]. split; [exact Hhigh|].
  destruct (triad_frequencies g g t (Qeq_refl g)) as (elems1 & Helems1 & Hbefore).
  destruct (triad_frequencies g' (2 * g) t Hoctave) as (elems2 & Helems2 & Hafter).
  rewrite Helems in Helems1, Helems2.
  injection Helems1 as <-. injection Helems2 as <-.
  rewrite map_app. apply Forall2_app.
  - exact (same_numbers_rescaled 2 g _ _ _ Hbefore Hafter).
  - now apply extension_frequencies_scaled.
Qed.

Lemma manager_keys_seven_apart_are_octaves_witness :
  MusicSoundManager.getJazz79Extensions (3 + 7) = MusicSoundManager.getJazz79Extensions 3 /\
  exists low high,
    MusicSoundManager.buildChordFrequencies (Fin 261.63) 3 ["minorSeventh"; "ninth"]%string
    = Ok low /\
    MusicSoundManager.buildChordFrequencies (Fin 261.63) (3 + 7)
      ["minorSeventh"; "ninth"]%string = Ok high /\
    same_numbers high (map (mul (Fin 2)) low).
Proof.
  apply (manager_keys_seven_apart_are_octaves 261.63 3 ["minorSeventh"; "ninth"]%string).
  - reflexivity.
  - lia.
  - repeat constructor; discriminate.
Defined.


(** ** The wave shaper *)

Section DistortionProofs.

Variable Math_PI : Q.

Lemma createDistortion_lookup (amount : Q) (i : nat) :
  (i < distortion_samples)%nat ->
  createDistortion Math_PI amount !! i = Some (distortionSample Math_PI amount i).
Proof.
  intros Hi. unfold createDistortion.
  rewrite list_lookup_fmap, lookup_seq_lt by exact Hi. reflexivity.
Qed.

Lemma createDistortion_length (amount : Q) :
  length (createDistortion Math_PI amount) = distortion_samples.
Proof. unfold createDistortion. now rewrite length_map, length_seq. Qed.

Lemma distortion_denominator (amount x : Q) :
  0 < Math_PI -> 0 <= amount -> 0 < Math_PI + amount * Qabs x.
Proof.
  intros Hpi Hamount. pose proof (Qabs_nonneg x) as Habs.
  assert (0 <= amount * Qabs x) by now apply Qmult_le_0_compat.
  lra.
Qed.

Lemma overflow_fin (x : Q) :
  Qabs x <= 1000000000 -> overflow (Fin x) = Fin x.
Proof.
  intros Hx. unfold overflow.
  destruct (Qle_bool (Qpower 2 1024 - Qpower 2 970) (Qabs x)) eqn:Hbig; [|reflexivity].
  apply Qle_bool_iff in Hbig.
  assert (Hpower : 1000000000 < Qpower 2 1024 - Qpower 2 970) by (vm_compute; reflexivity).
  lra.
Qed.

Lemma Qabs_mult_le (u v U V : Q) :
  Qabs u <= U -> Qabs v <= V -> Qabs (u * v) <= U * V.
Proof.
  intros Hu Hv. rewrite Qabs_Qmult.
  pose proof (Qabs_nonneg u). pose proof (Qabs_nonneg v). nra.
Qed.

Lemma store32_fin (y : Q) : - (1 # 2) <= y <= 1 # 2 -> store32 (Fin y) = Fin (fround y).
Proof.
  intros [Hlo Hhi]. unfold store32.
  destruct (Qle_bool (Qpower 2 128) (Qabs (fround y))) eqn:Hbig; [|reflexivity].
  apply Qle_bool_iff in Hbig.
  pose proof (fround_le _ _ Hlo) as Hlo'. pose proof (fround_le _ _ Hhi) as Hhi'.
  assert (Hneg : fround (- (1 # 2)) == - (1 # 2)) by (vm_compute; reflexivity).
  assert (Hpos : fround (1 # 2) == 1 # 2) by (vm_compute; reflexivity).
  rewrite Hneg in Hlo'. rewrite Hpos in Hhi'.
  assert (Habs : Qabs (fround y) <= 1 # 2) by (apply Qabs_Qle_condition; lra).
  assert (Hpower : 1 < Qpower 2 128) by (vm_compute; reflexivity).
  lra.
Qed.

(** The shape before it is stored stays within a half. *)
Lemma shape_half (amount x : Q) :
  0 < Math_PI <= 4 -> 0 <= amount -> -1 <= x <= 1 ->
  - (1 # 2) <= (3 + amount) * x * 20 * (Math_PI / 180) / (Math_PI + amount * Qabs x)
  <= 1 # 2.
Proof.
  intros [Hpi Hpi4] Hamount [Hlo Hhi].
  pose proof (distortion_denominator amount x Hpi Hamount) as Hd.
  assert (Hnum : (3 + amount) * x * 20 * (Math_PI / 180)
                 == (3 + amount) * x * Math_PI * (1 # 9)).
  { unfold Qdiv. change (/ 180) with (1 # 180). ring. }
  rewrite Hnum.
  assert (Habs : 0 <= Qabs x <= 1).
  { split; [apply Qabs_nonneg|]. apply Qabs_Qle_condition. lra. }
  assert (Hx : - Qabs x <= x <= Qabs x).
  { apply Qabs_Qle_condition. lra. }
  set (u := Qabs x) in *.
  assert (Hau : 0 <= amount * u) by (apply Qmult_le_0_compat; lra).
  assert (Hupi : 0 <= u * Math_PI) by (apply Qmult_le_0_compat; lra).
  assert (Haupi : amount * u * Math_PI <= amount * u * 4) by nra.
  assert (Hupi1 : u * Math_PI <= Math_PI) by nra.
  assert (Hxpi : - (u * Math_PI) <= x * Math_PI <= u * Math_PI) by nra.
  assert (Haxpi : - (amount * u * Math_PI) <= amount * (x * Math_PI)
                  <= amount * u * Math_PI) by nra.
  split.
  - apply Qle_shift_div_l; [exact Hd|]. nra.
  - apply Qle_shift_div_r; [exact Hd|]. nra.
Qed.

Lemma distortionInput_range (i : nat) :
  (i < distortion_samples)%nat -> -1 <= distortionInput i < 1.
Proof.
  unfold distortion_samples, distortionInput. intros Hi.
  assert (Hlo : 0 <= inject_Z (Z.of_nat i)).
  { change 0 with (inject_Z 0). rewrite <- Zle_Qle. lia. }
  assert (Hhi : inject_Z (Z.of_nat i) < 44100).
  { change 44100 with (inject_Z 44100). rewrite <- Zlt_Qlt. lia. }
  unfold Qdiv. change (/ 44100) with (1 # 44100). lra.
Qed.


(** For an amount up to a million nothing overflows, and the sample is the
    float32 next to the exact quotient. *)
Lemma distortionSample_value (amount : Q) (i : nat) :
  0 < Math_PI <= 4 -> 0 <= amount <= 1000000 -> (i < distortion_samples)%nat ->
  distortionSample Math_PI amount i =
  Fin (fround ((3 + amount) * distortionInput i * 20 * (Math_PI / 180)
               / (Math_PI + amount * Qabs (distortionInput i)))).
Proof.
  intros Hpi Hamount Hi. unfold distortionSample. cbv zeta.
  pose proof (distortionInput_range i Hi) as Hx.
  set (x := distortionInput i) in *.
  assert (Habs : Qabs x <= 1) by (apply Qabs_Qle_condition; lra).
  assert (Hdeg : Qabs (Math_PI / 180) <= 4 # 180).
  { apply Qabs_Qle_condition. unfold Qdiv. change (/ 180) with (1 # 180). lra. }
  assert (H3 : Qabs (3 + amount) <= 1000003) by (apply Qabs_Qle_condition; lra).
  pose proof (Qabs_mult_le _ _ _ _ H3 Habs) as H3x.
  assert (H20 : Qabs 20 <= 20) by (apply Qabs_Qle_condition; lra).
  pose proof (Qabs_mult_le _ _ _ _ H3x H20) as H3x20.
  pose proof (Qabs_mult_le _ _ _ _ H3x20 Hdeg) as Hnumerator.
  assert (Ha : Qabs amount <= 1000000) by (apply Qabs_Qle_condition; lra).
  assert (Habs' : Qabs (Qabs x) <= 1).
  { apply Qabs_Qle_condition. pose proof (Qabs_nonneg x). lra. }
  pose proof (Qabs_mult_le _ _ _ _ Ha Habs') as Hax.
  pose proof (distortion_denominator amount x (proj1 Hpi) (proj1 Hamount)) as Hd.
  assert (Hdenominator : Qabs (Math_PI + amount * Qabs x) <= 1000004).
  { apply Qabs_Qle_condition. apply Qabs_Qle_condition in Hax. lra. }
  pose proof (shape_half amount x Hpi (proj1 Hamount) ltac:(lra)) as Hhalf.
  cbn [add mul].
  rewrite (overflow_fin (3 + amount)) by lra. cbn [mul].
  rewrite (overflow_fin ((3 + amount) * x)) by lra. cbn [mul].
  rewrite (overflow_fin ((3 + amount) * x * 20)) by lra. cbn [mul].
  rewrite (overflow_fin ((3 + amount) * x * 20 * (Math_PI / 180))) by lra.
  rewrite (overflow_fin (amount * Qabs x)) by lra. cbn [add].
  rewrite (overflow_fin (Math_PI + amount * Qabs x)) by lra.
  unfold div. rewrite Qis_zero_false by lra.
  rewrite overflow_fin by (apply Qabs_Qle_condition; lra).
  now apply store32_fin.
Qed.

Lemma createDistortion_value (amount : Q) (i : nat) :
  0 < Math_PI <= 4 -> 0 <= amount <= 1000000 -> (i < distortion_samples)%nat ->
  createDistortion Math_PI amount !! i =
  Some (Fin (fround ((3 + amount) * distortionInput i * 20 * (Math_PI / 180)
                     / (Math_PI + amount * Qabs (distortionInput i))))).
Proof.
  intros Hpi Hamount Hi.
  now rewrite createDistortion_lookup, distortionSample_value.
Qed.

Lemma distortionInput_rises (i j : nat) :
  (i <= j)%nat -> distortionInput i <= distortionInput j.
Proof.
  unfold distortionInput. intros Hij.
  assert (H : inject_Z (Z.of_nat i) <= inject_Z (Z.of_nat j)).
  { rewrite <- Zle_Qle. lia. }
  unfold Qdiv. change (/ 44100) with (1 # 44100). lra.
Qed.



Lemma shape_rises (amount x y : Q) :
  0 < Math_PI -> 0 <= amount -> x <= y ->
  (3 + amount) * x * 20 * (Math_PI / 180) / (Math_PI + amount * Qabs x)
  <= (3 + amount) * y * 20 * (Math_PI / 180) / (Math_PI + amount * Qabs y).
Proof.
  intros Hpi Hamount Hxy.
  pose proof (distortion_denominator amount x Hpi Hamount) as Hdx.
  pose proof (distortion_denominator amount y Hpi Hamount) as Hdy.
  apply Qle_shift_div_l; [exact Hdy|].
  assert (Hswap : forall n d e : Q, n / d * e == n * e / d)
    by (intros n d e; unfold Qdiv; ring).
  rewrite Hswap. apply Qle_shift_div_r; [exact Hdx|].
  assert (Hk : 0 <= (3 + amount) * 20 * (Math_PI / 180)).
  { unfold Qdiv. change (/ 180) with (1 # 180). nra. }
  assert (Hcore : x * (Math_PI + amount * Qabs y) <= y * (Math_PI + amount * Qabs x)).
  { destruct (Qlt_le_dec x 0) as [Hx | Hx]; destruct (Qlt_le_dec y 0) as [Hy | Hy].
    - rewrite (Qabs_neg x), (Qabs_neg y) by lra. nra.
    - rewrite (Qabs_neg x), (Qabs_pos y) by lra.
      assert (0 <= amount * (y * - x)) by (apply Qmult_le_0_compat; nra). nra.
    - lra.
    - rewrite (Qabs_pos x), (Qabs_pos y) by lra. nra. }
  assert (E1 : (3 + amount) * x * 20 * (Math_PI / 180) * (Math_PI + amount * Qabs y)
               == (3 + amount) * 20 * (Math_PI / 180)
                  * (x * (Math_PI + amount * Qabs y))) by ring.
  assert (E2 : (3 + amount) * y * 20 * (Math_PI / 180) * (Math_PI + amount * Qabs x)
               == (3 + amount) * 20 * (Math_PI / 180)
                  * (y * (Math_PI + amount * Qabs x))) by ring.
  rewrite E1, E2. clear E1 E2.
  revert Hk Hcore.
  generalize ((3 + amount) * 20 * (Math_PI / 180)) as k.
  generalize (x * (Math_PI + amount * Qabs y)) as p.
  generalize (y * (Math_PI + amount * Qabs x)) as q.
  intros q p k Hk Hcore. nra.
Qed.


(** X24: the wave shaper rises and never clips.  For pi between 0 and
    4 and an amount from 0 to a million, the curve of [createDistortion],
    as the [Float32Array] holds it, never falls from one sample to a later
    one, and all its samples lie strictly between -1 and 1. *)
Theorem distortion_curve_rises_within_bounds (amount : Q) (i j : nat) :
  0 < Math_PI <= 4 -> 0 <= amount <= 1000000 -> (i <= j < distortion_samples)%nat ->
  exists y y',
    createDistortion Math_PI amount !! i = Some (Fin y) /\
    createDistortion Math_PI amount !! j = Some (Fin y') /\
    y <= y' /\ -1 < y /\ y' < 1.
Proof.
  intros Hpi Hamount Hij.
  eexists _, _.
  split; [apply createDistortion_value; [exact Hpi | exact Hamount | lia]|].
  split; [apply createDistortion_value; [exact Hpi | exact Hamount | lia]|].
  split; [apply fround_le, shape_rises; [apply Hpi | apply Hamount |];
          apply distortionInput_rises; lia|].
  pose proof (distortionInput_range i ltac:(lia)) as Hxi.
  pose proof (distortionInput_range j ltac:(lia)) as Hxj.
  assert (Hneg : fround (- (1 # 2)) == - (1 # 2)) by (vm_compute; reflexivity).
  assert (Hpos : fround (1 # 2) == 1 # 2) by (vm_compute; reflexivity).
  split.
  - pose proof (shape_half amount (distortionInput i) Hpi (proj1 Hamount) ltac:(lra))
      as [Hlo _].
    apply fround_le in Hlo. rewrite Hneg in Hlo.
    eapply Qlt_le_trans; [|exact Hlo]. reflexivity.
  - pose proof (shape_half amount (distortionInput j) Hpi (proj1 Hamount) ltac:(lra))
      as [_ Hhi].
    apply fround_le in Hhi. rewrite Hpos in Hhi.
    eapply Qle_lt_trans; [exact Hhi|]. reflexivity.
Qed.

End DistortionProofs.


Lemma distortion_curve_rises_within_bounds_witness :
  exists y y',
    createDistortion sample_PI 20 !! 0%nat = Some (Fin y) /\
    createDistortion sample_PI 20 !! 200%nat = Some (Fin y') /\
    y <= y' /\ -1 < y /\ y' < 1.
Proof.
  apply (distortion_curve_rises_within_bounds sample_PI 20 0 200).
  - split; [reflexivity | discriminate].
  - split; discriminate.
  - unfold distortion_samples. lia.
Defined.
(** ** The one-shot sidechain duck *)

Lemma Qis_neg_false (q : Q) : 0 <= q -> Qis_neg q = false.
Proof.
  intros Hq. unfold Qis_neg. destruct (Qcompare_spec q 0); try reflexivity. lra.
Qed.

Lemma pending_from_app (t : Q) (l1 l2 : list ParamEvent) :
  pending_from t (l1 ++ l2) = pending_from t l1 ++ pending_from t l2.
Proof. unfold pending_from. apply List.filter_app. Qed.

Lemma pending_from_cancelled (t : Q) (timeline : list ParamEvent) :
  pending_from t
    (List.filter (fun e => negb (Qle_bool t (event_time e))) timeline) = [].
Proof.
  unfold pending_from. induction timeline as [|e rest IH]; [reflexivity|].
  cbn [List.filter]. destruct (Qle_bool t (event_time e)) eqn:He; cbn [negb List.filter].
  - exact IH.
  - now rewrite He.
Qed.

Lemma pending_from_duck (now value : Q) :
  pending_from now (duck_events now value) = duck_events now value.
Proof.
  unfold pending_from, duck_events. cbn [List.filter event_time].
  assert (Hle : forall d, 0 <= d -> Qle_bool now (now + d) = true).
  { intros d Hd. apply Qle_bool_iff. lra. }
  assert (H0 : Qle_bool now now = true) by (apply Qle_bool_iff; lra).
  rewrite H0.
  rewrite (Hle 0.001) by discriminate.
  assert (H2 : Qle_bool now (now + 0.001 + 0.1) = true) by (apply Qle_bool_iff; lra).
  assert (H3 : Qle_bool now (now + 0.001 + 0.1 + 0.1) = true)
    by (apply Qle_bool_iff; lra).
  now rewrite H2, H3.
Qed.

Lemma duckBus_run (now : Q) (p : GainParam) :
  0 <= now ->
  duckBus now (Qmax 0.001 SIDECHAIN_DUCK_AMOUNT) p =
  (Ok tt,
   {| gain_value := gain_value p;
      events := List.filter (fun e => negb (Qle_bool now (event_time e))) (events p)
                ++ duck_events now (gain_value p) |}).
Proof.
  intros Hnow. unfold duckBus.
  change (Qmax 0.001 SIDECHAIN_DUCK_AMOUNT) with 0.001.
  unfold SIDECHAIN_ATTACK, SIDECHAIN_HOLD, SIDECHAIN_RELEASE.
  rewrite bind_run. unfold cancelScheduledValuesFrom, modify at 1.
  rewrite bind_run. unfold gets at 1. cbn [gain_value].
  rewrite bind_run. unfold gain_setValueAtTime at 1.
  rewrite (Qis_neg_false now) by exact Hnow. unfold schedule at 1, modify at 1.
  rewrite bind_run. unfold exponentialRampToValueAtTime at 1.
  change (Qis_zero 0.001) with false. cbv iota.
  rewrite (Qis_neg_false (now + 0.001)) by lra. unfold schedule at 1, modify at 1.
  rewrite bind_run. unfold gain_setValueAtTime.
  rewrite (Qis_neg_false (now + 0.001 + 0.1)) by lra. unfold schedule at 1, modify at 1.
  unfold exponentialRampToValueAtTime.
  change (Qis_zero 1) with false. cbv iota.
  rewrite (Qis_neg_false (now + 0.001 + 0.1 + 0.1)) by lra. unfold schedule, modify.
  cbn [gain_value events]. unfold duck_events.
  rewrite <- !app_assoc. reflexivity.
Qed.

Lemma duck_events_positive (now value : Q) :
  Forall (fun e => 0.001 <= event_value e) (duck_events now value).
Proof.
  unfold duck_events. repeat constructor; cbn [event_value]; try discriminate.
  apply Q.le_max_l.
Qed.

(** X25: the last duck wins.  [triggerSidechainDuck] never throws.  On
    each bus that exists together with its audio context, whatever the
    gain reads and whatever was scheduled, the events from the trigger
    time on are afterwards exactly the four of one envelope: the gain
    pinned at its value, floored at 0.001, a ramp down to 0.001 after
    1 ms, the hold until 101 ms, a ramp back to 1 at 201 ms; an envelope
    still running is replaced, not queued.  A bus or a context that is
    missing leaves the bus as it is. *)
Theorem duck_last_trigger_wins (b : Buses) :
  (forall t, audioContext_currentTime b = Some t -> 0 <= t) ->
  (forall t, waterContext_currentTime b = Some t -> 0 <= t) ->
  let r := triggerSidechainDuck b in
  result_of r = Ok tt /\
  audioContext_currentTime (state_of r) = audioContext_currentTime b /\
  waterContext_currentTime (state_of r) = waterContext_currentTime b /\
  match sidechainGainGrowl b, audioContext_currentTime b with
  | Some growl, Some now =>
      exists growl',
        sidechainGainGrowl (state_of r) = Some growl' /\
        pending_from now (events growl') = duck_events now (gain_value growl) /\
        Forall (fun e => 0.001 <= event_value e) (pending_from now (events growl'))
  | _, _ => sidechainGainGrowl (state_of r) = sidechainGainGrowl b
  end /\
  match sidechainGainWatersynth b, waterContext_currentTime b with
  | Some water, Some waterNow =>
      exists water',
        sidechainGainWatersynth (state_of r) = Some water' /\
        pending_from waterNow (events water') = duck_events waterNow (gain_value water) /\
        Forall (fun e => 0.001 <= event_value e) (pending_from waterNow (events water'))
  | _, _ => sidechainGainWatersynth (state_of r) = sidechainGainWatersynth b
  end.
Proof.
  intros Hgrowl Hwater r.
  assert (Hpending : forall now p,
    pending_from now
      (List.filter (fun e => negb (Qle_bool now (event_time e))) (events p)
       ++ duck_events now (gain_value p))
    = duck_events now (gain_value p)).
  { intros now p. now rewrite pending_from_app, pending_from_cancelled, pending_from_duck. }
  subst r. unfold triggerSidechainDuck.
  destruct b as [[now|] [growl|] [waterNow|] [water|]];
    cbn [audioContext_currentTime sidechainGainGrowl waterContext_currentTime
         sidechainGainWatersynth default from_option] in *;
    rewrite ?(duckBus_run now) by (now apply Hgrowl);
    cbn [audioContext_currentTime sidechainGainGrowl waterContext_currentTime
         sidechainGainWatersynth];
    rewrite ?(duckBus_run waterNow) by (now apply Hwater);
    cbn [result_of state_of fst snd audioContext_currentTime sidechainGainGrowl
         waterContext_currentTime sidechainGainWatersynth];
    repeat split;
    try (eexists; split; [reflexivity|]; cbn [events]; rewrite Hpending;
         split; [reflexivity | apply duck_events_positive]).
Qed.

Lemma duck_last_trigger_wins_witness :
  let b := {| audioContext_currentTime := Some 2;
              sidechainGainGrowl :=
                Some {| gain_value := 0;
                        events := [SetValue 1 1; ExponentialRamp 1 (21 # 10)] |};
              waterContext_currentTime := None;
              sidechainGainWatersynth := None |} in
  result_of (triggerSidechainDuck b) = Ok tt.
Proof.
  intros b.
  refine (proj1 (duck_last_trigger_wins b _ _)).
  - intros t [= <-]. discriminate.
  - intros t [=].
Defined.
(** ** The parameters of the drums *)

Lemma or_else_truthy (value : option num) (fallback : Q) :
  ~ fallback == 0 -> truthy (or_else value fallback) = true.
Proof.
  intros Hfallback. unfold or_else.
  assert (Hf : truthy (Fin fallback) = true)
    by (cbn; now rewrite Qis_zero_false).
  destruct value as [v|]; [|exact Hf].
  destruct (truthy v) eqn:Hv; [exact Hv | exact Hf].
Qed.

Lemma or_else_again (value : option num) (fallback : Q) :
  ~ fallback == 0 ->
  or_else (Some (or_else value fallback)) fallback = or_else value fallback.
Proof.
  intros Hfallback. unfold or_else at 1.
  now rewrite or_else_truthy.
Qed.

(** X26: for the snare, 0 is not a setting.  Whatever parameters
    [new SnareDrum(params)] is given, its noise level, oscillator level,
    oscillator frequency, duration and volume end up neither 0 nor NaN: a
    value of 0 is replaced by the default, as a missing one is (volume 0
    gives 1, noise level 0 gives 150).  Only the thud level keeps a 0.
    Constructing again from the parameters of a snare changes nothing. *)
Theorem snare_zero_is_not_a_setting (params : SnareDrum.Params) :
  let drum := SnareDrum.construct params in
  (exists noise osc freq duration volume,
      SnareDrum.noiseLevel drum = Some noise /\ truthy noise = true /\
      SnareDrum.oscLevel drum = Some osc /\ truthy osc = true /\
      SnareDrum.oscFreq drum = Some freq /\ truthy freq = true /\
      SnareDrum.duration drum = Some duration /\ truthy duration = true /\
      SnareDrum.volume drum = Some volume /\ truthy volume = true) /\
  (SnareDrum.volume params = Some (Fin 0) -> SnareDrum.volume drum = Some (Fin 1)) /\
  (SnareDrum.noiseLevel params = Some (Fin 0) ->
   SnareDrum.noiseLevel drum = Some (Fin 150)) /\
  (SnareDrum.thudLevel params = Some (Fin 0) -> SnareDrum.thudLevel drum = Some (Fin 0)) /\
  SnareDrum.construct drum = drum.
Proof.
  intros drum. subst drum. unfold SnareDrum.construct.
  cbn [SnareDrum.noiseLevel SnareDrum.oscLevel SnareDrum.thudLevel SnareDrum.oscFreq
       SnareDrum.duration SnareDrum.volume].
  split.
  { eexists _, _, _, _, _.
    repeat (split; [reflexivity|]; split; [apply or_else_truthy; discriminate|]).
    split; [reflexivity | apply or_else_truthy; discriminate]. }
  split; [now intros ->|]. split; [now intros ->|]. split; [now intros ->|].
  rewrite !or_else_again by discriminate.
  f_equal. now destruct (SnareDrum.thudLevel params).
Qed.

Lemma snare_zero_is_not_a_setting_witness :
  SnareDrum.volume
    (SnareDrum.construct
       {| SnareDrum.noiseLevel := None; SnareDrum.oscLevel := None;
          SnareDrum.thudLevel := Some (Fin 0); SnareDrum.oscFreq := None;
          SnareDrum.duration := None; SnareDrum.volume := Some (Fin 0) |})
  = Some (Fin 1).
Proof.
  refine (proj1 (proj2 (snare_zero_is_not_a_setting _)) _). reflexivity.
Defined.

Lemma unless_undefined_again (value fallback other : option num) :
  is_Some fallback ->
  unless_undefined (unless_undefined value fallback) other
  = unless_undefined value fallback.
Proof. intros [v ->]. now destruct value. Qed.

Lemma hihat_presetDefaults_cases (preset : string) :
  HiHat.presetDefaults preset =
  if String.eqb preset "open" then HiHat.open
  else if String.eqb preset "closed" then HiHat.closed
  else if JsObject.inherited preset then HiHat.no_parameters
  else HiHat.open.
Proof.
  unfold HiHat.presetDefaults, JsObject.get, HiHat.presets.
  destruct (String.eqb_spec preset "open") as [-> | Hopen]; [reflexivity|].
  rewrite lookup_insert_ne by congruence.
  destruct (String.eqb_spec preset "closed") as [-> | Hclosed]; [reflexivity|].
  rewrite lookup_insert_ne by congruence. rewrite lookup_empty.
  now destruct (JsObject.inherited preset).
Qed.

Lemma hihat_preset_complete (preset : string) :
  JsObject.inherited preset = false ->
  let p := HiHat.presetDefaults preset in
  (p = HiHat.open \/ p = HiHat.closed) /\
  is_Some (HiHat.noiseLevel p) /\ is_Some (HiHat.brightness p) /\
  is_Some (HiHat.decay p) /\ is_Some (HiHat.volume p) /\
  is_Some (HiHat.reverbRoomSize p) /\ is_Some (HiHat.reverbDecayTime p) /\
  is_Some (HiHat.reverbGain p).
Proof.
  intros Hplain. cbv zeta. rewrite hihat_presetDefaults_cases, Hplain.
  destruct (String.eqb preset "open");
    [|destruct (String.eqb preset "closed")];
    cbn; (split; [auto|]); repeat split; eauto.
Qed.

(** X27: the hi-hat keeps a 0 and floors its length.  [new HiHat(preset,
    params)] takes each parameter that is given, 0 included, and the
    preset's value otherwise; a preset name other than closed stands for
    open, unless it names a member of [Object.prototype]: then
    [HiHat.presets[preset]] is that member, and every parameter that is
    not given stays undefined, so that [play()] computes a duration of
    NaN.  For the other preset names constructing again from the result,
    under any preset name, changes nothing.  For a finite decay [play()]
    lasts at least 0.1 s, so the closed preset, with a decay of 0.1 ms,
    lasts as long as a decay of 100 ms; and the times it schedules at
    rise strictly: the envelope is over before the noise source is
    stopped. *)
Theorem hihat_keeps_zero_and_floors_length (preset other : string) (params : HiHat.Params)
    (now decay : Q) :
  let hat := HiHat.construct preset params in
  (forall v, HiHat.volume params = Some v -> HiHat.volume hat = Some v) /\
  (preset <> "closed"%string -> JsObject.inherited preset = false ->
   HiHat.construct preset params = HiHat.construct "open" params) /\
  (JsObject.inherited preset = true ->
   hat = params /\
   (HiHat.decay params = None -> HiHat.play_duration (HiHat.decay hat) = NaN)) /\
  (JsObject.inherited preset = false -> HiHat.construct other hat = hat) /\
  exists duration,
    HiHat.play_duration (Some (Fin decay)) = Fin duration /\
    0.1 <= duration /\
    (decay <= 100 -> duration == 0.1) /\
    rising (HiHat.play_times now duration).
Proof.
  intros hat. subst hat.
  split; [intros v Hv; cbn; now rewrite Hv|].
  split.
  { intros Hclosed Hplain. unfold HiHat.construct.
    rewrite !hihat_presetDefaults_cases, Hplain.
    destruct (String.eqb_spec preset "closed") as [-> | _]; [congruence|].
    now destruct (String.eqb preset "open"). }
  split.
  { intros Hinherited.
    assert (Hsame : HiHat.construct preset params = params).
    { unfold HiHat.construct. rewrite hihat_presetDefaults_cases, Hinherited.
      destruct (String.eqb_spec preset "open") as [-> | _]; [discriminate|].
      destruct (String.eqb_spec preset "closed") as [-> | _]; [discriminate|].
      destruct params as [[?|] [?|] [?|] [?|] [?|] [?|] [?|]]; reflexivity. }
    split; [exact Hsame|]. intros Hdecay. now rewrite Hsame, Hdecay. }
  split.
  { intros Hplain.
    destruct (hihat_preset_complete preset Hplain) as (_ & H1 & H2 & H3 & H4 & H5 & H6 & H7).
    unfold HiHat.construct at 1.
    cbn [HiHat.noiseLevel HiHat.brightness HiHat.decay HiHat.volume HiHat.reverbRoomSize
         HiHat.reverbDecayTime HiHat.reverbGain HiHat.construct].
    now rewrite !unless_undefined_again by assumption. }
  exists (Qmax 0.1 (decay / 1000)).
  split; [reflexivity|].
  assert (Hfloor : 0.1 <= Qmax 0.1 (decay / 1000)) by apply Q.le_max_l.
  split; [exact Hfloor|]. split.
  { intros Hdecay. apply Q.max_l.
    unfold Qdiv. change (/ 1000) with (1 # 1000). lra. }
  unfold HiHat.play_times. cbn [rising].
  set (duration := Qmax 0.1 (decay / 1000)) in *.
  repeat split; lra.
Qed.

Lemma hihat_keeps_zero_and_floors_length_witness :
  HiHat.volume
    (HiHat.construct "closed"
       {| HiHat.noiseLevel := None; HiHat.brightness := None; HiHat.decay := None;
          HiHat.volume := Some (Fin 0); HiHat.reverbRoomSize := None;
          HiHat.reverbDecayTime := None; HiHat.reverbGain := None |})
  = Some (Fin 0) /\
  exists duration,
    HiHat.play_duration (HiHat.decay HiHat.closed) = Fin duration /\ duration == 0.1.
Proof.
  destruct (hihat_keeps_zero_and_floors_length "closed" "open"
              {| HiHat.noiseLevel := None; HiHat.brightness := None; HiHat.decay := None;
                 HiHat.volume := Some (Fin 0); HiHat.reverbRoomSize := None;
                 HiHat.reverbDecayTime := None; HiHat.reverbGain := None |}
              0 0.1) as (Hvolume & _ & _ & _ & duration & Hduration & _ & Hfloor & _).
  split.
  - apply Hvolume. reflexivity.
  - exists duration. split; [exact Hduration|]. apply Hfloor. discriminate.
Defined.
